(** * Beautify fill: edge rotation driven by a quality metric

    Shallow embedding of [bmesh_beautify.cc] (the file that rotates the
    edges between pairs of triangles until no rotation improves the mesh),
    with the collaborators it calls (the mesh kernel, [BLI_heap], [BLI_gset]
    and the [BLI_math] geometry routines) kept outside: the topology reads,
    [BM_edge_rotate] and the geometry routines are variables of the section,
    the heap and the set are small executable models. *)

From Stdlib Require Import ZArith List Bool Lia.
From Stdlib Require Import SpecFloat.
From stdpp Require Import base decidable option list functions finite.

Local Open Scope Z_scope.

(** ** C [float]: IEEE-754 binary32 *)

Module Float32.
Definition prec : Z := 24.
Definition emax : Z := 128.
Definition float : Type := spec_float.

Definition fzero : float := S754_zero false.
(** [FLT_MAX] = (2^24 - 1) * 2^104. *)
Definition FLT_MAX : float := S754_finite false 16777215 104.

(** [a < b] and [a == b] of C, both false on NaN. *)
Definition flt (a b : float) : bool := SFltb a b.
Definition feq (a b : float) : bool := SFeqb a b.
Definition fsub (a b : float) : float := SFsub prec emax a b.
Definition fadd (a b : float) : float := SFadd prec emax a b.
Definition fmul (a b : float) : float := SFmul prec emax a b.
End Float32.

Import Float32.

(** [float co[3]]. *)
Definition vec3 : Type := float * float * float.

(** A float that is a number below zero, minus infinity included: what
    [cost < 0.0f] lets through. *)
Definition is_negative (x : float) : Prop :=
  match x with
  | S754_infinity true | S754_finite true _ _ => True
  | _ => False
  end.

(** ** GSet for edge rotation *)

(** [struct EdRotState]: [v_pair] are the edge vertex indices (small to
    large), [f_pair] the indices of the vertex of each connected triangle
    that is not on the edge (small to large). *)
Record EdRotState : Type := mkEdRotState {
  v_pair : Z * Z;
  f_pair : Z * Z;
}.

Global Instance EdRotState_eq_dec : EqDecision EdRotState.
Proof. solve_decision. Defined.

(** The set is keyed by the four ints of the struct
    ([BLI_ghashutil_inthash_v4_cmp]).  [BLI_gset_insert] adds the key without
    looking for an equal one, so the model is a list and a key inserted twice
    is there twice. *)
Definition GSet : Type := list EdRotState.

Definition erot_gset_new : GSet := [].
Definition BLI_gset_haskey (gs : GSet) (key : EdRotState) : bool :=
  bool_decide (key ∈ gs).
Definition BLI_gset_insert (gs : GSet) (key : EdRotState) : GSet := key :: gs.

(** The number of keys of a set that may not have been created yet. *)
Definition set_size (o : option GSet) : nat :=
  match o with Some gs => length gs | None => 0%nat end.

(** [EDGE_ORD(v0, v1)]: ensure v0 is smaller. *)
Definition EDGE_ORD (p : Z * Z) : Z * Z :=
  if p.1 >? p.2 then (p.2, p.1) else p.

(** [erot_gsetutil_cmp], which the file keeps under [#if 0] since the set
    is made with [BLI_ghashutil_inthash_v4_cmp]: the keys compared int by int,
    [v_pair] first. *)
Definition erot_gsetutil_cmp (a b : EdRotState) : Z :=
  if (v_pair a).1 <? (v_pair b).1 then -1
  else if (v_pair a).1 >? (v_pair b).1 then 1
  else if (v_pair a).2 <? (v_pair b).2 then -1
  else if (v_pair a).2 >? (v_pair b).2 then 1
  else if (f_pair a).1 <? (f_pair b).1 then -1
  else if (f_pair a).1 >? (f_pair b).1 then 1
  else if (f_pair a).2 <? (f_pair b).2 then -1
  else if (f_pair a).2 >? (f_pair b).2 then 1
  else 0.

(** ** Arrays indexed by a C [int]

    [None] is an access outside the allocation. *)
Definition arr_get {A} (l : list A) (i : Z) : option A :=
  if decide (0 <= i) then l !! Z.to_nat i else None.

Definition arr_set {A} (l : list A) (i : Z) (x : A) : option (list A) :=
  if decide (0 <= i < Z.of_nat (length l)) then Some (<[Z.to_nat i := x]> l)
  else None.

(** ** BLI_heap *)

Section HeapModel.
Context {P : Type}.

(** Modelled from the spec: [BLI_heap] is not in this file.  A min-heap of
    (value, pointer) nodes with insert (returning the node as an opaque
    handle), remove by handle and pop of a node of minimal value.  A handle
    is the number the node got when it was allocated. *)
Record HeapNode : Type := mkHeapNode {
  node_id : nat;
  node_value : float;
  node_ptr : P;
}.

Record Heap : Type := mkHeap {
  heap_nodes : list HeapNode;
  heap_next : nat;
}.

Definition BLI_heap_new_ex (reserve : Z) : Heap :=
  {| heap_nodes := []; heap_next := 0%nat |}.

Definition BLI_heap_is_empty (h : Heap) : bool :=
  match heap_nodes h with [] => true | _ => false end.

Definition BLI_heap_insert (h : Heap) (value : float) (ptr : P) : Heap * nat :=
  ({| heap_nodes := heap_nodes h ++ [mkHeapNode (heap_next h) value ptr];
      heap_next := S (heap_next h) |},
   heap_next h).

Definition BLI_heap_remove (h : Heap) (node : nat) : Heap :=
  {| heap_nodes := filter (λ n, node_id n ≠ node) (heap_nodes h);
     heap_next := heap_next h |}.

(** The first node no other node is strictly below. *)
Fixpoint heap_top (ns : list HeapNode) : option HeapNode :=
  match ns with
  | [] => None
  | n :: ns' =>
      match heap_top ns' with
      | Some m => if flt (node_value m) (node_value n) then Some m else Some n
      | None => Some n
      end
  end.

Definition BLI_heap_pop_min (h : Heap) : option (HeapNode * Heap) :=
  n ← heap_top (heap_nodes h);
  Some (n, BLI_heap_remove h (node_id n)).

Definition heap_wf (h : Heap) : Prop :=
  NoDup (node_id <$> heap_nodes h) ∧
  ∀ n, n ∈ heap_nodes h → (node_id n < heap_next h)%nat.
End HeapModel.

Arguments HeapNode : clear implicits.
Arguments Heap : clear implicits.

(** ** The optimizer over an abstract mesh *)

(** The mesh kernel.  [BMesh] is the state of the whole mesh; vertices,
    edges, loops and faces are handles (the pointers of the C code) whose
    fields are read through the mesh. *)
Class BMeshKernel (BMesh BMVert BMEdge BMLoop BMFace : Type) : Type := {
  (** [e->v1], [e->v2], [e->l]. *)
  e_v1 : BMesh → BMEdge → BMVert;
  e_v2 : BMesh → BMEdge → BMVert;
  e_l : BMesh → BMEdge → BMLoop;
  (** [l->v], [l->e], [l->f], [l->next], [l->prev], [l->radial_next]. *)
  l_v : BMesh → BMLoop → BMVert;
  l_e : BMesh → BMLoop → BMEdge;
  l_f : BMesh → BMLoop → BMFace;
  l_next : BMesh → BMLoop → BMLoop;
  l_prev : BMesh → BMLoop → BMLoop;
  l_radial_next : BMesh → BMLoop → BMLoop;
  (** [v->co], [v->head.hflag] and [v->head.index]: no code on this path
      writes to a vertex, so they do not depend on the mesh state. *)
  v_co : BMVert → vec3;
  v_hflag : BMVert → Z;
  v_index : BMVert → Z;
  BM_edge_is_manifold : BMesh → BMEdge → bool;
  (** [BM_edge_rotate(bm, e, false, BM_EDGEROT_CHECK_EXISTS)]: the new mesh
      and the new edge, or [None] when the rotation is refused. *)
  BM_edge_rotate : BMesh → BMEdge → option (BMesh * BMEdge);
}.

(** [BLI_math] and [BLI_polyfill_2d_beautify]: [normal_tri_v3] writes the
    normal and returns its length before normalization;
    [angle_normalized_v3v3] is the angle between two unit vectors. *)
Class BLIMath : Type := {
  normal_tri_v3 : vec3 → vec3 → vec3 → vec3 * float;
  angle_normalized_v3v3 : vec3 → vec3 → float;
  BLI_polyfill_edge_calc_rotate_beauty__area : vec3 → vec3 → vec3 → vec3 → bool → float;
}.

(** Flag bits declared in headers that are not part of this file. *)
Class BeautifyFlags : Type := {
  VERT_RESTRICT_TAG : Z;
  EDGE_RESTRICT_DEGENERATE : Z;
  BM_ELEM_TAG : Z;
}.

Section Beautify.
Context {BMesh BMVert BMEdge BMLoop BMFace : Type}.
Context {kernel : BMeshKernel BMesh BMVert BMEdge BMLoop BMFace}.
Context {math : BLIMath} {flags : BeautifyFlags}.
Context `{!EqDecision BMVert, !EqDecision BMEdge}.

Definition BM_elem_flag_test (v : BMVert) (hflag : Z) : Z :=
  Z.land (v_hflag v) hflag.

(** *** Edge rotation state *)

Definition erot_state_ex (m : BMesh) (e : BMEdge) : (Z * Z) * (Z * Z) :=
  (* verts of the edge *)
  let v_index_ := EDGE_ORD (v_index (e_v1 m e), v_index (e_v2 m e)) in
  (* verts of each of the 2 faces attached to this edge
     (that are not a part of this edge) *)
  let f_index_ :=
    EDGE_ORD (v_index (l_v m (l_prev m (e_l m e))),
              v_index (l_v m (l_prev m (l_radial_next m (e_l m e))))) in
  (v_index_, f_index_).

Definition erot_state_current (m : BMesh) (e : BMEdge) : EdRotState :=
  let '(v_index_, f_index_) := erot_state_ex m e in
  {| v_pair := v_index_; f_pair := f_index_ |}.

Definition erot_state_alternate (m : BMesh) (e : BMEdge) : EdRotState :=
  let '(v_index_, f_index_) := erot_state_ex m e in
  {| f_pair := v_index_; v_pair := f_index_ |}.

(** *** Calculate the improvement of rotating the edge *)

Definition bm_edge_calc_rotate_beauty__angle (v1 v2 v3 v4 : vec3) : float :=
  (* edge (2-4), current state *)
  let no_a := (normal_tri_v3 v2 v3 v4).1 in
  let no_b := (normal_tri_v3 v2 v4 v1).1 in
  let angle_24 := angle_normalized_v3v3 no_a no_b in
  (* edge (1-3), new state: only check new state for degenerate outcome *)
  let '(no_a, len_a) := normal_tri_v3 v1 v2 v3 in
  if feq len_a fzero then FLT_MAX
  else
    let '(no_b, len_b) := normal_tri_v3 v1 v3 v4 in
    if feq len_b fzero then FLT_MAX
    else
      let angle_13 := angle_normalized_v3v3 no_a no_b in
      fsub angle_13 angle_24.

Definition BM_verts_calc_rotate_beauty
    (v1 v2 v3 v4 : BMVert) (flag method : Z) : float :=
  if bool_decide (Z.land flag VERT_RESTRICT_TAG ≠ 0)
     && bool_decide (BM_elem_flag_test v1 BM_ELEM_TAG
                     = BM_elem_flag_test v3 BM_ELEM_TAG)
  then FLT_MAX
  else if bool_decide (v1 = v3) then FLT_MAX
  else if bool_decide (method = 0) then
    BLI_polyfill_edge_calc_rotate_beauty__area
      (v_co v1) (v_co v2) (v_co v3) (v_co v4)
      (bool_decide (Z.land flag EDGE_RESTRICT_DEGENERATE ≠ 0))
  else
    bm_edge_calc_rotate_beauty__angle (v_co v1) (v_co v2) (v_co v3) (v_co v4).

Definition bm_edge_calc_rotate_beauty
    (m : BMesh) (e : BMEdge) (flag method : Z) : float :=
  let v1 := l_v m (l_prev m (e_l m e)) in                     (* first vert co *)
  let v2 := l_v m (e_l m e) in                                (* e->v1 or e->v2 *)
  let v3 := l_v m (l_prev m (l_radial_next m (e_l m e))) in   (* second vert co *)
  let v4 := l_v m (l_next m (e_l m e)) in                     (* e->v1 or e->v2 *)
  BM_verts_calc_rotate_beauty v1 v2 v3 v4 flag method.

(** *** State of one invocation

    [bm] with the edge indices ([e->head.index], written by
    [BM_elem_index_set]) and the operator flags of edges and faces kept
    beside it, the caller's [edge_array], and the locals [eheap],
    [eheap_table], [edge_state_arr].  The operator flags are the list of
    the [BMO_*_flag_enable] calls made, latest first. *)
Record State : Type := mkState {
  bm : BMesh;
  e_index : BMEdge → Z;
  elem_index_dirty : bool;
  edge_oflags : list (BMEdge * Z);
  face_oflags : list (BMFace * Z);
  edge_array : list BMEdge;
  eheap : Heap BMEdge;
  eheap_table : list (option nat);
  edge_state_arr : list (option GSet);
}.

Definition set_heap (s : State) (h : Heap BMEdge) (t : list (option nat)) : State :=
  mkState (bm s) (e_index s) (elem_index_dirty s) (edge_oflags s) (face_oflags s)
          (edge_array s) h t (edge_state_arr s).

Definition edge_array_len (s : State) : Z := Z.of_nat (length (edge_array s)).

(** *** Update the edge cost of rotation in the heap *)

Definition edge_in_array (e : BMEdge) (s : State) : bool :=
  let index := e_index s e in
  bool_decide (0 <= index) && bool_decide (index < edge_array_len s)
  && bool_decide (arr_get (edge_array s) index = Some e).

(** recalc an edge in the heap (surrounding geometry has changed) *)
Definition bm_edge_update_beauty_cost_single
    (flag method : Z) (e : BMEdge) (s : State) : option State :=
  if edge_in_array e s then
    let i := e_index s e in
    e_state_set ← arr_get (edge_state_arr s) i;
    node ← arr_get (eheap_table s) i;
    s1 ← match node with
         | Some n =>
             t ← arr_set (eheap_table s) i None;
             Some (set_heap s (BLI_heap_remove (eheap s) n) t)
         | None => Some s
         end;
    (* check we're not moving back into a state we have been in before *)
    if match e_state_set with
       | Some gs => BLI_gset_haskey gs (erot_state_alternate (bm s1) e)
       | None => false
       end
    then Some s1
    else
      (* recalculate edge *)
      let cost := bm_edge_calc_rotate_beauty (bm s1) e flag method in
      if flt cost fzero then
        let '(h, n) := BLI_heap_insert (eheap s1) cost e in
        t ← arr_set (eheap_table s1) i (Some n);
        Some (set_heap s1 h t)
      else
        t ← arr_set (eheap_table s1) i None;
        Some (set_heap s1 (eheap s1) t)
  else Some s.

(** The four edges around the two triangles of [e]. *)
Definition e_arr (m : BMesh) (e : BMEdge) : list BMEdge :=
  [ l_e m (l_next m (e_l m e));
    l_e m (l_prev m (e_l m e));
    l_e m (l_next m (l_radial_next m (e_l m e)));
    l_e m (l_prev m (l_radial_next m (e_l m e))) ].

Fixpoint update_each (flag method : Z) (es : list BMEdge) (s : State)
    : option State :=
  match es with
  | [] => Some s
  | e :: es' =>
      s' ← bm_edge_update_beauty_cost_single flag method e s;
      update_each flag method es' s'
  end.

(** we have rotated an edge, tag other edges and clear this one *)
Definition bm_edge_update_beauty_cost
    (flag method : Z) (e : BMEdge) (s : State) : option State :=
  update_each flag method (e_arr (bm s) e) s.

(** *** Beautify fill *)

(** One pass of the loop that builds the heap: slot [i] holds [e]. *)
Definition build_heap_at (flag method : Z) (i : nat) (e : BMEdge) (s : State)
    : State :=
  let cost := bm_edge_calc_rotate_beauty (bm s) e flag method in
  let '(h, t) :=
    if flt cost fzero then
      let '(h, n) := BLI_heap_insert (eheap s) cost e in
      (h, <[i := Some n]> (eheap_table s))
    else (eheap s, <[i := None]> (eheap_table s)) in
  mkState (bm s) (<[e := Z.of_nat i]> (e_index s)) (elem_index_dirty s)
          (edge_oflags s) (face_oflags s) (edge_array s) h t (edge_state_arr s).

Fixpoint build_heap (flag method : Z) (i : nat) (es : list BMEdge) (s : State)
    : State :=
  match es with
  | [] => s
  | e :: es' => build_heap flag method (S i) es' (build_heap_at flag method i e s)
  end.

(** The state on entry of the [while] loop.  [edge_state_arr] is zeroed by
    its allocation; [eheap_table] is not initialized, and every slot of it
    is written while the heap is built. *)
Definition beautify_init (flag method : Z) (m : BMesh) (index0 : BMEdge → Z)
    (eflags : list (BMEdge * Z)) (fflags : list (BMFace * Z))
    (edges : list BMEdge) : State :=
  let s := build_heap flag method 0 edges
    (mkState m index0 false eflags fflags edges
       (BLI_heap_new_ex (Z.of_nat (length edges)))
       (replicate (length edges) None) (replicate (length edges) None)) in
  mkState (bm s) (e_index s) true (edge_oflags s) (face_oflags s)
          (edge_array s) (eheap s) (eheap_table s) (edge_state_arr s).

(** The body of [while (BLI_heap_is_empty(eheap) == false)]. *)
Definition loop_body (flag method oflag_edge oflag_face : Z) (s : State)
    : option State :=
  '(n, h) ← BLI_heap_pop_min (eheap s);
  let e := node_ptr n in
  let i := e_index s e in
  t ← arr_set (eheap_table s) i None;
  let s := set_heap s h t in
  match BM_edge_rotate (bm s) e with
  | None => Some s
  | Some (m', e') =>
      e_state_set ← arr_get (edge_state_arr s) i;
      (* add the new state into the set so we don't move into this state again *)
      let e_state := erot_state_current m' e' in
      let gs := match e_state_set with Some gs => gs | None => erot_gset_new end in
      sets ← arr_set (edge_state_arr s) i (Some (BLI_gset_insert gs e_state));
      (* maintain the index array *)
      ea ← arr_set (edge_array s) i e';
      let s := mkState m' (<[e' := i]> (e_index s)) (elem_index_dirty s)
                 (edge_oflags s) (face_oflags s) ea (eheap s) (eheap_table s) sets in
      (* recalculate faces connected on the heap *)
      s ← bm_edge_update_beauty_cost flag method e' s;
      (* update flags *)
      let eo := if bool_decide (oflag_edge ≠ 0)
                then (e', oflag_edge) :: edge_oflags s else edge_oflags s in
      let fo := if bool_decide (oflag_face ≠ 0)
                then (l_f (bm s) (l_radial_next (bm s) (e_l (bm s) e')), oflag_face)
                     :: (l_f (bm s) (e_l (bm s) e'), oflag_face) :: face_oflags s
                else face_oflags s in
      Some (mkState (bm s) (e_index s) (elem_index_dirty s) eo fo (edge_array s)
              (eheap s) (eheap_table s) (edge_state_arr s))
  end.

(** The run ends in a state, in an access outside an array, or the fuel
    given was not enough. *)
Inductive outcome : Type :=
  | OutOfFuel
  | Undefined
  | Finished (s : State).

Fixpoint beautify_loop (flag method oflag_edge oflag_face : Z)
    (fuel : nat) (s : State) : outcome :=
  if BLI_heap_is_empty (eheap s) then Finished s
  else match fuel with
       | O => OutOfFuel
       | S fuel' =>
           match loop_body flag method oflag_edge oflag_face s with
           | None => Undefined
           | Some s' => beautify_loop flag method oflag_edge oflag_face fuel' s'
           end
       end.

(** Seeding and the loop, with the locals still there. *)
Definition beautify_run (flag method oflag_edge oflag_face : Z) (fuel : nat)
    (m : BMesh) (index0 : BMEdge → Z)
    (eflags : list (BMEdge * Z)) (fflags : list (BMFace * Z))
    (edges : list BMEdge) : outcome :=
  beautify_loop flag method oflag_edge oflag_face fuel
    (beautify_init flag method m index0 eflags fflags edges).

(** The heap, its table and every set are freed before the return. *)
Definition release (s : State) : State :=
  mkState (bm s) (e_index s) (elem_index_dirty s) (edge_oflags s) (face_oflags s)
          (edge_array s) (BLI_heap_new_ex 0) [] [].

Definition BM_mesh_beautify_fill (flag method oflag_edge oflag_face : Z)
    (fuel : nat) (m : BMesh) (index0 : BMEdge → Z)
    (eflags : list (BMEdge * Z)) (fflags : list (BMFace * Z))
    (edges : list BMEdge) : outcome :=
  match beautify_run flag method oflag_edge oflag_face fuel m index0
          eflags fflags edges with
  | Finished s => Finished (release s)
  | o => o
  end.

(** *** What the run relies on, and what it maintains *)

(** The two vertices opposite to [e] in its two triangles. *)
Definition apex_a (m : BMesh) (e : BMEdge) : BMVert := l_v m (l_prev m (e_l m e)).
Definition apex_b (m : BMesh) (e : BMEdge) : BMVert :=
  l_v m (l_prev m (l_radial_next m (e_l m e))).

(** The two end points of [e] as its first loop gives them. *)
Definition quad_v2 (m : BMesh) (e : BMEdge) : BMVert := l_v m (e_l m e).
Definition quad_v4 (m : BMesh) (e : BMEdge) : BMVert := l_v m (l_next m (e_l m e)).

Definition same_pair {A} (p q : A * A) : Prop := p = q ∨ p = (q.2, q.1).

(** Modelled from the spec: [BM_edge_rotate] is not in this file.  On a
    valid mesh and a manifold edge, a rotation that is not refused flips the
    diagonal of the quad of the two triangles of the edge: the new edge joins
    the two former apexes and its apexes are the former end points; the mesh
    stays valid and the new edge manifold; every other manifold edge is kept,
    is not the new edge, and, unless it is one of the four edges around the
    two new triangles, has the end points and apexes it had, read through
    the edge or through its first loop. *)
Record BM_edge_rotate_spec (mesh_ok : BMesh → Prop) : Prop := {
  rotate_ok : ∀ m e m' e',
    mesh_ok m → BM_edge_is_manifold m e = true →
    BM_edge_rotate m e = Some (m', e') →
    mesh_ok m' ∧ BM_edge_is_manifold m' e' = true;
  rotate_flip : ∀ m e m' e',
    mesh_ok m → BM_edge_is_manifold m e = true →
    BM_edge_rotate m e = Some (m', e') →
    same_pair (e_v1 m' e', e_v2 m' e') (apex_a m e, apex_b m e) ∧
    same_pair (apex_a m' e', apex_b m' e') (e_v1 m e, e_v2 m e);
  rotate_others : ∀ m e m' e' x,
    mesh_ok m → BM_edge_is_manifold m e = true →
    BM_edge_rotate m e = Some (m', e') →
    x ≠ e → BM_edge_is_manifold m x = true →
    x ≠ e' ∧ BM_edge_is_manifold m' x = true;
  rotate_frame : ∀ m e m' e' x,
    mesh_ok m → BM_edge_is_manifold m e = true →
    BM_edge_rotate m e = Some (m', e') →
    x ≠ e → BM_edge_is_manifold m x = true → x ∉ e_arr m' e' →
    e_v1 m' x = e_v1 m x ∧ e_v2 m' x = e_v2 m x ∧
    apex_a m' x = apex_a m x ∧ apex_b m' x = apex_b m x ∧
    quad_v2 m' x = quad_v2 m x ∧ quad_v4 m' x = quad_v4 m x;
}.

(** Every signature the mesh can give: the vertices are finitely many. *)
Definition sig_of (a b c d : BMVert) : EdRotState :=
  {| v_pair := EDGE_ORD (v_index a, v_index b);
     f_pair := EDGE_ORD (v_index c, v_index d) |}.

Definition sig_universe `{!Finite BMVert} : list EdRotState :=
  a ← enum BMVert; b ← enum BMVert; c ← enum BMVert; d ← enum BMVert;
  [sig_of a b c d].

(** The set of slot [k], empty when it was not created yet. *)
Definition slot_set (s : State) (k : nat) : GSet :=
  match edge_state_arr s !! k with
  | Some (Some gs) => gs
  | _ => []
  end.

(** Every executed rotation records one signature. *)
Definition rotations_recorded (s : State) : nat :=
  sum_list_with set_size (edge_state_arr s).

(** The invariant of the loop.  [pending] are the edges whose cost is about
    to be recalculated: the cycle check is not known to hold for them. *)
Record Inv `{!Finite BMVert} (mesh_ok : BMesh → Prop)
    (pending : list BMEdge) (s : State) : Prop := {
  inv_mesh : mesh_ok (bm s);
  inv_len_table : length (eheap_table s) = length (edge_array s);
  inv_len_sets : length (edge_state_arr s) = length (edge_array s);
  inv_nodup : NoDup (edge_array s);
  inv_index : ∀ k e, edge_array s !! k = Some e →
    e_index s e = Z.of_nat k ∧ BM_edge_is_manifold (bm s) e = true;
  inv_heap_wf : heap_wf (eheap s);
  inv_heap : ∀ n, n ∈ heap_nodes (eheap s) →
    flt (node_value n) fzero = true ∧
    ∃ k, edge_array s !! k = Some (node_ptr n) ∧
         eheap_table s !! k = Some (Some (node_id n));
  inv_table : ∀ k h, eheap_table s !! k = Some (Some h) →
    ∃ n, n ∈ heap_nodes (eheap s) ∧ node_id n = h ∧
         edge_array s !! k = Some (node_ptr n);
  inv_alt : ∀ k h e, eheap_table s !! k = Some (Some h) →
    edge_array s !! k = Some e → e ∉ pending →
    erot_state_alternate (bm s) e ∉ slot_set s k;
  inv_sets : ∀ k gs, edge_state_arr s !! k = Some (Some gs) →
    NoDup gs ∧ gs ⊆ sig_universe;
}.

(** What holds while the heap is built, before slot [i] is looked at. *)
Record SeedInv (mesh_ok : BMesh → Prop) (i : nat) (s : State) : Prop := {
  seed_mesh : mesh_ok (bm s);
  seed_len_table : length (eheap_table s) = length (edge_array s);
  seed_sets : edge_state_arr s = replicate (length (edge_array s)) None;
  seed_nodup : NoDup (edge_array s);
  seed_manifold : ∀ k e, edge_array s !! k = Some e →
    BM_edge_is_manifold (bm s) e = true;
  seed_index : ∀ k e, (k < i)%nat → edge_array s !! k = Some e →
    e_index s e = Z.of_nat k;
  seed_heap_wf : heap_wf (eheap s);
  seed_heap : ∀ n, n ∈ heap_nodes (eheap s) →
    flt (node_value n) fzero = true ∧
    ∃ k, (k < i)%nat ∧ edge_array s !! k = Some (node_ptr n) ∧
         eheap_table s !! k = Some (Some (node_id n));
  seed_table : ∀ k h, (k < i)%nat → eheap_table s !! k = Some (Some h) →
    ∃ n, n ∈ heap_nodes (eheap s) ∧ node_id n = h ∧
         edge_array s !! k = Some (node_ptr n);
}.

(** Only the heap and its table differ. *)
Definition same_world (s s' : State) : Prop :=
  bm s' = bm s ∧ e_index s' = e_index s ∧
  elem_index_dirty s' = elem_index_dirty s ∧
  edge_oflags s' = edge_oflags s ∧ face_oflags s' = face_oflags s ∧
  edge_array s' = edge_array s ∧ edge_state_arr s' = edge_state_arr s.

(** The state after a rotation at slot [k], before the costs around the new
    edge are recalculated. *)
Definition rotated (s : State) (k : nat) (m' : BMesh) (e' : BMEdge) : State :=
  mkState m' (<[e' := Z.of_nat k]> (e_index s)) (elem_index_dirty s)
    (edge_oflags s) (face_oflags s) (<[k := e']> (edge_array s))
    (eheap s) (eheap_table s)
    (<[k := Some (BLI_gset_insert (slot_set s k) (erot_state_current m' e'))]>
       (edge_state_arr s)).

(** The state after the node [n] of slot [k] was popped. *)
Definition popped (s : State) (n : HeapNode BMEdge) (k : nat) : State :=
  set_heap s (BLI_heap_remove (eheap s) (node_id n)) (<[k := None]> (eheap_table s)).

(** The flags given by the caller, set on the rotated edge and on its two
    faces. *)
Definition tag_flags (oflag_edge oflag_face : Z) (e' : BMEdge) (s : State) : State :=
  mkState (bm s) (e_index s) (elem_index_dirty s)
    (if bool_decide (oflag_edge ≠ 0)
     then (e', oflag_edge) :: edge_oflags s else edge_oflags s)
    (if bool_decide (oflag_face ≠ 0)
     then (l_f (bm s) (l_radial_next (bm s) (e_l (bm s) e')), oflag_face)
          :: (l_f (bm s) (e_l (bm s) e'), oflag_face) :: face_oflags s
     else face_oflags s)
    (edge_array s) (eheap s) (eheap_table s) (edge_state_arr s).

(** The input the caller owes: a valid mesh, and manifold edges, each once. *)
Definition valid_input (mesh_ok : BMesh → Prop) (m : BMesh) (edges : list BMEdge)
    : Prop :=
  mesh_ok m ∧ NoDup edges ∧ ∀ e, e ∈ edges → BM_edge_is_manifold m e = true.

(** The slot [k] of the table without its node. *)
Definition unqueued (s : State) (k : nat) (node : option nat) : State :=
  match node with
  | Some h => set_heap s (BLI_heap_remove (eheap s) h) (<[k := None]> (eheap_table s))
  | None => s
  end.

(** The outcome of recalculating the cost of the edge [e] of slot [k], as
    [bm_edge_update_beauty_cost_single] computes it. *)
Definition requeued (flag method : Z) (e : BMEdge) (s : State) (k : nat)
    (o : option GSet) (node : option nat) : State :=
  let s1 := unqueued s k node in
  if match o with
     | Some gs => BLI_gset_haskey gs (erot_state_alternate (bm s) e)
     | None => false
     end
  then s1
  else
    let cost := bm_edge_calc_rotate_beauty (bm s) e flag method in
    if flt cost fzero then
      set_heap s1 (BLI_heap_insert (eheap s1) cost e).1
        (<[k := Some (heap_next (eheap s))]> (eheap_table s1))
    else set_heap s1 (eheap s1) (<[k := None]> (eheap_table s1)).

(** Every node of the heap holds a negative cost. *)
Definition heap_negative (s : State) : Prop :=
  ∀ n, n ∈ heap_nodes (eheap s) → flt (node_value n) fzero = true.

(** The cost a node holds is the cost of its edge in the mesh as it is,
    but for the edges whose cost is about to be recalculated. *)
Definition CostInv (flag method : Z) (pending : list BMEdge) (s : State) : Prop :=
  ∀ n, n ∈ heap_nodes (eheap s) → node_ptr n ∉ pending →
       node_value n = bm_edge_calc_rotate_beauty (bm s) (node_ptr n) flag method.

(** [BM_elem_flag_test(v, BM_ELEM_TAG)] as a truth value. *)
Definition BM_elem_tagged (v : BMVert) : bool :=
  negb (BM_elem_flag_test v BM_ELEM_TAG =? 0).

(** One of the two triangles that the rotation of [e] would make has a
    normal of length zero. *)
Definition rotate_degenerate (m : BMesh) (e : BMEdge) : Prop :=
  feq (normal_tri_v3 (v_co (apex_a m e)) (v_co (quad_v2 m e))
         (v_co (apex_b m e))).2 fzero = true ∨
  feq (normal_tri_v3 (v_co (apex_a m e)) (v_co (apex_b m e))
         (v_co (quad_v4 m e))).2 fzero = true.

(** The two cases in which [BM_verts_calc_rotate_beauty] looks at no
    coordinate: the apexes of [e] are one vertex, or the restriction by tag
    is on and both apexes are tagged or both are not. *)
Definition short_circuit (flag : Z) (m : BMesh) (e : BMEdge) : Prop :=
  apex_a m e = apex_b m e ∨
  (Z.land flag VERT_RESTRICT_TAG ≠ 0 ∧
   BM_elem_tagged (apex_a m e) = BM_elem_tagged (apex_b m e)).

(** The states at the head of the loop, from [s0] on. *)
Inductive reachable (flag method oflag_edge oflag_face : Z) (s0 : State)
    : State → Prop :=
  | reach_init : reachable flag method oflag_edge oflag_face s0 s0
  | reach_step s s' :
      reachable flag method oflag_edge oflag_face s0 s →
      BLI_heap_is_empty (eheap s) = false →
      loop_body flag method oflag_edge oflag_face s = Some s' →
      reachable flag method oflag_edge oflag_face s0 s'.

(** A second run, on what a first run returned, records no rotation. *)
Definition beautify_idempotent_on (flag method oflag_edge oflag_face : Z)
    (m : BMesh) (index0 : BMEdge → Z)
    (eflags : list (BMEdge * Z)) (fflags : list (BMFace * Z))
    (edges : list BMEdge) : Prop :=
  ∀ fuel1 s1 fuel2 s2,
    beautify_run flag method oflag_edge oflag_face fuel1 m index0 eflags fflags edges
      = Finished s1 →
    beautify_run flag method oflag_edge oflag_face fuel2 (bm s1) (e_index s1)
      (edge_oflags s1) (face_oflags s1) (edge_array s1) = Finished s2 →
    rotations_recorded s2 = 0%nat.

(** *** Notions for what else the run keeps *)

(** [n] executed rotations lead from one mesh to another, each of a
    manifold edge whose cost in the mesh of the moment is negative. *)
Inductive rotation_chain (flag method : Z) : nat → BMesh → BMesh → Prop :=
  | chain_nil m : rotation_chain flag method 0 m m
  | chain_step n m m1 e m2 e' :
      rotation_chain flag method n m m1 →
      BM_edge_is_manifold m1 e = true →
      flt (bm_edge_calc_rotate_beauty m1 e flag method) fzero = true →
      BM_edge_rotate m1 e = Some (m2, e') →
      rotation_chain flag method (S n) m m2.

(** Passes of the loop that are enough for [slots] slots when the mesh can
    give [sigs] signatures: every pass takes a node off the heap, the heap
    starts with at most one node for a slot, and every executed rotation,
    of which there are at most [slots * sigs], adds at most four. *)
Definition pass_bound (slots sigs : nat) : nat :=
  (4 * (slots * sigs) + slots)%nat.


(** A state, and an outcome, without the flags set for the caller. *)
Definition erase_flags (s : State) : State :=
  mkState (bm s) (e_index s) (elem_index_dirty s) [] [] (edge_array s)
          (eheap s) (eheap_table s) (edge_state_arr s).

Definition outcome_map (f : State → State) (o : outcome) : outcome :=
  match o with
  | Finished s => Finished (f s)
  | OutOfFuel => OutOfFuel
  | Undefined => Undefined
  end.

(** Every slot without a node, but for the edges whose cost is about to be
    recalculated, holds an edge that it does not improve the mesh to rotate
    or that the cycle check keeps off the heap. *)
Definition settled (flag method : Z) (pend : list BMEdge) (s : State) : Prop :=
  ∀ k e, edge_array s !! k = Some e → e ∉ pend →
    eheap_table s !! k = Some None →
    flt (bm_edge_calc_rotate_beauty (bm s) e flag method) fzero = false ∨
    erot_state_alternate (bm s) e ∈ slot_set s k.

(** The states of a run in which no rotation is refused and no rotation
    gives an edge whose cost is negative at once. *)
Inductive smooth_run (flag method oflag_edge oflag_face : Z) (s0 : State)
    : State → Prop :=
  | smooth_init : smooth_run flag method oflag_edge oflag_face s0 s0
  | smooth_step s s' n m' e' :
      smooth_run flag method oflag_edge oflag_face s0 s →
      heap_top (heap_nodes (eheap s)) = Some n →
      BM_edge_rotate (bm s) (node_ptr n) = Some (m', e') →
      flt (bm_edge_calc_rotate_beauty m' e' flag method) fzero = false →
      loop_body flag method oflag_edge oflag_face s = Some s' →
      smooth_run flag method oflag_edge oflag_face s0 s'.

(** Two states that differ at most in the indices of the edges. *)
Definition same_but_index (s t : State) : Prop :=
  bm t = bm s ∧ elem_index_dirty t = elem_index_dirty s ∧
  edge_oflags t = edge_oflags s ∧ face_oflags t = face_oflags s ∧
  edge_array t = edge_array s ∧ eheap t = eheap s ∧
  eheap_table t = eheap_table s ∧ edge_state_arr t = edge_state_arr s.

End Beautify.

(** ** A concrete mesh kernel

    Triangles over six vertices, executable, on which the definitions above
    can be run.  The kernel, the geometry routines and the flag bits are not
    part of the file under study; what stands for them here is as plain as
    possible. *)

Module TriMesh.

Inductive vert : Type := Va | Vb | Vc | Vd | Vp | Vq.

Global Instance vert_eq_dec : EqDecision vert.
Proof. solve_decision. Defined.

Definition vert_enum : list vert := [Va; Vb; Vc; Vd; Vp; Vq].

(** A face is a triangle (three vertices, in order around the face), an edge
    two vertices; both are named by their position in the list.  A loop is a
    corner of a face. *)
Record trimesh : Type := mkTriMesh {
  faces : list (vert * vert * vert);
  edges : list (vert * vert);
}.

Global Instance trimesh_eq_dec : EqDecision trimesh.
Proof. solve_decision. Defined.

Definition loop : Type := nat * nat.

Definition corner (t : vert * vert * vert) (k : nat) : vert :=
  match k with
  | O => t.1.1
  | S O => t.1.2
  | _ => t.2
  end.

Definition tm_l_v (m : trimesh) (l : loop) : vert :=
  from_option (λ t, corner t l.2) Va (faces m !! l.1).
Definition tm_l_next (m : trimesh) (l : loop) : loop := (l.1, ((l.2 + 1) mod 3)%nat).
Definition tm_l_prev (m : trimesh) (l : loop) : loop := (l.1, ((l.2 + 2) mod 3)%nat).
Definition tm_l_f (m : trimesh) (l : loop) : nat := l.1.

Definition same_ends (p q : vert * vert) : bool :=
  bool_decide (p = q) || bool_decide (p = (q.2, q.1)).

Definition find_edge (m : trimesh) (a b : vert) : option nat :=
  fst <$> list_find (λ p, same_ends p (a, b) = true) (edges m).

(** [l->e]: the edge from the vertex of the corner to the next one. *)
Definition tm_l_e (m : trimesh) (l : loop) : nat :=
  default (length (edges m)) (find_edge m (tm_l_v m l) (tm_l_v m (tm_l_next m l))).

Definition all_loops (m : trimesh) : list loop :=
  f ← seq 0 (length (faces m)); k ← [0; 1; 2]%nat; [(f, k)].

Definition loops_of (m : trimesh) (e : nat) : list loop :=
  filter (λ l, tm_l_e m l = e) (all_loops m).

(** [e->l]: the first loop of the radial cycle. *)
Definition tm_e_l (m : trimesh) (e : nat) : loop :=
  default (0, 0)%nat (head (loops_of m e)).

(** [l->radial_next]: the loop of the same edge in another face, or [l]
    itself when there is none. *)
Definition tm_l_radial_next (m : trimesh) (l : loop) : loop :=
  default l (head (filter (λ l' : loop, l'.1 ≠ l.1) (loops_of m (tm_l_e m l)))).

Definition tm_e_v1 (m : trimesh) (e : nat) : vert :=
  from_option fst Va (edges m !! e).
Definition tm_e_v2 (m : trimesh) (e : nat) : vert :=
  from_option snd Va (edges m !! e).

Definition tm_edge_is_manifold (m : trimesh) (e : nat) : bool :=
  bool_decide (e < length (edges m))%nat
  && bool_decide (length (loops_of m e) = 2%nat).

(** Modelled from the spec: the rotation replaces the diagonal v2-v4 of the
    quad v1 v2 v3 v4 by v1-v3, the two triangles becoming (v1 v2 v3) and
    (v1 v3 v4); it is refused for an edge that is not manifold, and when an
    edge v1-v3 exists already.  The edge keeps its name. *)
Definition tm_edge_rotate (m : trimesh) (e : nat) : option (trimesh * nat) :=
  if negb (tm_edge_is_manifold m e) then None
  else
    let l := tm_e_l m e in
    let r := tm_l_radial_next m l in
    let v1 := tm_l_v m (tm_l_prev m l) in
    let v2 := tm_l_v m l in
    let v3 := tm_l_v m (tm_l_prev m r) in
    let v4 := tm_l_v m (tm_l_next m l) in
    if bool_decide (v1 = v3) then None
    else if bool_decide (is_Some (find_edge m v1 v3)) then None
    else Some ({| faces := <[r.1 := (v1, v3, v4)]> (<[l.1 := (v1, v2, v3)]> (faces m));
                  edges := <[e := (v1, v3)]> (edges m) |}, e).

(** Small numbers as floats. *)
Definition of_Z (z : Z) : float := binary_normalize prec emax z 0 false.
Definition half (z : Z) : float := binary_normalize prec emax z (-1) false.

Definition v3_sub (a b : vec3) : vec3 :=
  (fsub a.1.1 b.1.1, fsub a.1.2 b.1.2, fsub a.2 b.2).
Definition v3_dot (a b : vec3) : float :=
  fadd (fadd (fmul a.1.1 b.1.1) (fmul a.1.2 b.1.2)) (fmul a.2 b.2).
Definition v3_cross (a b : vec3) : vec3 :=
  (fsub (fmul a.1.2 b.2) (fmul a.2 b.1.2),
   fsub (fmul a.2 b.1.1) (fmul a.1.1 b.2),
   fsub (fmul a.1.1 b.1.2) (fmul a.1.2 b.1.1)).

(** The normal of a triangle, of unit length unless the triangle has no
    area, and the length it had. *)
Definition tm_normal_tri_v3 (v1 v2 v3 : vec3) : vec3 * float :=
  let n := v3_cross (v3_sub v1 v2) (v3_sub v2 v3) in
  let d := SFsqrt prec emax (v3_dot n n) in
  if feq d fzero then ((fzero, fzero, fzero), fzero)
  else ((SFdiv prec emax n.1.1 d, SFdiv prec emax n.1.2 d, SFdiv prec emax n.2 d), d).

(** In place of the angle (there is no arc cosine at hand): one minus the
    cosine, which grows with the angle from 0 to 2. *)
Definition tm_angle_normalized_v3v3 (a b : vec3) : float :=
  fsub (of_Z 1) (v3_dot a b).

(** In place of the area metric: the squared length of the new diagonal
    minus the squared length of the current one. *)
Definition tm_rotate_beauty_area (v1 v2 v3 v4 : vec3) (lock_degenerate : bool) : float :=
  fsub (v3_dot (v3_sub v1 v3) (v3_sub v1 v3)) (v3_dot (v3_sub v2 v4) (v3_sub v2 v4)).

(** Two roofs: the ridge c-d high above a-b, and the ridge a-b above p-q.
    a and b carry the tag. *)
Definition tm_v_co (v : vert) : vec3 :=
  match v with
  | Va => (of_Z 0, of_Z 1, of_Z 0)
  | Vb => (of_Z 0, of_Z (-1), of_Z 0)
  | Vc => (of_Z (-3), of_Z 0, of_Z 1)
  | Vd => (of_Z 3, of_Z 0, of_Z 1)
  | Vp => (half (-1), of_Z 0, of_Z (-1))
  | Vq => (half 1, of_Z 0, of_Z (-1))
  end.

Definition tm_v_index (v : vert) : Z :=
  match v with Va => 0 | Vb => 1 | Vc => 2 | Vd => 3 | Vp => 4 | Vq => 5 end.

Definition tm_v_hflag (v : vert) : Z :=
  match v with Va | Vb => 16 | _ => 0 end.

Definition tm_kernel_with (co : vert → vec3) : BMeshKernel trimesh vert nat loop nat := {|
  e_v1 := tm_e_v1; e_v2 := tm_e_v2; e_l := tm_e_l;
  l_v := tm_l_v; l_e := tm_l_e; l_f := tm_l_f;
  l_next := tm_l_next; l_prev := tm_l_prev; l_radial_next := tm_l_radial_next;
  v_co := co; v_hflag := tm_v_hflag; v_index := tm_v_index;
  BM_edge_is_manifold := tm_edge_is_manifold;
  BM_edge_rotate := tm_edge_rotate;
|}.

Global Instance tm_kernel : BMeshKernel trimesh vert nat loop nat :=
  tm_kernel_with tm_v_co.

(** The same mesh with a, c and b on one line: rotating c-d would give the
    triangle (a c b), which has no area. *)
Definition flat_v_co (v : vert) : vec3 :=
  match v with
  | Va => (of_Z 0, of_Z 1, of_Z 0)
  | Vb => (of_Z 0, of_Z (-1), of_Z 0)
  | Vc => (of_Z 0, of_Z 0, of_Z 0)
  | Vd => (of_Z 3, of_Z 0, of_Z 1)
  | Vp => (half (-1), of_Z 0, of_Z (-1))
  | Vq => (half 1, of_Z 0, of_Z (-1))
  end.

Global Instance tm_math : BLIMath := {|
  normal_tri_v3 := tm_normal_tri_v3;
  angle_normalized_v3v3 := tm_angle_normalized_v3v3;
  BLI_polyfill_edge_calc_rotate_beauty__area := tm_rotate_beauty_area;
|}.

Global Instance tm_flags : BeautifyFlags := {|
  VERT_RESTRICT_TAG := 1;
  EDGE_RESTRICT_DEGENERATE := 2;
  BM_ELEM_TAG := 16;
|}.

(** The edge 0 is c-d between the triangles (c d a) and (d c b), the edge 1
    is a-b between (a b p) and (b a q); the other eight edges are on the
    border. *)
Definition roofs : trimesh := {|
  faces := [(Vc, Vd, Va); (Vd, Vc, Vb); (Va, Vb, Vp); (Vb, Va, Vq)];
  edges := [(Vc, Vd); (Va, Vb); (Vd, Va); (Va, Vc); (Vc, Vb); (Vb, Vd);
            (Vb, Vp); (Vp, Va); (Va, Vq); (Vq, Vb)];
|}.

Definition index0 (e : nat) : Z := -1.

(** A fan of three triangles around a in the pentagon a b c d p: the edge 0
    is a-c, the edge 1 is a-d. *)
Definition strip : trimesh := {|
  faces := [(Va, Vb, Vc); (Va, Vc, Vd); (Va, Vd, Vp)];
  edges := [(Va, Vc); (Va, Vd); (Va, Vb); (Vb, Vc); (Vc, Vd); (Vd, Vp); (Vp, Va)];
|}.

(** A metric for which every rotation improves the mesh. *)
Definition adversary : BLIMath := {|
  normal_tri_v3 := tm_normal_tri_v3;
  angle_normalized_v3v3 := tm_angle_normalized_v3v3;
  BLI_polyfill_edge_calc_rotate_beauty__area := λ _ _ _ _ _, of_Z (-1);
|}.

(** The meshes that rotations make of a mesh. *)
Definition succs (m : trimesh) : list trimesh :=
  omap (λ e, fst <$> tm_edge_rotate m e) (seq 0 (length (edges m))).

Fixpoint closure (fuel : nat) (seen new : list trimesh) : list trimesh :=
  match fuel with
  | O => seen
  | S fuel' =>
      let next := filter (λ m, m ∉ seen) (remove_dups (new ≫= succs)) in
      match next with
      | [] => seen
      | _ => closure fuel' (seen ++ next) next
      end
  end.

Definition tm_meshes : list trimesh :=
  Eval vm_compute in closure 64 [roofs] [roofs] ++ closure 64 [strip] [strip].

Definition tm_mesh_ok (m : trimesh) : Prop := m ∈ tm_meshes.

Global Instance same_pair_dec {A} `{EqDecision A} (p q : A * A) :
  Decision (same_pair p q).
Proof. unfold same_pair. apply _. Defined.

(** What [BM_edge_rotate_spec] asks of the rotation of [e] in [m], as a
    test. *)
Definition tm_rotate_check (m : trimesh) (e : nat) : bool :=
  negb (tm_edge_is_manifold m e) ||
  match tm_edge_rotate m e with
  | None => true
  | Some (m', e') =>
      bool_decide (m' ∈ tm_meshes) && tm_edge_is_manifold m' e'
      && bool_decide (same_pair (e_v1 m' e', e_v2 m' e') (apex_a m e, apex_b m e))
      && bool_decide (same_pair (apex_a m' e', apex_b m' e') (e_v1 m e, e_v2 m e))
      && forallb (λ x,
           negb (bool_decide (x ≠ e) && tm_edge_is_manifold m x) ||
           (bool_decide (x ≠ e') && tm_edge_is_manifold m' x
            && (bool_decide (x ∈ e_arr m' e')
                || (bool_decide (e_v1 m' x = e_v1 m x)
                    && bool_decide (e_v2 m' x = e_v2 m x)
                    && bool_decide (apex_a m' x = apex_a m x)
                    && bool_decide (apex_b m' x = apex_b m x)
                    && bool_decide (quad_v2 m' x = quad_v2 m x)
                    && bool_decide (quad_v4 m' x = quad_v4 m x)))))
           (seq 0 (length (edges m)))
  end.

(** The states of the run on [roofs] with the angle metric and both inner
    edges as candidates: after the heap was built, after the first pass
    (the rotation of c-d is refused, a-b exists), after the second. *)
Definition roofs_s0 : State :=
  beautify_init 0 1 roofs index0 [] [] [0; 1]%nat.
Definition roofs_s1 : State := default roofs_s0 (loop_body 0 1 0 0 roofs_s0).
Definition roofs_s2 : State := default roofs_s1 (loop_body 0 1 0 0 roofs_s1).

(** The second run, on what the first one returned. *)
Definition roofs_again_s0 : State :=
  beautify_init 0 1 (bm roofs_s2) (e_index roofs_s2) (edge_oflags roofs_s2)
    (face_oflags roofs_s2) (edge_array roofs_s2).
Definition roofs_again_s1 : State :=
  default roofs_again_s0 (loop_body 0 1 0 0 roofs_again_s0).

(** The nodes on top of the heap in [roofs_s0] and [roofs_s1], and the mesh
    once a-b is rotated. *)
Definition roofs_n0 : HeapNode nat :=
  default (mkHeapNode 0 fzero 0%nat) (heap_top (heap_nodes (eheap roofs_s0))).
Definition roofs_n1 : HeapNode nat :=
  default (mkHeapNode 0 fzero 0%nat) (heap_top (heap_nodes (eheap roofs_s1))).
Definition roofs_rotated : trimesh :=
  default roofs (fst <$> tm_edge_rotate roofs 1).

(** A state in which the edge a-b is queued at slot 1 although the set of
    the slot holds its alternate signature. *)
Definition roofs_seen : @State trimesh nat nat :=
  mkState roofs (λ e, Z.of_nat e) true [] [] [0; 1]%nat
    {| heap_nodes := [mkHeapNode 0 (of_Z (-1)) 1%nat]; heap_next := 1 |}
    [None; Some 0%nat]
    [None; Some [erot_state_alternate roofs 1%nat]].

(** The run on [strip] with the metric for which every rotation improves,
    after [k] passes of the loop. *)
Definition strip_s0 : State :=
  beautify_init (math := adversary) 0 0 strip index0 [] [] [0; 1]%nat.
Definition strip_pass (s : State) : State :=
  default s (loop_body (math := adversary) 0 0 0 0 s).
Definition strip_s (k : nat) : State := Nat.iter k strip_pass strip_s0.
Definition strip_n2 : HeapNode nat :=
  default (mkHeapNode 0 fzero 0%nat) (heap_top (heap_nodes (eheap (strip_s 2)))).
Definition strip_m3 : trimesh := bm (strip_s 3).

(** The run with the restriction by tag: a and b, the apexes of c-d, are
    both tagged. *)
Definition roofs_tag_s0 : State :=
  beautify_init 1 1 roofs index0 [] [] [0; 1]%nat.

(** The run on the mesh with a, c and b on one line. *)
Definition flat_s0 : State :=
  beautify_init (kernel := tm_kernel_with flat_v_co)
    0 1 roofs index0 [] [] [0; 1]%nat.

(** Inputs for the further properties. *)

(** Other indices than [index0]'s to start a run with. *)
Definition index7 (e : nat) : Z := 7.

(** The run on [strip] with flags to set on what is rotated, after two
    passes. *)
Definition strip_tagged_pass (s : State) : State :=
  default s (loop_body (math := adversary) 0 0 8 4 s).
Definition strip_tagged_s2 : State :=
  strip_tagged_pass (strip_tagged_pass strip_s0).

(** The node on top of the heap after the third pass. *)
Definition strip_n3 : HeapNode nat :=
  default (mkHeapNode 0 fzero 0%nat) (heap_top (heap_nodes (eheap (strip_s 3)))).

(** The run on [roofs] with a-b as the only candidate: one pass, which
    rotates a-b to p-q. *)
Definition roofs_ab_s0 : State := beautify_init 0 1 roofs index0 [] [] [1]%nat.
Definition roofs_ab_s1 : State := default roofs_ab_s0 (loop_body 0 1 0 0 roofs_ab_s0).
Definition roofs_ab_n0 : HeapNode nat :=
  default (mkHeapNode 0 fzero 0%nat) (heap_top (heap_nodes (eheap roofs_ab_s0))).

End TriMesh.

(** * Proofs *)

(** ** Arrays, signatures, the heap *)

Lemma arr_get_Some {A} (l : list A) (i : Z) (x : A) :
  arr_get l i = Some x ↔ 0 <= i ∧ l !! Z.to_nat i = Some x.
Proof.
  unfold arr_get. destruct (decide (0 <= i)) as [Hi|Hi]; split.
  - intros Hx. done.
  - intros [_ Hx]. done.
  - discriminate.
  - intros [Hx _]. done.
Qed.

Lemma arr_get_nat {A} (l : list A) (k : nat) : arr_get l (Z.of_nat k) = l !! k.
Proof.
  unfold arr_get. destruct (decide (0 <= Z.of_nat k)); [|lia].
  by rewrite Nat2Z.id.
Qed.

Lemma arr_set_nat {A} (l : list A) (k : nat) (x : A) :
  (k < length l)%nat → arr_set l (Z.of_nat k) x = Some (<[k := x]> l).
Proof.
  intros Hk. unfold arr_set.
  destruct (decide (0 <= Z.of_nat k < Z.of_nat (length l))); [|lia].
  by rewrite Nat2Z.id.
Qed.

Lemma arr_set_Some {A} (l l' : list A) (i : Z) (x : A) :
  arr_set l i x = Some l' →
  0 <= i < Z.of_nat (length l) ∧ l' = <[Z.to_nat i := x]> l.
Proof.
  unfold arr_set. destruct (decide (0 <= i < Z.of_nat (length l))); [|discriminate].
  intros [= <-]. done.
Qed.

Lemma EDGE_ORD_swap (a b : Z) : EDGE_ORD (a, b) = EDGE_ORD (b, a).
Proof.
  unfold EDGE_ORD; simpl.
  destruct (Z.gtb_spec a b), (Z.gtb_spec b a); try reflexivity; try lia.
  f_equal; lia.
Qed.

Lemma BLI_gset_haskey_true (gs : GSet) (key : EdRotState) :
  BLI_gset_haskey gs key = true ↔ key ∈ gs.
Proof. unfold BLI_gset_haskey. by rewrite bool_decide_eq_true. Qed.

Lemma BLI_gset_haskey_false (gs : GSet) (key : EdRotState) :
  BLI_gset_haskey gs key = false ↔ key ∉ gs.
Proof. unfold BLI_gset_haskey. by rewrite bool_decide_eq_false. Qed.

Lemma FLT_MAX_not_negative : flt FLT_MAX fzero = false.
Proof. reflexivity. Qed.

Section HeapFacts.
Context {P : Type}.
Implicit Types (h : Heap P) (n : HeapNode P).

Lemma heap_top_elem (ns : list (HeapNode P)) n : heap_top ns = Some n → n ∈ ns.
Proof.
  revert n. induction ns as [|a ns IH]; simpl; intros n Hn; [discriminate|].
  destruct (heap_top ns) as [m|].
  - destruct (flt (node_value m) (node_value a)); injection Hn as <-.
    + right. by apply IH.
    + left.
  - injection Hn as <-. left.
Qed.

Lemma heap_top_is_Some (ns : list (HeapNode P)) : ns ≠ [] → is_Some (heap_top ns).
Proof.
  destruct ns as [|a ns]; [done|]. intros _. simpl.
  destruct (heap_top ns) as [m|]; [|by eexists].
  destruct (flt (node_value m) (node_value a)); by eexists.
Qed.

Lemma BLI_heap_is_empty_false h :
  BLI_heap_is_empty h = false ↔ heap_nodes h ≠ [].
Proof. unfold BLI_heap_is_empty. destruct (heap_nodes h); split; congruence. Qed.

Lemma elem_of_heap_remove h id n :
  n ∈ heap_nodes (BLI_heap_remove h id) ↔ n ∈ heap_nodes h ∧ node_id n ≠ id.
Proof. unfold BLI_heap_remove; simpl. rewrite list_elem_of_filter. tauto. Qed.

Lemma heap_remove_wf h id : heap_wf h → heap_wf (BLI_heap_remove h id).
Proof.
  intros [Hnd Hlt]. split.
  - unfold BLI_heap_remove; simpl.
    eapply sublist_NoDup; [exact Hnd|].
    apply fmap_sublist, sublist_filter.
  - intros n Hn. apply elem_of_heap_remove in Hn as [Hn _]. by apply Hlt.
Qed.

Lemma heap_remove_length h n :
  n ∈ heap_nodes h →
  (length (heap_nodes (BLI_heap_remove h (node_id n))) < length (heap_nodes h))%nat.
Proof.
  intros Hn. unfold BLI_heap_remove; simpl.
  eapply length_filter_lt; [exact Hn|]. intros Hne. by apply Hne.
Qed.

Lemma elem_of_heap_insert h v p n :
  n ∈ heap_nodes (BLI_heap_insert h v p).1 ↔
  n ∈ heap_nodes h ∨ n = mkHeapNode (heap_next h) v p.
Proof. unfold BLI_heap_insert; simpl. rewrite elem_of_app, list_elem_of_singleton. tauto. Qed.

Lemma heap_insert_wf h v p : heap_wf h → heap_wf (BLI_heap_insert h v p).1.
Proof.
  intros [Hnd Hlt]. split.
  - unfold BLI_heap_insert; simpl. rewrite fmap_app. apply NoDup_app.
    split; [done|]. split; [|apply NoDup_singleton].
    intros x Hx Hx'. apply list_elem_of_singleton in Hx'. simpl in Hx'. subst x.
    apply list_elem_of_fmap in Hx as (n & Hn & Hin). apply Hlt in Hin. lia.
  - intros n Hn. apply elem_of_heap_insert in Hn as [Hn| ->]; simpl.
    + apply Hlt in Hn. lia.
    + lia.
Qed.

Lemma heap_insert_fresh h n :
  heap_wf h → n ∈ heap_nodes h → node_id n ≠ heap_next h.
Proof. intros [_ Hlt] Hn. apply Hlt in Hn. lia. Qed.

Lemma heap_wf_inj h n1 n2 :
  heap_wf h → n1 ∈ heap_nodes h → n2 ∈ heap_nodes h →
  node_id n1 = node_id n2 → n1 = n2.
Proof.
  intros [Hnd _] H1 H2 Heq.
  apply list_elem_of_lookup in H1 as [i1 H1]. apply list_elem_of_lookup in H2 as [i2 H2].
  assert (i1 = i2).
  { eapply NoDup_lookup; [exact Hnd| |].
    - rewrite list_lookup_fmap, H1. reflexivity.
    - rewrite list_lookup_fmap, H2. simpl. by rewrite Heq. }
  subst. congruence.
Qed.
End HeapFacts.

(** ** Costs below zero, and the comparison of keys *)

Lemma flt_zero_negative (x : float) : flt x fzero = true ↔ is_negative x.
Proof.
  unfold flt, fzero, SFltb, is_negative.
  destruct x as [[]| [] | |[] ? ?]; simpl; split; try done.
Qed.

Lemma SFcompare_finite_antisym (s : bool) (m1 m2 : positive) (e1 e2 : Z) :
  SFcompare (S754_finite s m1 e1) (S754_finite s m2 e2)
  = option_map CompOpp (SFcompare (S754_finite s m2 e2) (S754_finite s m1 e1)).
Proof.
  simpl. rewrite (Z.compare_antisym e1 e2).
  rewrite !Pos.compare_cont_spec. simpl. rewrite (Pos.compare_antisym m1 m2).
  destruct s, (e1 ?= e2); simpl; try reflexivity;
    destruct (m1 ?= m2)%positive; reflexivity.
Qed.

Lemma negative_comparable (x y : float) :
  is_negative x → is_negative y →
  flt x y = true ∨ feq x y = true ∨ flt y x = true.
Proof.
  unfold flt, feq, SFltb, SFeqb.
  destruct x as [[]|[]| |[] m1 e1]; try done;
    destruct y as [[]|[]| |[] m2 e2]; try done; intros _ _.
  - right; left. reflexivity.
  - left. reflexivity.
  - right; right. reflexivity.
  - rewrite (SFcompare_finite_antisym true m1 m2 e1 e2).
    destruct (SFcompare (S754_finite true m2 e2) (S754_finite true m1 e1)) as [[]|] eqn:Hc;
      simpl; auto.
    simpl in Hc. discriminate.
Qed.

Lemma EDGE_ORD_le (a b : Z) : (EDGE_ORD (a, b)).1 <= (EDGE_ORD (a, b)).2.
Proof. unfold EDGE_ORD; simpl. destruct (Z.gtb_spec a b); simpl; lia. Qed.

Lemma EDGE_ORD_same_pair (a b : Z) : same_pair (EDGE_ORD (a, b)) (a, b).
Proof.
  unfold EDGE_ORD, same_pair; simpl. destruct (Z.gtb_spec a b); [by right|by left].
Qed.

Lemma EDGE_ORD_inj (a b c d : Z) :
  EDGE_ORD (a, b) = EDGE_ORD (c, d) → (a = c ∧ b = d) ∨ (a = d ∧ b = c).
Proof.
  unfold EDGE_ORD; simpl.
  destruct (Z.gtb_spec a b), (Z.gtb_spec c d); intros [= -> ->]; auto.
Qed.

Ltac cmp_cases :=
  repeat match goal with
         | |- context [?x <? ?y] => destruct (Z.ltb_spec x y)
         | |- context [?x >? ?y] => destruct (Z.gtb_spec x y)
         end.

Lemma erot_gsetutil_cmp_lt (a b : EdRotState) :
  erot_gsetutil_cmp a b = -1 ↔
  (v_pair a).1 < (v_pair b).1 ∨
  ((v_pair a).1 = (v_pair b).1 ∧
   ((v_pair a).2 < (v_pair b).2 ∨
    ((v_pair a).2 = (v_pair b).2 ∧
     ((f_pair a).1 < (f_pair b).1 ∨
      ((f_pair a).1 = (f_pair b).1 ∧ (f_pair a).2 < (f_pair b).2))))).
Proof.
  unfold erot_gsetutil_cmp. cmp_cases; split; intros; try lia; try discriminate.
Qed.

(** X3. [erot_gsetutil_cmp] (compiled out by [#if 0]) orders the keys by
    their four ints: it gives 0 exactly for two keys with the same four
    ints, exchanging its arguments negates the result, its results are -1, 0
    and 1, and "-1" is transitive.  The keys it calls equal are the keys the
    set takes for one: a key is in a set when the set holds one that compares
    as 0 with it. *)
Theorem erot_gsetutil_cmp_orders_keys (a b c : EdRotState) (gs : GSet) :
  (erot_gsetutil_cmp a b = 0 ↔ a = b) ∧
  erot_gsetutil_cmp b a = - erot_gsetutil_cmp a b ∧
  (erot_gsetutil_cmp a b = -1 ∨ erot_gsetutil_cmp a b = 0 ∨
   erot_gsetutil_cmp a b = 1) ∧
  (erot_gsetutil_cmp a b = -1 → erot_gsetutil_cmp b c = -1 →
   erot_gsetutil_cmp a c = -1) ∧
  (BLI_gset_haskey gs a = true ↔ ∃ key, key ∈ gs ∧ erot_gsetutil_cmp key a = 0).
Proof.
  assert (∀ x y, erot_gsetutil_cmp x y = 0 ↔ x = y) as Heq.
  { intros [[x1 x2] [x3 x4]] [[y1 y2] [y3 y4]]. unfold erot_gsetutil_cmp; simpl.
    cmp_cases; split; intros Hxy; try discriminate; try (injection Hxy; intros; lia).
    repeat f_equal; lia. }
  split; [apply Heq|]. split; [|split; [|split]].
  - unfold erot_gsetutil_cmp. cmp_cases; try reflexivity; lia.
  - unfold erot_gsetutil_cmp. cmp_cases; auto.
  - rewrite !erot_gsetutil_cmp_lt. lia.
  - rewrite BLI_gset_haskey_true. split.
    + intros Ha. exists a. split; [done|]. by apply Heq.
    + intros (key & Hkey & Hc). apply Heq in Hc. by subst.
Qed.

(** ** The optimizer *)

Section BeautifyFacts.
Context {BMesh BMVert BMEdge BMLoop BMFace : Type}.
Context {kernel : BMeshKernel BMesh BMVert BMEdge BMLoop BMFace}.
Context {math : BLIMath} {flags : BeautifyFlags}.
Context `{!EqDecision BMVert, !EqDecision BMEdge, !Finite BMVert}.

Local Abbreviation St := (@State BMesh BMEdge BMFace).
Implicit Types (s : St) (e x : BMEdge) (m : BMesh) (k : nat).

(** *** Signatures *)

Lemma erot_state_alternate_swap m e :
  erot_state_alternate m e =
  {| v_pair := f_pair (erot_state_current m e);
     f_pair := v_pair (erot_state_current m e) |}.
Proof. reflexivity. Qed.

Lemma erot_state_current_sig m e :
  erot_state_current m e = sig_of (e_v1 m e) (e_v2 m e) (apex_a m e) (apex_b m e).
Proof. reflexivity. Qed.

Lemma erot_state_alternate_sig m e :
  erot_state_alternate m e = sig_of (apex_a m e) (apex_b m e) (e_v1 m e) (e_v2 m e).
Proof. reflexivity. Qed.

Lemma sig_of_same_pair (a b c d a' b' c' d' : BMVert) :
  same_pair (a, b) (a', b') → same_pair (c, d) (c', d') →
  sig_of a b c d = sig_of a' b' c' d'.
Proof.
  unfold same_pair, sig_of; simpl.
  intros [[= -> ->]|[= -> ->]] [[= -> ->]|[= -> ->]];
    rewrite ?(EDGE_ORD_swap (v_index b') (v_index a')),
            ?(EDGE_ORD_swap (v_index d') (v_index c')); reflexivity.
Qed.

Lemma sig_of_universe (a b c d : BMVert) : sig_of a b c d ∈ sig_universe.
Proof.
  unfold sig_universe.
  apply list_elem_of_bind; exists a; split; [|apply elem_of_enum].
  apply list_elem_of_bind; exists b; split; [|apply elem_of_enum].
  apply list_elem_of_bind; exists c; split; [|apply elem_of_enum].
  apply list_elem_of_bind; exists d; split; [|apply elem_of_enum].
  apply list_elem_of_singleton. reflexivity.
Qed.

Lemma erot_state_alternate_frame m m' x :
  e_v1 m' x = e_v1 m x → e_v2 m' x = e_v2 m x →
  apex_a m' x = apex_a m x → apex_b m' x = apex_b m x →
  erot_state_alternate m' x = erot_state_alternate m x.
Proof. intros H1 H2 H3 H4. rewrite !erot_state_alternate_sig. congruence. Qed.

(** *** Membership in the array *)

Lemma edge_in_array_true e s :
  edge_in_array e s = true ↔
  ∃ k, e_index s e = Z.of_nat k ∧ edge_array s !! k = Some e.
Proof.
  unfold edge_in_array, edge_array_len.
  rewrite !andb_true_iff, !bool_decide_eq_true. split.
  - intros [[Hge Hlt] Hget]. exists (Z.to_nat (e_index s e)).
    apply arr_get_Some in Hget as [_ Hget]. split; [lia|done].
  - intros (k & Hk & Hget). rewrite Hk, arr_get_nat.
    apply lookup_lt_Some in Hget as Hlt. repeat split; [lia|lia|done].
Qed.

Lemma slot_set_None s k : edge_state_arr s !! k = Some None → slot_set s k = [].
Proof. unfold slot_set. by intros ->. Qed.

Lemma slot_set_Some s k gs :
  edge_state_arr s !! k = Some (Some gs) → slot_set s k = gs.
Proof. unfold slot_set. by intros ->. Qed.

(** *** The invariant and the heap table *)

Variable mesh_ok : BMesh → Prop.

Lemma set_heap_id s : set_heap s (eheap s) (eheap_table s) = s.
Proof. by destruct s. Qed.

Lemma Inv_slot_unique pend s k j e :
  Inv mesh_ok pend s →
  edge_array s !! k = Some e → edge_array s !! j = Some e → k = j.
Proof. intros HI Hk Hj. eapply NoDup_lookup; [apply (inv_nodup _ _ _ HI)|done..]. Qed.

Lemma Inv_pending pend pend' s :
  Inv mesh_ok pend s →
  (∀ k h e, eheap_table s !! k = Some (Some h) → edge_array s !! k = Some e →
            e ∈ pend → e ∉ pend' →
            erot_state_alternate (bm s) e ∉ slot_set s k) →
  Inv mesh_ok pend' s.
Proof.
  intros HI Hp. destruct HI. split; try done.
  intros k h e Hh He Hne.
  destruct (decide (e ∈ pend)); [by eapply Hp|by eapply inv_alt0].
Qed.

Lemma remove_slot_Inv pend s k h :
  Inv mesh_ok pend s → eheap_table s !! k = Some (Some h) →
  Inv mesh_ok pend
    (set_heap s (BLI_heap_remove (eheap s) h) (<[k := None]> (eheap_table s))).
Proof.
  intros HI Hk. pose proof HI as HI'. destruct HI. split; simpl; try done.
  - by rewrite length_insert.
  - by apply heap_remove_wf.
  - intros n [Hn Hid]%elem_of_heap_remove.
    destruct (inv_heap0 n Hn) as (Hv & j & Hj & Ht). split; [done|].
    exists j. split; [done|].
    rewrite list_lookup_insert_ne; [done|]. intros <-. congruence.
  - intros j h' Hj.
    apply list_lookup_insert_Some in Hj as [(_ & ? & _)|[Hne Hj]]; [done|].
    destruct (inv_table0 j h' Hj) as (n & Hn & Hid & Hptr).
    exists n. split; [|done]. apply elem_of_heap_remove. split; [done|].
    intros Heq. destruct (inv_table0 k h Hk) as (n' & Hn' & Hid' & Hptr').
    assert (n = n') by (eapply heap_wf_inj; [done..|congruence]). subst n'.
    apply Hne. by eapply (Inv_slot_unique _ _ _ _ _ HI').
  - intros j h' e Hj.
    apply list_lookup_insert_Some in Hj as [(_ & ? & _)|[Hne Hj]]; [done|].
    by apply inv_alt0 with h'.
Qed.

Lemma insert_slot_Inv pend s k e cost :
  Inv mesh_ok (e :: pend) s →
  edge_array s !! k = Some e → eheap_table s !! k = Some None →
  flt cost fzero = true →
  erot_state_alternate (bm s) e ∉ slot_set s k →
  Inv mesh_ok pend
    (set_heap s (BLI_heap_insert (eheap s) cost e).1
                (<[k := Some (heap_next (eheap s))]> (eheap_table s))).
Proof.
  intros HI He Hk Hcost Halt. pose proof HI as HI'. destruct HI.
  assert (k < length (eheap_table s))%nat as Hlt by by eapply lookup_lt_Some.
  split; simpl; try done.
  - by rewrite length_insert.
  - by apply heap_insert_wf.
  - intros n [Hn| ->]%elem_of_heap_insert.
    + destruct (inv_heap0 n Hn) as (Hv & j & Hj & Ht). split; [done|].
      exists j. split; [done|].
      rewrite list_lookup_insert_ne; [done|]. intros <-. congruence.
    + split; [done|]. exists k. simpl. split; [done|].
      by apply list_lookup_insert_eq.
  - intros j h' Hj.
    apply list_lookup_insert_Some in Hj as [(<- & [= <-] & _)|[Hne Hj]].
    + eexists. split; [apply elem_of_heap_insert; by right|]. done.
    + destruct (inv_table0 j h' Hj) as (n & Hn & Hid & Hptr).
      exists n. split; [|done]. apply elem_of_heap_insert. by left.
  - intros j h' x Hj Hx Hpend.
    apply list_lookup_insert_Some in Hj as [(<- & _ & _)|[Hne Hj]].
    + by replace x with e by congruence.
    + apply inv_alt0 with h'; [done..|].
      intros [->|?]%elem_of_cons; [|done].
      apply Hne. by eapply (Inv_slot_unique _ _ _ _ _ HI').
Qed.

(** *** Recalculating the cost of an edge *)

Lemma same_world_refl s : same_world s s.
Proof. by repeat split. Qed.

Lemma same_world_trans s1 s2 s3 :
  same_world s1 s2 → same_world s2 s3 → same_world s1 s3.
Proof.
  unfold same_world. intros (?&?&?&?&?&?&?) (?&?&?&?&?&?&?).
  repeat split; congruence.
Qed.

Lemma same_world_set_heap s h t : same_world s (set_heap s h t).
Proof. by repeat split. Qed.

Lemma same_world_slot_set s s' k : same_world s s' → slot_set s' k = slot_set s k.
Proof. intros (?&?&?&?&?&?&Hs). unfold slot_set. by rewrite Hs. Qed.

(** Recalculating [e] leaves the invariant with [e] off the pending list. *)
Lemma update_single_Inv flag method pend e s :
  Inv mesh_ok (e :: pend) s →
  ∃ s', bm_edge_update_beauty_cost_single flag method e s = Some s' ∧
        Inv mesh_ok pend s' ∧ same_world s s'.
Proof.
  intros HI. unfold bm_edge_update_beauty_cost_single.
  destruct (edge_in_array e s) eqn:Hin.
  2:{ exists s. split; [done|]. split; [|apply same_world_refl].
      eapply Inv_pending; [exact HI|].
      intros k h x Hh Hx Hp Hnp. exfalso.
      apply elem_of_cons in Hp as [->|?]; [|done].
      assert (edge_in_array e s = true); [|congruence].
      apply edge_in_array_true. exists k. split; [|done].
      by apply (inv_index _ _ _ HI). }
  apply edge_in_array_true in Hin as (k & Hk & He). rewrite Hk, !arr_get_nat.
  assert (k < length (edge_array s))%nat as Hlt by by eapply lookup_lt_Some.
  destruct (lookup_lt_is_Some_2 (edge_state_arr s) k) as [o Ho];
    [by rewrite (inv_len_sets _ _ _ HI)|].
  destruct (lookup_lt_is_Some_2 (eheap_table s) k) as [node Hnode];
    [by rewrite (inv_len_table _ _ _ HI)|].
  rewrite Ho, Hnode. simpl.
  (* the stale node is removed *)
  assert (∃ s1,
    match node with
    | Some n => t ← arr_set (eheap_table s) (Z.of_nat k) None;
                Some (set_heap s (BLI_heap_remove (eheap s) n) t)
    | None => Some s
    end = Some s1 ∧ Inv mesh_ok (e :: pend) s1 ∧ same_world s s1 ∧
    eheap_table s1 !! k = Some None) as (s1 & -> & HI1 & Hw1 & Hnone).
  { destruct node as [h|].
    - rewrite arr_set_nat by by rewrite (inv_len_table _ _ _ HI). simpl.
      eexists. split; [done|]. split; [by apply remove_slot_Inv|].
      split; [apply same_world_set_heap|]. simpl.
      apply list_lookup_insert_eq. by rewrite (inv_len_table _ _ _ HI).
    - exists s. split; [done|]. split; [done|]. split; [apply same_world_refl|done]. }
  simpl.
  assert (edge_array s1 !! k = Some e) as He1.
  { destruct Hw1 as (?&?&?&?&?&Hea&?). by rewrite Hea. }
  assert (length (eheap_table s1) = length (edge_array s)) as Hlen1.
  { rewrite (inv_len_table _ _ _ HI1). destruct Hw1 as (?&?&?&?&?&Hea&?). by rewrite Hea. }
  destruct (match o with
            | Some gs => BLI_gset_haskey gs (erot_state_alternate (bm s1) e)
            | None => false
            end) eqn:Hkey.
  - (* already seen: not queued again *)
    exists s1. split; [done|]. split; [|done].
    eapply Inv_pending; [exact HI1|].
    intros j h x Hh Hx Hp Hnp. exfalso.
    apply elem_of_cons in Hp as [->|?]; [|done].
    assert (j = k) as -> by by eapply (Inv_slot_unique _ _ _ _ _ HI1).
    congruence.
  - assert (erot_state_alternate (bm s1) e ∉ slot_set s1 k) as Halt.
    { rewrite (same_world_slot_set _ _ _ Hw1). unfold slot_set. rewrite Ho.
      destruct o as [gs|]; [by apply BLI_gset_haskey_false|apply not_elem_of_nil]. }
    destruct (flt (bm_edge_calc_rotate_beauty (bm s1) e flag method) fzero) eqn:Hcost.
    + simpl. rewrite arr_set_nat by lia. simpl.
      eexists. split; [done|]. split.
      * by apply (insert_slot_Inv pend s1 k e).
      * eapply same_world_trans; [exact Hw1|apply same_world_set_heap].
    + rewrite arr_set_nat by lia. simpl.
      rewrite list_insert_id by done. rewrite set_heap_id.
      exists s1. split; [done|]. split; [|done].
      eapply Inv_pending; [exact HI1|].
      intros j h x Hh Hx Hp Hnp. exfalso.
      apply elem_of_cons in Hp as [->|?]; [|done].
      assert (j = k) as -> by by eapply (Inv_slot_unique _ _ _ _ _ HI1).
      congruence.
Qed.

Lemma update_each_Inv flag method pend es s :
  Inv mesh_ok (es ++ pend) s →
  ∃ s', update_each flag method es s = Some s' ∧
        Inv mesh_ok pend s' ∧ same_world s s'.
Proof.
  revert s. induction es as [|e es IH]; intros s HI; simpl.
  - exists s. split; [done|]. split; [done|apply same_world_refl].
  - destruct (update_single_Inv flag method (es ++ pend) e s HI) as (s1 & -> & HI1 & Hw1).
    simpl. destruct (IH s1 HI1) as (s2 & -> & HI2 & Hw2).
    exists s2. split; [done|]. split; [done|]. by eapply same_world_trans.
Qed.

(** *** One rotation *)

Hypothesis Hrot : BM_edge_rotate_spec mesh_ok.

Lemma NoDup_insert_fresh {A} (l : list A) k (y : A) :
  NoDup l → (∀ j (a : A), l !! j = Some a → j ≠ k → a ≠ y) → NoDup (<[k := y]> l).
Proof.
  intros Hnd Hfresh. apply NoDup_alt. intros i j a Hi Hj.
  apply list_lookup_insert_Some in Hi as [(<- & <- & _)|[Hik Hi]];
    apply list_lookup_insert_Some in Hj as [(<- & Hy & _)|[Hjk Hj]]; try done.
  - exfalso. by eapply Hfresh.
  - exfalso. subst a. by eapply Hfresh.
  - by eapply NoDup_lookup.
Qed.

(** The signature of the rotated edge is the alternate one of the edge
    before the rotation. *)
Lemma rotate_current_alternate m e m' e' :
  mesh_ok m → BM_edge_is_manifold m e = true →
  BM_edge_rotate m e = Some (m', e') →
  erot_state_current m' e' = erot_state_alternate m e.
Proof.
  intros Hok Hman Hr.
  destruct (rotate_flip _ Hrot m e m' e' Hok Hman Hr) as [Hv Hf].
  rewrite erot_state_current_sig, erot_state_alternate_sig.
  by apply sig_of_same_pair.
Qed.

Lemma slot_set_sub pend s k :
  Inv mesh_ok pend s → NoDup (slot_set s k) ∧ slot_set s k ⊆ sig_universe.
Proof.
  intros HI. unfold slot_set.
  destruct (edge_state_arr s !! k) as [[gs|]|] eqn:Hk.
  - by apply (inv_sets _ _ _ HI k).
  - split; [constructor|]. intros x Hx. by apply elem_of_nil in Hx.
  - split; [constructor|]. intros x Hx. by apply elem_of_nil in Hx.
Qed.

Lemma rotated_Inv s k e m' e' :
  Inv mesh_ok [] s →
  edge_array s !! k = Some e → eheap_table s !! k = Some None →
  erot_state_alternate (bm s) e ∉ slot_set s k →
  BM_edge_rotate (bm s) e = Some (m', e') →
  Inv mesh_ok (e_arr m' e') (rotated s k m' e').
Proof.
  intros HI He Hnone Halt Hr. pose proof HI as HI'. destruct HI.
  destruct (inv_index0 k e He) as [Hidx Hman].
  destruct (rotate_ok _ Hrot _ _ _ _ inv_mesh0 Hman Hr) as [Hok' Hman'].
  assert (k < length (edge_array s))%nat as Hlt by by eapply lookup_lt_Some.
  assert (∀ j x, edge_array s !! j = Some x → j ≠ k →
            x ≠ e ∧ x ≠ e' ∧ BM_edge_is_manifold m' x = true) as Hother.
  { intros j x Hx Hjk.
    assert (x ≠ e) as Hxe.
    { intros ->. apply Hjk. by eapply (Inv_slot_unique _ _ _ _ _ HI'). }
    destruct (inv_index0 j x Hx) as [_ Hmx].
    destruct (rotate_others _ Hrot _ _ _ _ x inv_mesh0 Hman Hr Hxe Hmx). done. }
  unfold rotated. split; simpl.
  - done.
  - by rewrite length_insert.
  - by rewrite !length_insert.
  - apply NoDup_insert_fresh; [done|]. intros j x Hx Hjk. by apply (Hother j x).
  - intros j x Hx.
    apply list_lookup_insert_Some in Hx as [(<- & <- & _)|[Hjk Hx]].
    + by rewrite fn_lookup_insert.
    + destruct (Hother j x Hx) as (? & ? & ?); [done|].
      rewrite fn_lookup_insert_ne by done. split; [|done]. by apply (inv_index0 j x).
  - done.
  - intros n Hn. destruct (inv_heap0 n Hn) as (Hv & j & Hj & Ht). split; [done|].
    exists j. split; [|done].
    rewrite list_lookup_insert_ne; [done|]. intros <-. congruence.
  - intros j h Hj. destruct (inv_table0 j h Hj) as (n & Hn & Hid & Hptr).
    exists n. split; [done|]. split; [done|].
    rewrite list_lookup_insert_ne; [done|]. intros <-. congruence.
  - intros j h x Hj Hx Hpend.
    assert (k ≠ j) as Hjk by (intros <-; congruence).
    rewrite list_lookup_insert_ne in Hx by done.
    destruct (Hother j x Hx) as (Hxe & ? & ?); [done|].
    destruct (inv_index0 j x Hx) as [_ Hmx].
    destruct (rotate_frame _ Hrot _ _ _ _ x inv_mesh0 Hman Hr Hxe Hmx Hpend)
      as (Hf1 & Hf2 & Hf3 & Hf4 & _).
    rewrite (erot_state_alternate_frame _ _ _ Hf1 Hf2 Hf3 Hf4).
    unfold slot_set; simpl. rewrite list_lookup_insert_ne by done.
    apply (inv_alt0 j h x Hj Hx). apply not_elem_of_nil.
  - intros j gs Hj.
    apply list_lookup_insert_Some in Hj as [(<- & [= <-] & _)|[Hjk Hj]].
    + destruct (slot_set_sub _ s k HI') as [Hnd Hsub].
      unfold BLI_gset_insert. split.
      * constructor; [|done].
        by rewrite (rotate_current_alternate _ _ _ _ inv_mesh0 Hman Hr).
      * intros y [->|Hy]%elem_of_cons; [|by apply Hsub].
        rewrite erot_state_current_sig. apply sig_of_universe.
    + by apply (inv_sets0 j).
Qed.

(** *** One pass of the loop *)

Lemma Inv_tag_flags pend oflag_edge oflag_face e' s :
  Inv mesh_ok pend s → Inv mesh_ok pend (tag_flags oflag_edge oflag_face e' s).
Proof. intros HI. destruct HI. by split. Qed.

(** The node on top of the heap belongs to a slot, whose edge passed the
    cycle check and had a negative cost when it was queued. *)
Lemma heap_top_slot s n :
  Inv mesh_ok [] s → heap_top (heap_nodes (eheap s)) = Some n →
  ∃ k, edge_array s !! k = Some (node_ptr n) ∧
       e_index s (node_ptr n) = Z.of_nat k ∧
       eheap_table s !! k = Some (Some (node_id n)) ∧
       flt (node_value n) fzero = true ∧
       erot_state_alternate (bm s) (node_ptr n) ∉ slot_set s k.
Proof.
  intros HI Htop. apply heap_top_elem in Htop.
  destruct (inv_heap _ _ _ HI n Htop) as (Hv & k & Hk & Ht).
  exists k. split; [done|]. split; [by apply (inv_index _ _ _ HI)|].
  split; [done|]. split; [done|].
  eapply (inv_alt _ _ _ HI); [done..|apply not_elem_of_nil].
Qed.

Lemma popped_Inv s n k :
  Inv mesh_ok [] s → eheap_table s !! k = Some (Some (node_id n)) →
  Inv mesh_ok [] (popped s n k).
Proof. intros HI Hk. by apply remove_slot_Inv. Qed.

Lemma popped_table s n k :
  (k < length (eheap_table s))%nat → eheap_table (popped s n k) !! k = Some None.
Proof. intros Hk. simpl. by apply list_lookup_insert_eq. Qed.

(** A refused rotation: the node is gone, nothing else happened. *)
Lemma loop_body_refused flag method oflag_edge oflag_face s n k :
  heap_top (heap_nodes (eheap s)) = Some n →
  e_index s (node_ptr n) = Z.of_nat k → (k < length (eheap_table s))%nat →
  BM_edge_rotate (bm s) (node_ptr n) = None →
  loop_body flag method oflag_edge oflag_face s = Some (popped s n k).
Proof.
  intros Htop Hidx Hk Hr. unfold loop_body, BLI_heap_pop_min.
  rewrite Htop. simpl. rewrite Hidx, arr_set_nat by done. simpl.
  by rewrite Hr.
Qed.

(** An executed rotation: the signature is recorded, the array updated, the
    costs of the edges around recalculated, the flags set. *)
Lemma loop_body_rotated flag method oflag_edge oflag_face s n k m' e' :
  Inv mesh_ok [] s →
  heap_top (heap_nodes (eheap s)) = Some n →
  edge_array s !! k = Some (node_ptr n) →
  e_index s (node_ptr n) = Z.of_nat k →
  eheap_table s !! k = Some (Some (node_id n)) →
  erot_state_alternate (bm s) (node_ptr n) ∉ slot_set s k →
  BM_edge_rotate (bm s) (node_ptr n) = Some (m', e') →
  ∃ s', bm_edge_update_beauty_cost flag method e' (rotated (popped s n k) k m' e')
          = Some s' ∧
        same_world (rotated (popped s n k) k m' e') s' ∧
        Inv mesh_ok [] s' ∧
        loop_body flag method oflag_edge oflag_face s
          = Some (tag_flags oflag_edge oflag_face e' s').
Proof.
  intros HI Htop He Hidx Hk Halt Hr.
  assert (k < length (edge_array s))%nat as Hlt by by eapply lookup_lt_Some.
  pose proof (inv_len_table _ _ _ HI) as Hlt1.
  pose proof (inv_len_sets _ _ _ HI) as Hlt2.
  pose proof (popped_Inv s n k HI Hk) as HIp.
  assert (Inv mesh_ok (e_arr m' e' ++ []) (rotated (popped s n k) k m' e')) as HIr.
  { rewrite app_nil_r. apply (rotated_Inv _ k (node_ptr n)); try done.
    apply popped_table. lia. }
  destruct (update_each_Inv flag method [] _ _ HIr) as (s' & Hup & HI' & Hw).
  exists s'. split; [exact Hup|]. split; [done|]. split; [done|].
  unfold loop_body, BLI_heap_pop_min. rewrite Htop. simpl.
  rewrite Hidx, arr_set_nat by lia. simpl. rewrite Hr.
  rewrite arr_get_nat.
  destruct (lookup_lt_is_Some_2 (edge_state_arr s) k) as [o Ho]; [lia|].
  rewrite Ho. simpl. rewrite !arr_set_nat by lia. simpl.
  replace (match o with Some gs => gs | None => erot_gset_new end)
    with (slot_set s k) by (unfold slot_set; rewrite Ho; by destruct o).
  transitivity
    (bm_edge_update_beauty_cost flag method e' (rotated (popped s n k) k m' e')
     ≫= (λ s0, Some (tag_flags oflag_edge oflag_face e' s0))); [reflexivity|].
  change (bm_edge_update_beauty_cost flag method e' (rotated (popped s n k) k m' e')
          = Some s') in Hup.
  rewrite Hup. simpl. reflexivity.
Qed.

(** *** Building the heap *)

Lemma build_heap_at_world flag method i e s :
  let s' := build_heap_at flag method i e s in
  bm s' = bm s ∧ edge_array s' = edge_array s ∧
  edge_state_arr s' = edge_state_arr s ∧
  edge_oflags s' = edge_oflags s ∧ face_oflags s' = face_oflags s.
Proof.
  unfold build_heap_at.
  destruct (flt (bm_edge_calc_rotate_beauty (bm s) e flag method) fzero); by simpl.
Qed.

Lemma build_heap_at_SeedInv flag method i e s :
  SeedInv mesh_ok i s → edge_array s !! i = Some e →
  SeedInv mesh_ok (S i) (build_heap_at flag method i e s).
Proof.
  intros HS He. destruct HS.
  assert (i < length (eheap_table s))%nat as Hlt.
  { rewrite seed_len_table0. by eapply lookup_lt_Some. }
  assert (∀ k x, (k < S i)%nat → edge_array s !! k = Some x →
            <[e := Z.of_nat i]> (e_index s) x = Z.of_nat k) as Hindex.
  { intros k x Hk Hx. destruct (decide (k = i)) as [->|Hne].
    - replace x with e by congruence. apply fn_lookup_insert.
    - rewrite fn_lookup_insert_ne.
      + apply seed_index0; [lia|done].
      + intros ->. apply Hne. symmetry. by eapply NoDup_lookup. }
  unfold build_heap_at.
  destruct (flt (bm_edge_calc_rotate_beauty (bm s) e flag method) fzero) eqn:Hcost;
    simpl; split; simpl; try done.
  - by rewrite length_insert.
  - by apply heap_insert_wf.
  - intros n [Hn| ->]%elem_of_heap_insert.
    + destruct (seed_heap0 n Hn) as (Hv & j & Hji & Hj & Ht). split; [done|].
      exists j. split; [lia|]. split; [done|].
      rewrite list_lookup_insert_ne; [done|lia].
    + split; [done|]. exists i. simpl. split; [lia|]. split; [done|].
      by apply list_lookup_insert_eq.
  - intros k h Hk Hh.
    apply list_lookup_insert_Some in Hh as [(<- & [= <-] & _)|[Hne Hh]].
    + eexists. split; [apply elem_of_heap_insert; by right|]. done.
    + destruct (seed_table0 k h) as (n & Hn & Hid & Hptr); [lia|done|].
      exists n. split; [|done]. apply elem_of_heap_insert. by left.
  - by rewrite length_insert.
  - intros n Hn. destruct (seed_heap0 n Hn) as (Hv & j & Hji & Hj & Ht).
    split; [done|]. exists j. split; [lia|]. split; [done|].
    rewrite list_lookup_insert_ne; [done|lia].
  - intros k h Hk Hh.
    apply list_lookup_insert_Some in Hh as [(_ & ? & _)|[Hne Hh]]; [done|].
    apply seed_table0; [lia|done].
Qed.

Lemma build_heap_SeedInv flag method es i s :
  SeedInv mesh_ok i s →
  (∀ j e, es !! j = Some e → edge_array s !! (i + j)%nat = Some e) →
  let s' := build_heap flag method i es s in
  SeedInv mesh_ok (i + length es) s' ∧
  bm s' = bm s ∧ edge_array s' = edge_array s ∧
  edge_oflags s' = edge_oflags s ∧ face_oflags s' = face_oflags s.
Proof.
  revert i s. induction es as [|e es IH]; intros i s HS Hes; simpl.
  - by rewrite Nat.add_0_r.
  - pose proof (build_heap_at_world flag method i e s) as (Hb & Hea & _ & Heo & Hfo).
    assert (edge_array s !! i = Some e) as He.
    { rewrite <- (Nat.add_0_r i). by apply Hes. }
    destruct (IH (S i) (build_heap_at flag method i e s)) as (HS' & Hb' & Hea' & Heo' & Hfo').
    + by apply build_heap_at_SeedInv.
    + intros j x Hx. rewrite Hea. replace (S i + j)%nat with (i + S j)%nat by lia.
      by apply Hes.
    + replace (i + S (length es))%nat with (S i + length es)%nat by lia.
      split; [done|]. repeat split; congruence.
Qed.

(** The state after the heap was built. *)
Lemma beautify_init_Inv flag method m index0 eflags fflags edges :
  mesh_ok m → NoDup edges →
  (∀ e, e ∈ edges → BM_edge_is_manifold m e = true) →
  let s := beautify_init flag method m index0 eflags fflags edges in
  Inv mesh_ok [] s ∧ bm s = m ∧ edge_array s = edges ∧
  edge_state_arr s = replicate (length edges) None ∧
  edge_oflags s = eflags ∧ face_oflags s = fflags.
Proof.
  intros Hok Hnd Hman. unfold beautify_init.
  set (s0 := mkState m index0 false eflags fflags edges
               (BLI_heap_new_ex (Z.of_nat (length edges)))
               (replicate (length edges) None) (replicate (length edges) None)).
  destruct (build_heap_SeedInv flag method edges 0 s0) as (HS & Hb & Hea & Heo & Hfo).
  - split; simpl; try done.
    + by rewrite length_replicate.
    + intros k e He. apply Hman. by eapply list_elem_of_lookup_2.
    + intros; lia.
    + split; [constructor|]. intros n Hn. by apply elem_of_nil in Hn.
    + intros n Hn. by apply elem_of_nil in Hn.
    + intros; lia.
  - intros j e He. done.
  - simpl in HS. destruct HS. simpl. split; [|by rewrite seed_sets0, Hea].
    split; simpl; try done.
    + rewrite seed_sets0. by rewrite length_replicate.
    + intros k e He. split; [|by eapply seed_manifold0].
      apply seed_index0; [|done]. apply lookup_lt_Some in He.
      by rewrite Hea in He.
    + intros n Hn. destruct (seed_heap0 n Hn) as (Hv & k & _ & Hk & Ht).
      split; [done|]. by exists k.
    + intros k h Hh. apply seed_table0; [|done].
      apply lookup_lt_Some in Hh. rewrite seed_len_table0, Hea in Hh. done.
    + intros k h e Hh He _. unfold slot_set. simpl. rewrite seed_sets0.
      apply lookup_lt_Some in He.
      rewrite lookup_replicate_2 by done. apply not_elem_of_nil.
    + intros k gs Hgs. rewrite seed_sets0 in Hgs.
      apply lookup_replicate in Hgs as [? _]. done.
Qed.

(** *** Counting the rotations *)

Lemma sum_list_set_size_insert (l : list (option GSet)) k o (gs : GSet) :
  l !! k = Some o → length gs = S (set_size o) →
  sum_list_with set_size (<[k := Some gs]> l) = S (sum_list_with set_size l).
Proof.
  revert k. induction l as [|a l IH]; intros k Hk Hlen; [done|].
  destruct k as [|k].
  - simpl in Hk. injection Hk as ->. simpl. lia.
  - simpl in Hk. specialize (IH k Hk Hlen). simpl.
    rewrite <- Nat.add_succ_r. f_equal. exact IH.
Qed.

Lemma sum_list_set_size_bound (l : list (option GSet)) (c : nat) :
  (∀ k gs, l !! k = Some (Some gs) → (length gs ≤ c)%nat) →
  (sum_list_with set_size l ≤ length l * c)%nat.
Proof.
  induction l as [|a l IH]; intros Hl; simpl; [lia|].
  assert (set_size a ≤ c)%nat.
  { destruct a as [gs|]; simpl; [|lia]. by apply (Hl 0%nat). }
  assert (sum_list_with set_size l ≤ length l * c)%nat.
  { apply IH. intros k gs Hk. by apply (Hl (S k)). }
  lia.
Qed.

Lemma rotations_recorded_bound pend s :
  Inv mesh_ok pend s →
  (rotations_recorded s ≤ length (edge_state_arr s) * length sig_universe)%nat.
Proof.
  intros HI. apply sum_list_set_size_bound. intros k gs Hk.
  destruct (inv_sets _ _ _ HI k gs Hk) as [Hnd Hsub].
  apply submseteq_length. by apply NoDup_submseteq.
Qed.

Lemma rotations_recorded_rotated s k m' e' :
  (k < length (edge_state_arr s))%nat →
  rotations_recorded (rotated s k m' e') = S (rotations_recorded s).
Proof.
  intros Hk. destruct (lookup_lt_is_Some_2 _ _ Hk) as [o Ho].
  unfold rotations_recorded, rotated; simpl.
  apply sum_list_set_size_insert with o; [done|].
  unfold slot_set. rewrite Ho. by destruct o.
Qed.

(** *** The loop ends *)

(** One pass either takes a node off the heap and changes nothing else
    that counts, or records one more rotation. *)
Lemma loop_body_progress flag method oflag_edge oflag_face s :
  Inv mesh_ok [] s → BLI_heap_is_empty (eheap s) = false →
  ∃ s', loop_body flag method oflag_edge oflag_face s = Some s' ∧
        Inv mesh_ok [] s' ∧
        length (edge_state_arr s') = length (edge_state_arr s) ∧
        ((rotations_recorded s' = rotations_recorded s ∧
          length (heap_nodes (eheap s')) < length (heap_nodes (eheap s)))%nat
         ∨ rotations_recorded s' = S (rotations_recorded s)).
Proof.
  intros HI Hne. apply BLI_heap_is_empty_false in Hne.
  destruct (heap_top_is_Some _ Hne) as [n Htop].
  destruct (heap_top_slot s n HI Htop) as (k & He & Hidx & Hk & _ & Halt).
  assert (k < length (eheap_table s))%nat as Hlt by by eapply lookup_lt_Some.
  destruct (BM_edge_rotate (bm s) (node_ptr n)) as [[m' e']|] eqn:Hr.
  - destruct (loop_body_rotated flag method oflag_edge oflag_face s n k m' e'
                HI Htop He Hidx Hk Halt Hr) as (s' & _ & Hw & HI' & ->).
    eexists. split; [done|]. split; [by apply Inv_tag_flags|].
    destruct Hw as (_&_&_&_&_&_&Hsets).
    split.
    { simpl. rewrite Hsets. simpl. by rewrite length_insert. }
    right. unfold rotations_recorded. simpl. rewrite Hsets.
    apply (rotations_recorded_rotated (popped s n k) k m' e'). simpl.
    rewrite (inv_len_sets _ _ _ HI), <- (inv_len_table _ _ _ HI). done.
  - rewrite (loop_body_refused flag method oflag_edge oflag_face s n k) by done.
    eexists. split; [done|]. split; [by apply popped_Inv|].
    split; [done|]. left. split; [done|]. simpl.
    apply heap_remove_length. by apply heap_top_elem.
Qed.

Lemma beautify_loop_ends flag method oflag_edge oflag_face s :
  Inv mesh_ok [] s →
  ∃ fuel s', beautify_loop flag method oflag_edge oflag_face fuel s = Finished s' ∧
             Inv mesh_ok [] s' ∧ BLI_heap_is_empty (eheap s') = true ∧
             length (edge_state_arr s') = length (edge_state_arr s).
Proof.
  remember (length (edge_state_arr s) * length sig_universe - rotations_recorded s)%nat
    as N eqn:HN.
  remember (length (heap_nodes (eheap s))) as M eqn:HM.
  revert M s HN HM. induction N as [N IHN] using lt_wf_ind.
  induction M as [M IHM] using lt_wf_ind. intros s HN HM HI.
  destruct (BLI_heap_is_empty (eheap s)) eqn:Hemp.
  { exists 0%nat, s. simpl. by rewrite Hemp. }
  destruct (loop_body_progress flag method oflag_edge oflag_face s HI Hemp)
    as (s1 & Hbody & HI1 & Hlen & Hprog).
  assert (∃ fuel s', beautify_loop flag method oflag_edge oflag_face fuel s1 = Finished s' ∧
             Inv mesh_ok [] s' ∧ BLI_heap_is_empty (eheap s') = true ∧
             length (edge_state_arr s') = length (edge_state_arr s1))
    as (fuel & s' & Hrun & HI' & Hemp' & Hlen').
  { destruct Hprog as [[Hrec Hheap]|Hrec].
    - apply (IHM (length (heap_nodes (eheap s1)))); [lia| |done..].
      rewrite HN, Hlen, Hrec. done.
    - pose proof (rotations_recorded_bound _ _ HI1) as Hb.
      assert (length (edge_state_arr s1) * length sig_universe
              - rotations_recorded s1 < N)%nat as Hless.
      { rewrite Hlen in Hb |- *. rewrite HN. lia. }
      exact (IHN _ Hless _ s1 eq_refl eq_refl HI1). }
  exists (S fuel), s'. simpl. rewrite Hemp, Hbody.
  split; [done|]. split; [done|]. split; [done|]. congruence.
Qed.

Lemma beautify_loop_more_fuel flag method oflag_edge oflag_face fuel fuel' s s' :
  beautify_loop flag method oflag_edge oflag_face fuel s = Finished s' →
  (fuel ≤ fuel')%nat →
  beautify_loop flag method oflag_edge oflag_face fuel' s = Finished s'.
Proof.
  revert fuel' s. induction fuel as [|fuel IH]; intros fuel' s; simpl.
  - destruct (BLI_heap_is_empty (eheap s)) eqn:Hemp; [|discriminate].
    intros Hs _. destruct fuel'; simpl; by rewrite Hemp.
  - destruct (BLI_heap_is_empty (eheap s)) eqn:Hemp.
    { intros Hs _. destruct fuel'; simpl; by rewrite Hemp. }
    destruct (loop_body flag method oflag_edge oflag_face s) as [s1|] eqn:Hbody;
      [|discriminate].
    intros Hrun Hle. destruct fuel' as [|fuel']; [lia|]. simpl.
    rewrite Hemp, Hbody. apply IH; [done|lia].
Qed.

(** *** The states of a run *)

Lemma reachable_Inv flag method oflag_edge oflag_face m index0 eflags fflags edges s :
  valid_input mesh_ok m edges →
  reachable flag method oflag_edge oflag_face
    (beautify_init flag method m index0 eflags fflags edges) s →
  Inv mesh_ok [] s.
Proof.
  intros (Hok & Hnd & Hman) Hreach. induction Hreach as [|s s' _ IH Hne Hbody].
  - by apply beautify_init_Inv.
  - destruct (loop_body_progress flag method oflag_edge oflag_face s IH Hne)
      as (s1 & Hbody1 & HI1 & _).
    congruence.
Qed.

(** C1. For every valid mesh and every array of distinct manifold edges,
    [BM_mesh_beautify_fill] returns: some amount of fuel, and so every
    larger one, lets the loop run until the heap is empty, without an access
    outside an array.  The number of rotations executed is at most the
    number of slots times the number of signatures, since no slot records a
    signature twice. *)
Theorem BM_mesh_beautify_fill_returns
    flag method oflag_edge oflag_face m index0 eflags fflags edges :
  valid_input mesh_ok m edges →
  ∃ fuel s,
    (∀ fuel', (fuel ≤ fuel')%nat →
       beautify_run flag method oflag_edge oflag_face fuel' m index0
         eflags fflags edges = Finished s ∧
       BM_mesh_beautify_fill flag method oflag_edge oflag_face fuel' m index0
         eflags fflags edges = Finished (release s)) ∧
    BLI_heap_is_empty (eheap s) = true ∧
    (rotations_recorded s ≤ length edges * length sig_universe)%nat.
Proof.
  intros (Hok & Hnd & Hman).
  destruct (beautify_init_Inv flag method m index0 eflags fflags edges Hok Hnd Hman)
    as (HI0 & _ & _ & Hsets & _).
  destruct (beautify_loop_ends flag method oflag_edge oflag_face _ HI0)
    as (fuel & s & Hrun & HI & Hemp & Hlen).
  exists fuel, s. split; [|split; [done|]].
  - intros fuel' Hle. unfold BM_mesh_beautify_fill, beautify_run.
    by rewrite (beautify_loop_more_fuel _ _ _ _ _ _ _ _ Hrun Hle).
  - pose proof (rotations_recorded_bound _ _ HI) as Hb.
    rewrite Hlen, Hsets, length_replicate in Hb. done.
Qed.

(** C2. In a run on a valid input, when the rotation of the edge popped at
    slot [k] is executed, the current signature of the rotated edge is put in
    the set of slot [k], where it was not before; and no set of the state
    that follows holds a signature twice. *)
Theorem rotation_records_fresh_signature
    flag method oflag_edge oflag_face m index0 eflags fflags edges s n m' e' :
  valid_input mesh_ok m edges →
  reachable flag method oflag_edge oflag_face
    (beautify_init flag method m index0 eflags fflags edges) s →
  heap_top (heap_nodes (eheap s)) = Some n →
  BM_edge_rotate (bm s) (node_ptr n) = Some (m', e') →
  ∃ k s',
    e_index s (node_ptr n) = Z.of_nat k ∧
    loop_body flag method oflag_edge oflag_face s = Some s' ∧
    (edge_state_arr s' !! k)
      = Some (Some (erot_state_current m' e' :: slot_set s k)) ∧
    (erot_state_current m' e' ∉ slot_set s k) ∧
    (∀ j gs, edge_state_arr s' !! j = Some (Some gs) → NoDup gs).
Proof.
  intros Hin Hreach Htop Hr.
  pose proof (reachable_Inv _ _ _ _ _ _ _ _ _ _ Hin Hreach) as HI.
  destruct (heap_top_slot s n HI Htop) as (k & He & Hidx & Hk & _ & Halt).
  destruct (loop_body_rotated flag method oflag_edge oflag_face s n k m' e'
              HI Htop He Hidx Hk Halt Hr) as (s' & _ & Hw & HI' & Hbody).
  exists k, (tag_flags oflag_edge oflag_face e' s').
  destruct Hw as (_&_&_&_&_&_&Hsets).
  split; [done|]. split; [done|]. split; [|split].
  - simpl. rewrite Hsets.
    assert (k < length (edge_state_arr s))%nat as Hkl.
    { rewrite (inv_len_sets _ _ _ HI). by eapply lookup_lt_Some. }
    exact (list_lookup_insert_eq _ _ _ Hkl).
  - destruct (inv_index _ _ _ HI k _ He) as [_ Hman].
    by rewrite (rotate_current_alternate _ _ _ _ (inv_mesh _ _ _ HI) Hman Hr).
  - intros j gs Hj. by apply (inv_sets _ _ _ HI' j).
Qed.

(** C6. In a run on a valid input, when the rotation of the popped edge is
    refused, the pass ends there: the node is off the heap and the handle of
    its slot cleared; the sets, the array, the flags, the mesh and the edge
    indices are what they were, no other node entered or left the heap, and
    the loop goes on from that state. *)
Theorem refused_rotation_is_absorbed
    flag method oflag_edge oflag_face m index0 eflags fflags edges s n :
  valid_input mesh_ok m edges →
  reachable flag method oflag_edge oflag_face
    (beautify_init flag method m index0 eflags fflags edges) s →
  heap_top (heap_nodes (eheap s)) = Some n →
  BM_edge_rotate (bm s) (node_ptr n) = None →
  ∃ k s',
    e_index s (node_ptr n) = Z.of_nat k ∧
    loop_body flag method oflag_edge oflag_face s = Some s' ∧
    edge_state_arr s' = edge_state_arr s ∧
    edge_array s' = edge_array s ∧
    edge_oflags s' = edge_oflags s ∧ face_oflags s' = face_oflags s ∧
    bm s' = bm s ∧ e_index s' = e_index s ∧
    eheap s' = BLI_heap_remove (eheap s) (node_id n) ∧
    eheap_table s' = <[k := None]> (eheap_table s) ∧
    reachable flag method oflag_edge oflag_face
      (beautify_init flag method m index0 eflags fflags edges) s'.
Proof.
  intros Hin Hreach Htop Hr.
  pose proof (reachable_Inv _ _ _ _ _ _ _ _ _ _ Hin Hreach) as HI.
  destruct (heap_top_slot s n HI Htop) as (k & He & Hidx & Hk & _).
  assert (k < length (eheap_table s))%nat as Hlt by by eapply lookup_lt_Some.
  pose proof (loop_body_refused flag method oflag_edge oflag_face s n k
                Htop Hidx Hlt Hr) as Hbody.
  exists k, (popped s n k). repeat (split; [done|]).
  eapply reach_step; [exact Hreach| |exact Hbody].
  apply BLI_heap_is_empty_false. intros Hnil. rewrite Hnil in Htop. discriminate.
Qed.

(** C9. In a run on a valid input, a pass of the loop writes the array at
    the slot [k] of the popped edge only, and only when the rotation is
    executed: the entry becomes the rotated edge; every other entry, and
    every entry when the rotation is refused, is what it was. *)
Theorem edge_array_updated_in_place
    flag method oflag_edge oflag_face m index0 eflags fflags edges s n :
  valid_input mesh_ok m edges →
  reachable flag method oflag_edge oflag_face
    (beautify_init flag method m index0 eflags fflags edges) s →
  heap_top (heap_nodes (eheap s)) = Some n →
  ∃ k s',
    e_index s (node_ptr n) = Z.of_nat k ∧
    edge_array s !! k = Some (node_ptr n) ∧
    loop_body flag method oflag_edge oflag_face s = Some s' ∧
    edge_array s' =
      match BM_edge_rotate (bm s) (node_ptr n) with
      | Some (_, e') => <[k := e']> (edge_array s)
      | None => edge_array s
      end ∧
    length (edge_array s') = length (edge_array s) ∧
    (∀ j, j ≠ k → edge_array s' !! j = edge_array s !! j).
Proof.
  intros Hin Hreach Htop.
  pose proof (reachable_Inv _ _ _ _ _ _ _ _ _ _ Hin Hreach) as HI.
  destruct (heap_top_slot s n HI Htop) as (k & He & Hidx & Hk & _ & Halt).
  assert (k < length (eheap_table s))%nat as Hlt by by eapply lookup_lt_Some.
  destruct (BM_edge_rotate (bm s) (node_ptr n)) as [[m' e']|] eqn:Hr.
  - destruct (loop_body_rotated flag method oflag_edge oflag_face s n k m' e'
                HI Htop He Hidx Hk Halt Hr) as (s' & _ & Hw & _ & Hbody).
    exists k, (tag_flags oflag_edge oflag_face e' s').
    destruct Hw as (_&_&_&_&_&Hea&_). simpl. rewrite Hea. simpl.
    repeat (split; [done|]). split; [by rewrite length_insert|].
    intros j Hj. by rewrite list_lookup_insert_ne.
  - exists k, (popped s n k). split; [done|]. split; [done|].
    split; [by apply loop_body_refused|]. done.
Qed.

(** *** Recalculating a cost, without the invariant *)

Lemma unqueued_world s k node :
  bm (unqueued s k node) = bm s ∧
  length (eheap_table (unqueued s k node)) = length (eheap_table s) ∧
  heap_next (eheap (unqueued s k node)) = heap_next (eheap s).
Proof. destruct node; simpl; [|done]. by rewrite length_insert. Qed.

Lemma update_single_unfold flag method e s k o node :
  e_index s e = Z.of_nat k → edge_array s !! k = Some e →
  edge_state_arr s !! k = Some o → eheap_table s !! k = Some node →
  bm_edge_update_beauty_cost_single flag method e s
    = Some (requeued flag method e s k o node).
Proof.
  intros Hidx He Ho Hnode.
  assert (edge_in_array e s = true) as Hin by (apply edge_in_array_true; eauto).
  assert (k < length (eheap_table s))%nat as Hlt by by eapply lookup_lt_Some.
  destruct (unqueued_world s k node) as (Hbm & Hlen & Hnext).
  unfold bm_edge_update_beauty_cost_single, requeued.
  rewrite Hin, Hidx, !arr_get_nat, Ho, Hnode. simpl.
  assert (match node with
          | Some n => t ← arr_set (eheap_table s) (Z.of_nat k) None;
                      Some (set_heap s (BLI_heap_remove (eheap s) n) t)
          | None => Some s
          end = Some (unqueued s k node)) as ->.
  { destruct node; simpl; [|done]. by rewrite arr_set_nat. }
  simpl. rewrite Hbm.
  destruct (match o with
            | Some gs => BLI_gset_haskey gs (erot_state_alternate (bm s) e)
            | None => false
            end); [done|].
  destruct (flt (bm_edge_calc_rotate_beauty (bm s) e flag method) fzero).
  - simpl. rewrite arr_set_nat by lia. simpl. by rewrite Hnext.
  - rewrite arr_set_nat by lia. done.
Qed.

(** Whenever the recalculation returns, it did nothing (the edge is not in
    the array) or what [requeued] says. *)
Lemma update_single_inv flag method e s s' :
  bm_edge_update_beauty_cost_single flag method e s = Some s' →
  (edge_in_array e s = false ∧ s' = s) ∨
  ∃ k o node, e_index s e = Z.of_nat k ∧ edge_array s !! k = Some e ∧
    edge_state_arr s !! k = Some o ∧ eheap_table s !! k = Some node ∧
    s' = requeued flag method e s k o node.
Proof.
  intros Hup. destruct (edge_in_array e s) eqn:Hin.
  2:{ left. unfold bm_edge_update_beauty_cost_single in Hup. rewrite Hin in Hup.
      split; congruence. }
  right. apply edge_in_array_true in Hin as (k & Hidx & He).
  pose proof Hup as Hup'.
  unfold bm_edge_update_beauty_cost_single in Hup'.
  rewrite (proj2 (edge_in_array_true e s)) in Hup' by eauto.
  rewrite Hidx, !arr_get_nat in Hup'.
  destruct (edge_state_arr s !! k) as [o|] eqn:Ho; [|discriminate].
  destruct (eheap_table s !! k) as [node|] eqn:Hnode; [|discriminate].
  exists k, o, node. repeat (split; [done|]).
  rewrite (update_single_unfold flag method e s k o node) in Hup by done.
  congruence.
Qed.

Lemma unqueued_nodes s k node n :
  n ∈ heap_nodes (eheap (unqueued s k node)) ↔
  n ∈ heap_nodes (eheap s) ∧ node ≠ Some (node_id n).
Proof.
  destruct node as [h|].
  - change (n ∈ heap_nodes (BLI_heap_remove (eheap s) h) ↔
            n ∈ heap_nodes (eheap s) ∧ Some h ≠ Some (node_id n)).
    rewrite elem_of_heap_remove. split; intros [? Hne]; split; try done.
    + congruence.
    + intros Heq. apply Hne. by rewrite Heq.
  - simpl. split; [|by intros []]. done.
Qed.

Lemma requeued_nodes flag method e s k o node n :
  n ∈ heap_nodes (eheap (requeued flag method e s k o node)) →
  (n ∈ heap_nodes (eheap s) ∧ node ≠ Some (node_id n)) ∨
  (n = mkHeapNode (heap_next (eheap s))
         (bm_edge_calc_rotate_beauty (bm s) e flag method) e ∧
   flt (bm_edge_calc_rotate_beauty (bm s) e flag method) fzero = true ∧
   from_option (λ gs, erot_state_alternate (bm s) e ∉ gs) True o).
Proof.
  destruct (unqueued_world s k node) as (_ & _ & Hnext).
  unfold requeued.
  destruct (match o with
            | Some gs => BLI_gset_haskey gs (erot_state_alternate (bm s) e)
            | None => false
            end) eqn:Hkey.
  { intros Hn. left. by apply unqueued_nodes in Hn. }
  destruct (flt (bm_edge_calc_rotate_beauty (bm s) e flag method) fzero) eqn:Hcost;
    simpl.
  2:{ intros Hn. left. by apply unqueued_nodes in Hn. }
  intros [Hn| ->]%elem_of_heap_insert.
  { left. by apply unqueued_nodes in Hn. }
  right. rewrite Hnext. split; [done|]. split; [done|].
  destruct o as [gs|]; simpl; [|done]. by apply BLI_gset_haskey_false.
Qed.

(** C3. The alternate signature of an edge is its current one with the
    sorted pair of end points and the sorted pair of apexes exchanged, and it
    is the signature the slot has once the edge is rotated.  When the cost of
    the edge of slot [k] is recalculated and that signature is in the set of
    the slot, the edge is not queued: its node, if it had one, is taken off
    the heap, the handle of the slot is cleared, and nothing else changes.
    The loop pops and rotates without a check of its own; but in every state
    [r] of a run on a valid input the edge on top of the heap has passed
    the check: its alternate signature is not in the set of its slot. *)
Theorem cycle_check_skips_seen_state
    flag method oflag_edge oflag_face m index0 eflags fflags edges r e s k gs node :
  valid_input mesh_ok m edges →
  reachable flag method oflag_edge oflag_face
    (beautify_init flag method m index0 eflags fflags edges) r →
  e_index s e = Z.of_nat k → edge_array s !! k = Some e →
  edge_state_arr s !! k = Some (Some gs) → eheap_table s !! k = Some node →
  erot_state_alternate (bm s) e ∈ gs →
  erot_state_alternate (bm s) e
    = {| v_pair := f_pair (erot_state_current (bm s) e);
         f_pair := v_pair (erot_state_current (bm s) e) |} ∧
  (∀ m' e', mesh_ok (bm s) → BM_edge_is_manifold (bm s) e = true →
            BM_edge_rotate (bm s) e = Some (m', e') →
            erot_state_current m' e' = erot_state_alternate (bm s) e) ∧
  (∃ s', bm_edge_update_beauty_cost_single flag method e s = Some s' ∧
         same_world s s' ∧
         eheap_table s' = <[k := None]> (eheap_table s) ∧
         heap_nodes (eheap s') =
           match node with
           | Some h => filter (λ n, node_id n ≠ h) (heap_nodes (eheap s))
           | None => heap_nodes (eheap s)
           end) ∧
  (∀ n, heap_top (heap_nodes (eheap r)) = Some n →
     ∃ j, e_index r (node_ptr n) = Z.of_nat j ∧
          erot_state_alternate (bm r) (node_ptr n) ∉ slot_set r j).
Proof.
  intros Hin Hreach Hidx He Hgs Hnode Halt. split; [reflexivity|]. split.
  { intros m' e' Hok Hman Hr. by apply rotate_current_alternate. }
  split.
  - rewrite (update_single_unfold flag method e s k (Some gs) node) by done.
    eexists. split; [done|]. unfold requeued.
    rewrite (proj2 (BLI_gset_haskey_true gs _) Halt).
    destruct node as [h|]; simpl.
    + split; [apply same_world_set_heap|]. done.
    + split; [apply same_world_refl|]. split; [|done].
      symmetry. by apply list_insert_id.
  - intros n Htop.
    pose proof (reachable_Inv _ _ _ _ _ _ _ _ _ _ Hin Hreach) as HI.
    destruct (heap_top_slot r n HI Htop) as (j & _ & Hj & _ & _ & Hnot).
    by exists j.
Qed.

(** C10. While the set of a slot is not created, no cycle check keeps its
    edge off the heap.  When the cost of the edge of slot [k] is recalculated
    and is negative, the edge is queued: the slot gets the handle of a new
    node, which holds that cost and the edge.  The loop that builds the heap
    looks at no set at all: it queues every edge of negative cost. *)
Theorem absent_set_never_skips flag method e s k node :
  e_index s e = Z.of_nat k → edge_array s !! k = Some e →
  edge_state_arr s !! k = Some None → eheap_table s !! k = Some node →
  flt (bm_edge_calc_rotate_beauty (bm s) e flag method) fzero = true →
  (∃ s', bm_edge_update_beauty_cost_single flag method e s = Some s' ∧
         eheap_table s' !! k = Some (Some (heap_next (eheap s))) ∧
         mkHeapNode (heap_next (eheap s))
           (bm_edge_calc_rotate_beauty (bm s) e flag method) e
           ∈ heap_nodes (eheap s')) ∧
  (∀ sets,
     let s0 := mkState (bm s) (e_index s) (elem_index_dirty s) (edge_oflags s)
                 (face_oflags s) (edge_array s) (eheap s) (eheap_table s) sets in
     eheap_table (build_heap_at flag method k e s0) !! k
       = Some (Some (heap_next (eheap s))) ∧
     mkHeapNode (heap_next (eheap s))
       (bm_edge_calc_rotate_beauty (bm s) e flag method) e
       ∈ heap_nodes (eheap (build_heap_at flag method k e s0))).
Proof.
  intros Hidx He Hset Hnode Hcost.
  assert (k < length (eheap_table s))%nat as Hlt by by eapply lookup_lt_Some.
  split.
  - rewrite (update_single_unfold flag method e s k None node) by done.
    eexists. split; [done|]. unfold requeued. rewrite Hcost. simpl.
    destruct (unqueued_world s k node) as (_ & Hlen & _). split.
    + apply list_lookup_insert_eq. lia.
    + apply elem_of_app. right. apply list_elem_of_singleton.
      by destruct node.
  - intros sets s0. unfold build_heap_at. subst s0. simpl. rewrite Hcost. simpl.
    split.
    + by apply list_lookup_insert_eq.
    + apply elem_of_app. right. by apply list_elem_of_singleton.
Qed.

(** *** Only negative costs are queued *)

Lemma build_heap_at_nodes flag method i e s n :
  n ∈ heap_nodes (eheap (build_heap_at flag method i e s)) →
  n ∈ heap_nodes (eheap s) ∨
  (n = mkHeapNode (heap_next (eheap s))
         (bm_edge_calc_rotate_beauty (bm s) e flag method) e ∧
   flt (bm_edge_calc_rotate_beauty (bm s) e flag method) fzero = true).
Proof.
  unfold build_heap_at.
  destruct (flt (bm_edge_calc_rotate_beauty (bm s) e flag method) fzero) eqn:Hcost;
    simpl; [|by left].
  intros [Hn| ->]%elem_of_heap_insert; [by left|by right].
Qed.

Lemma update_single_nodes flag method e s s' n :
  bm_edge_update_beauty_cost_single flag method e s = Some s' →
  n ∈ heap_nodes (eheap s') →
  n ∈ heap_nodes (eheap s) ∨
  (n = mkHeapNode (heap_next (eheap s))
         (bm_edge_calc_rotate_beauty (bm s) e flag method) e ∧
   flt (bm_edge_calc_rotate_beauty (bm s) e flag method) fzero = true).
Proof.
  intros [[_ ->]|(k & o & node & _ & _ & _ & _ & ->)]%update_single_inv Hn;
    [by left|].
  apply requeued_nodes in Hn as [[Hn _]|(Hn & Hc & _)]; [by left|by right].
Qed.

Lemma build_heap_negative flag method es i s :
  heap_negative s → heap_negative (build_heap flag method i es s).
Proof.
  revert i s. induction es as [|e es IH]; intros i s Hs; simpl; [done|].
  apply IH. intros n [Hn|[-> Hc]]%build_heap_at_nodes; [by apply Hs|done].
Qed.

Lemma update_each_negative flag method es s s' :
  heap_negative s → update_each flag method es s = Some s' → heap_negative s'.
Proof.
  revert s. induction es as [|e es IH]; intros s Hs; simpl.
  - by intros [= <-].
  - destruct (bm_edge_update_beauty_cost_single flag method e s) as [s1|] eqn:Hup;
      [|discriminate].
    simpl. apply IH.
    intros n [Hn|[-> Hc]]%(update_single_nodes _ _ _ _ _ _ Hup); [by apply Hs|done].
Qed.

Lemma loop_body_negative flag method oflag_edge oflag_face s s' :
  heap_negative s → loop_body flag method oflag_edge oflag_face s = Some s' →
  heap_negative s'.
Proof.
  intros Hs. unfold loop_body, BLI_heap_pop_min.
  destruct (heap_top (heap_nodes (eheap s))) as [n|]; [|discriminate]. simpl.
  destruct (arr_set (eheap_table s) (e_index s (node_ptr n)) None) as [t|];
    [|discriminate].
  simpl.
  assert (∀ n', n' ∈ filter (λ y, node_id y ≠ node_id n) (heap_nodes (eheap s)) →
                flt (node_value n') fzero = true) as Hpop.
  { intros n' [_ Hn']%list_elem_of_filter. by apply Hs. }
  destruct (BM_edge_rotate (bm s) (node_ptr n)) as [[m' e']|].
  2:{ intros [= <-]. exact Hpop. }
  destruct (arr_get (edge_state_arr s) (e_index s (node_ptr n))) as [o|];
    [|discriminate].
  simpl.
  destruct (arr_set (edge_state_arr s) _ _) as [sets|]; [|discriminate]. simpl.
  destruct (arr_set (edge_array s) _ _) as [ea|]; [|discriminate]. simpl.
  destruct (bm_edge_update_beauty_cost flag method e' _) as [s1|] eqn:Hup;
    [|discriminate].
  simpl. intros [= <-]. unfold heap_negative. simpl.
  eapply update_each_negative; [|exact Hup]. exact Hpop.
Qed.

(** C4. A node enters the heap, while the heap is built and when a cost is
    recalculated, only with the cost just computed for its edge, and only
    when that cost is below zero.  Hence in every state of a run every node
    of the heap, and so the node that is popped and whose edge is rotated,
    holds a negative cost. *)
Theorem heap_holds_negative_costs
    flag method oflag_edge oflag_face m index0 eflags fflags edges s :
  reachable flag method oflag_edge oflag_face
    (beautify_init flag method m index0 eflags fflags edges) s →
  (∀ n, n ∈ heap_nodes (eheap s) → flt (node_value n) fzero = true) ∧
  (∀ n, heap_top (heap_nodes (eheap s)) = Some n →
        flt (node_value n) fzero = true) ∧
  (∀ i e n, n ∈ heap_nodes (eheap (build_heap_at flag method i e s)) →
     n ∈ heap_nodes (eheap s) ∨
     (n = mkHeapNode (heap_next (eheap s))
            (bm_edge_calc_rotate_beauty (bm s) e flag method) e ∧
      flt (bm_edge_calc_rotate_beauty (bm s) e flag method) fzero = true)) ∧
  (∀ e s' n, bm_edge_update_beauty_cost_single flag method e s = Some s' →
     n ∈ heap_nodes (eheap s') →
     n ∈ heap_nodes (eheap s) ∨
     (n = mkHeapNode (heap_next (eheap s))
            (bm_edge_calc_rotate_beauty (bm s) e flag method) e ∧
      flt (bm_edge_calc_rotate_beauty (bm s) e flag method) fzero = true)).
Proof.
  intros Hreach.
  assert (heap_negative s) as Hneg.
  { induction Hreach as [|s s' _ IH _ Hbody].
    - unfold beautify_init. unfold heap_negative. simpl.
      apply build_heap_negative. intros n Hn. by apply elem_of_nil in Hn.
    - by eapply loop_body_negative. }
  split; [exact Hneg|]. split.
  { intros n Hn. apply Hneg. by apply heap_top_elem. }
  split.
  - intros i e n. apply build_heap_at_nodes.
  - intros e s' n. apply update_single_nodes.
Qed.

(** *** The heap holds the costs of the mesh as it is *)

Lemma requeued_bm flag method e s k o node :
  bm (requeued flag method e s k o node) = bm s.
Proof.
  unfold requeued.
  destruct (match o with
            | Some gs => BLI_gset_haskey gs (erot_state_alternate (bm s) e)
            | None => false
            end);
    [|destruct (flt (bm_edge_calc_rotate_beauty (bm s) e flag method) fzero)];
    by destruct node.
Qed.

Lemma calc_rotate_beauty_frame m m' x flag method :
  apex_a m' x = apex_a m x → apex_b m' x = apex_b m x →
  quad_v2 m' x = quad_v2 m x → quad_v4 m' x = quad_v4 m x →
  bm_edge_calc_rotate_beauty m' x flag method
    = bm_edge_calc_rotate_beauty m x flag method.
Proof.
  unfold apex_a, apex_b, quad_v2, quad_v4, bm_edge_calc_rotate_beauty.
  by intros -> -> -> ->.
Qed.

Lemma update_single_CostInv flag method pend e s s' :
  Inv mesh_ok (e :: pend) s → CostInv flag method (e :: pend) s →
  bm_edge_update_beauty_cost_single flag method e s = Some s' →
  CostInv flag method pend s'.
Proof.
  intros HI HC [[Hin ->]|(k & o & node & Hidx & He & Ho & Hnode & ->)]%update_single_inv.
  - intros n Hn Hp. apply HC; [done|].
    intros [Heq|?]%elem_of_cons; [|done].
    destruct (inv_heap _ _ _ HI n Hn) as (_ & j & Hj & _).
    assert (edge_in_array e s = true); [|congruence].
    apply edge_in_array_true. exists j. rewrite <- Heq. split; [|done].
    by apply (inv_index _ _ _ HI).
  - intros n Hn Hp. rewrite requeued_bm.
    apply requeued_nodes in Hn as [[Hn Hne]|(-> & _ & _)]; [|done].
    apply HC; [done|].
    intros [Heq|?]%elem_of_cons; [|done].
    destruct (inv_heap _ _ _ HI n Hn) as (_ & j & Hj & Ht).
    rewrite Heq in Hj.
    assert (j = k) as -> by by eapply (Inv_slot_unique _ _ _ _ _ HI).
    congruence.
Qed.

Lemma update_each_CostInv flag method pend es s s' :
  Inv mesh_ok (es ++ pend) s → CostInv flag method (es ++ pend) s →
  update_each flag method es s = Some s' →
  CostInv flag method pend s'.
Proof.
  revert s. induction es as [|e es IH]; intros s HI HC; simpl.
  - by intros [= <-].
  - destruct (update_single_Inv flag method (es ++ pend) e s HI) as (s1 & Hup & HI1 & _).
    rewrite Hup. simpl. apply IH; [done|].
    by eapply update_single_CostInv.
Qed.

Lemma rotated_CostInv flag method s k e m' e' :
  Inv mesh_ok [] s → CostInv flag method [] s →
  edge_array s !! k = Some e → eheap_table s !! k = Some None →
  BM_edge_rotate (bm s) e = Some (m', e') →
  CostInv flag method (e_arr m' e') (rotated s k m' e').
Proof.
  intros HI HC He Hnone Hr n Hn Hp. simpl in *.
  destruct (inv_heap _ _ _ HI n Hn) as (_ & j & Hj & Ht).
  destruct (inv_index _ _ _ HI k e He) as [_ Hman].
  destruct (inv_index _ _ _ HI j _ Hj) as [_ Hmx].
  assert (node_ptr n ≠ e) as Hne.
  { intros Heq. rewrite Heq in Hj.
    assert (j = k) as -> by by eapply (Inv_slot_unique _ _ _ _ _ HI).
    congruence. }
  destruct (rotate_frame _ Hrot _ _ _ _ _ (inv_mesh _ _ _ HI) Hman Hr Hne Hmx Hp)
    as (_ & _ & Hf3 & Hf4 & Hf5 & Hf6).
  rewrite (calc_rotate_beauty_frame _ _ _ flag method Hf3 Hf4 Hf5 Hf6).
  apply HC; [done|apply not_elem_of_nil].
Qed.

Lemma loop_body_CostInv flag method oflag_edge oflag_face s s' :
  Inv mesh_ok [] s → CostInv flag method [] s →
  BLI_heap_is_empty (eheap s) = false →
  loop_body flag method oflag_edge oflag_face s = Some s' →
  CostInv flag method [] s'.
Proof.
  intros HI HC Hne Hbody. apply BLI_heap_is_empty_false in Hne.
  destruct (heap_top_is_Some _ Hne) as [n Htop].
  destruct (heap_top_slot s n HI Htop) as (k & He & Hidx & Hk & _ & Halt).
  assert (k < length (eheap_table s))%nat as Hlt by by eapply lookup_lt_Some.
  assert (CostInv flag method [] (popped s n k)) as HCp.
  { intros x [Hx _]%(elem_of_heap_remove (eheap s)) Hp. by apply HC. }
  destruct (BM_edge_rotate (bm s) (node_ptr n)) as [[m' e']|] eqn:Hr.
  - destruct (loop_body_rotated flag method oflag_edge oflag_face s n k m' e'
                HI Htop He Hidx Hk Halt Hr) as (s1 & Hup & _ & _ & Hbody1).
    assert (s' = tag_flags oflag_edge oflag_face e' s1) as -> by congruence.
    pose proof (popped_Inv s n k HI Hk) as HIp.
    assert (Inv mesh_ok (e_arr m' e' ++ []) (rotated (popped s n k) k m' e')) as HIr.
    { rewrite app_nil_r. apply (rotated_Inv _ k (node_ptr n)); try done.
      by apply popped_table. }
    assert (CostInv flag method (e_arr m' e' ++ []) (rotated (popped s n k) k m' e'))
      as HCr.
    { rewrite app_nil_r. apply (rotated_CostInv _ _ _ k (node_ptr n)); try done.
      by apply popped_table. }
    exact (update_each_CostInv flag method [] _ _ _ HIr HCr Hup).
  - rewrite (loop_body_refused flag method oflag_edge oflag_face s n k) in Hbody
      by done.
    by injection Hbody as <-.
Qed.

Lemma build_heap_CostInv flag method es i s :
  CostInv flag method [] s → CostInv flag method [] (build_heap flag method i es s).
Proof.
  revert i s. induction es as [|e es IH]; intros i s HC; simpl; [done|].
  apply IH. intros n Hn Hp.
  destruct (build_heap_at_world flag method i e s) as (-> & _).
  apply build_heap_at_nodes in Hn as [Hn|[-> _]]; [by apply HC|done].
Qed.

Lemma reachable_CostInv
    flag method oflag_edge oflag_face m index0 eflags fflags edges s :
  valid_input mesh_ok m edges →
  reachable flag method oflag_edge oflag_face
    (beautify_init flag method m index0 eflags fflags edges) s →
  CostInv flag method [] s.
Proof.
  intros Hin Hreach. induction Hreach as [|s s' Hreach IH Hne Hbody].
  - unfold beautify_init, CostInv. simpl. apply build_heap_CostInv.
    intros n Hn. by apply elem_of_nil in Hn.
  - eapply loop_body_CostInv; [|exact IH|exact Hne|exact Hbody].
    by eapply reachable_Inv.
Qed.

(** *** The metric *)

Lemma land_pow2 (h b : Z) :
  0 <= b → Z.land h (2 ^ b) = if Z.testbit h b then 2 ^ b else 0.
Proof.
  intros Hb. apply Z.bits_inj'. intros i Hi.
  rewrite Z.land_spec, Z.pow2_bits_eqb by done.
  destruct (Z.eqb_spec b i) as [->|Hne].
  - destruct (Z.testbit h i); simpl.
    + by rewrite Z.pow2_bits_true.
    + by rewrite Z.bits_0.
  - rewrite andb_false_r. destruct (Z.testbit h b).
    + rewrite Z.pow2_bits_false; [done|lia].
    + by rewrite Z.bits_0.
Qed.

Lemma BM_elem_tagged_eq (v1 v3 : BMVert) :
  (∃ b, 0 <= b ∧ BM_ELEM_TAG = 2 ^ b) →
  BM_elem_tagged v1 = BM_elem_tagged v3 →
  BM_elem_flag_test v1 BM_ELEM_TAG = BM_elem_flag_test v3 BM_ELEM_TAG.
Proof.
  intros (b & Hb & Htag). unfold BM_elem_tagged, BM_elem_flag_test.
  rewrite Htag, !land_pow2 by done.
  assert (2 ^ b ≠ 0) as Hnz by (apply Z.pow_nonzero; lia).
  destruct (Z.testbit (v_hflag v1) b), (Z.testbit (v_hflag v3) b); try done.
  - destruct (Z.eqb_spec (2 ^ b) 0); [done|]. simpl. discriminate.
  - destruct (Z.eqb_spec (2 ^ b) 0); [done|]. simpl. discriminate.
Qed.

Lemma BM_verts_short_circuit (v1 v2 v3 v4 : BMVert) flag method :
  (∃ b, 0 <= b ∧ BM_ELEM_TAG = 2 ^ b) →
  v1 = v3 ∨ (Z.land flag VERT_RESTRICT_TAG ≠ 0 ∧
             BM_elem_tagged v1 = BM_elem_tagged v3) →
  BM_verts_calc_rotate_beauty v1 v2 v3 v4 flag method = FLT_MAX.
Proof.
  intros Hbit Hc. unfold BM_verts_calc_rotate_beauty.
  destruct (bool_decide (Z.land flag VERT_RESTRICT_TAG ≠ 0)
            && bool_decide (BM_elem_flag_test v1 BM_ELEM_TAG
                            = BM_elem_flag_test v3 BM_ELEM_TAG)) eqn:Htest;
    [done|].
  destruct Hc as [->|[Hflag Htag]].
  - by rewrite bool_decide_eq_true_2.
  - apply (BM_elem_tagged_eq _ _ Hbit) in Htag.
    rewrite !bool_decide_eq_true_2 in Htest by done. discriminate.
Qed.

Lemma angle_degenerate (v1 v2 v3 v4 : vec3) :
  feq (normal_tri_v3 v1 v2 v3).2 fzero = true ∨
  feq (normal_tri_v3 v1 v3 v4).2 fzero = true →
  bm_edge_calc_rotate_beauty__angle v1 v2 v3 v4 = FLT_MAX.
Proof.
  unfold bm_edge_calc_rotate_beauty__angle.
  destruct (normal_tri_v3 v1 v2 v3) as [no_a len_a].
  destruct (normal_tri_v3 v1 v3 v4) as [no_b len_b]. simpl.
  intros [Ha|Hb].
  - by rewrite Ha.
  - rewrite Hb. by destruct (feq len_a fzero).
Qed.

Lemma calc_rotate_beauty_degenerate m e flag method :
  method ≠ 0 → rotate_degenerate m e →
  bm_edge_calc_rotate_beauty m e flag method = FLT_MAX.
Proof.
  intros Hm Hdeg. unfold bm_edge_calc_rotate_beauty, BM_verts_calc_rotate_beauty.
  destruct (_ && _); [done|]. destruct (bool_decide (_ = _)); [done|].
  rewrite bool_decide_eq_false_2 by done. by apply angle_degenerate.
Qed.

(** An edge whose cost is the sentinel is not queued, neither while the heap
    is built nor when its cost is recalculated. *)
Lemma sentinel_not_queued flag method e s :
  bm_edge_calc_rotate_beauty (bm s) e flag method = FLT_MAX →
  (∀ i, eheap (build_heap_at flag method i e s) = eheap s) ∧
  (∀ s' n, bm_edge_update_beauty_cost_single flag method e s = Some s' →
           n ∈ heap_nodes (eheap s') → n ∈ heap_nodes (eheap s)).
Proof.
  intros Hmax. split.
  - intros i. unfold build_heap_at. by rewrite Hmax.
  - intros s' n Hup Hn.
    apply (update_single_nodes _ _ _ _ _ _ Hup) in Hn as [Hn|[_ Hc]]; [done|].
    rewrite Hmax in Hc. discriminate.
Qed.

(** C7. The angle metric gives the sentinel [FLT_MAX] as soon as one of the
    two triangles the rotation would make, (v1 v2 v3) or (v1 v3 v4), has a
    normal of length zero; the sentinel is not negative.  With the angle
    metric chosen, an edge whose rotation would make such a triangle gets
    the sentinel as its cost and is not queued, neither while the heap is
    built nor when its cost is recalculated; and in a run on a valid input no
    edge on the heap, so no edge that is popped and rotated, is such an
    edge. *)
Theorem degenerate_rotation_never_performed
    flag method oflag_edge oflag_face m index0 eflags fflags edges s :
  method ≠ 0 →
  valid_input mesh_ok m edges →
  reachable flag method oflag_edge oflag_face
    (beautify_init flag method m index0 eflags fflags edges) s →
  (∀ v1 v2 v3 v4 : vec3,
     feq (normal_tri_v3 v1 v2 v3).2 fzero = true ∨
     feq (normal_tri_v3 v1 v3 v4).2 fzero = true →
     bm_edge_calc_rotate_beauty__angle v1 v2 v3 v4 = FLT_MAX) ∧
  flt FLT_MAX fzero = false ∧
  (∀ e, rotate_degenerate (bm s) e →
     bm_edge_calc_rotate_beauty (bm s) e flag method = FLT_MAX ∧
     (∀ i, eheap (build_heap_at flag method i e s) = eheap s) ∧
     (∀ s' n, bm_edge_update_beauty_cost_single flag method e s = Some s' →
              n ∈ heap_nodes (eheap s') → n ∈ heap_nodes (eheap s))) ∧
  (∀ n, n ∈ heap_nodes (eheap s) → ¬ rotate_degenerate (bm s) (node_ptr n)) ∧
  (∀ n, heap_top (heap_nodes (eheap s)) = Some n →
        ¬ rotate_degenerate (bm s) (node_ptr n)).
Proof.
  intros Hm Hin Hreach.
  assert (∀ n, n ∈ heap_nodes (eheap s) → ¬ rotate_degenerate (bm s) (node_ptr n))
    as Hheap.
  { intros n Hn Hdeg.
    pose proof (reachable_Inv _ _ _ _ _ _ _ _ _ _ Hin Hreach) as HI.
    pose proof (reachable_CostInv _ _ _ _ _ _ _ _ _ _ Hin Hreach n Hn) as Hcost.
    destruct (inv_heap _ _ _ HI n Hn) as (Hneg & _).
    rewrite Hcost in Hneg by apply not_elem_of_nil.
    rewrite (calc_rotate_beauty_degenerate _ _ flag method Hm Hdeg) in Hneg.
    discriminate. }
  split; [exact angle_degenerate|]. split; [reflexivity|]. split; [|split].
  - intros e Hdeg.
    pose proof (calc_rotate_beauty_degenerate _ _ flag method Hm Hdeg) as Hmax.
    split; [done|]. by apply sentinel_not_queued.
  - exact Hheap.
  - intros n Hn. apply Hheap. by apply heap_top_elem.
Qed.

(** C8. With [BM_ELEM_TAG] one bit: whatever the geometry routines are,
    [BM_verts_calc_rotate_beauty] gives the sentinel [FLT_MAX] when the two
    apexes v1 and v3 are one vertex, and when the restriction by tag is asked
    for and both are tagged or both are not.  An edge in one of these cases
    is not queued, neither while the heap is built nor when its cost is
    recalculated; and in a run on a valid input no edge on the heap is in
    one of them. *)
Theorem rotate_beauty_short_circuit
    flag method oflag_edge oflag_face m index0 eflags fflags edges s :
  (∃ b, 0 <= b ∧ BM_ELEM_TAG = 2 ^ b) →
  valid_input mesh_ok m edges →
  reachable flag method oflag_edge oflag_face
    (beautify_init flag method m index0 eflags fflags edges) s →
  (∀ v1 v2 v3 v4 : BMVert,
     v1 = v3 ∨ (Z.land flag VERT_RESTRICT_TAG ≠ 0 ∧
                BM_elem_tagged v1 = BM_elem_tagged v3) →
     BM_verts_calc_rotate_beauty v1 v2 v3 v4 flag method = FLT_MAX) ∧
  (∀ e, short_circuit flag (bm s) e →
     bm_edge_calc_rotate_beauty (bm s) e flag method = FLT_MAX ∧
     (∀ i, eheap (build_heap_at flag method i e s) = eheap s) ∧
     (∀ s' n, bm_edge_update_beauty_cost_single flag method e s = Some s' →
              n ∈ heap_nodes (eheap s') → n ∈ heap_nodes (eheap s))) ∧
  (∀ n, n ∈ heap_nodes (eheap s) → ¬ short_circuit flag (bm s) (node_ptr n)).
Proof.
  intros Hbit Hin Hreach.
  assert (∀ e, short_circuit flag (bm s) e →
               bm_edge_calc_rotate_beauty (bm s) e flag method = FLT_MAX) as Hmax.
  { intros e Hc. unfold bm_edge_calc_rotate_beauty.
    by apply BM_verts_short_circuit. }
  split; [|split].
  - intros v1 v2 v3 v4. by apply BM_verts_short_circuit.
  - intros e Hc. split; [by apply Hmax|]. apply sentinel_not_queued. by apply Hmax.
  - intros n Hn Hc.
    pose proof (reachable_Inv _ _ _ _ _ _ _ _ _ _ Hin Hreach) as HI.
    pose proof (reachable_CostInv _ _ _ _ _ _ _ _ _ _ Hin Hreach n Hn) as Hcost.
    destruct (inv_heap _ _ _ HI n Hn) as (Hneg & _).
    rewrite Hcost in Hneg by apply not_elem_of_nil.
    rewrite (Hmax _ Hc) in Hneg. discriminate.
Qed.

(** C5, as amended.  On a valid input in which every edge of the array has a
    cost that is not negative or a rotation that is refused, the run returns
    and has executed no rotation: no signature is recorded, the mesh and the
    array are what they were.  A first run need not leave such a state. *)
Theorem beautify_without_improving_edge
    flag method oflag_edge oflag_face m index0 eflags fflags edges :
  valid_input mesh_ok m edges →
  (∀ e, e ∈ edges →
        flt (bm_edge_calc_rotate_beauty m e flag method) fzero = false ∨
        BM_edge_rotate m e = None) →
  ∃ fuel s,
    beautify_run flag method oflag_edge oflag_face fuel m index0 eflags fflags edges
      = Finished s ∧
    rotations_recorded s = 0%nat ∧ bm s = m ∧ edge_array s = edges.
Proof.
  intros (Hok & Hnd & Hman) Hno. unfold beautify_run.
  destruct (beautify_init_Inv flag method m index0 eflags fflags edges Hok Hnd Hman)
    as (HI0 & Hbm0 & Hea0 & Hsets0 & _).
  assert (CostInv flag method [] (beautify_init flag method m index0 eflags fflags edges))
    as HC0.
  { unfold beautify_init, CostInv. simpl. apply build_heap_CostInv.
    intros n Hn. by apply elem_of_nil in Hn. }
  set (J := λ s : St, bm s = m ∧ edge_array s = edges ∧
                      rotations_recorded s = 0%nat ∧
                      ∀ n, n ∈ heap_nodes (eheap s) →
                           BM_edge_rotate m (node_ptr n) = None).
  assert (J (beautify_init flag method m index0 eflags fflags edges)) as HJ0.
  { split; [done|]. split; [done|]. split.
    - unfold rotations_recorded. rewrite Hsets0.
      clear. induction (length edges); simpl; [done|]. done.
    - intros n Hn. destruct (inv_heap _ _ _ HI0 n Hn) as (Hneg & k & Hk & _).
      rewrite Hea0 in Hk. apply list_elem_of_lookup_2 in Hk.
      destruct (Hno _ Hk) as [Hc|Hr]; [|done].
      rewrite (HC0 n Hn), Hbm0 in Hneg by apply not_elem_of_nil. congruence. }
  revert HI0 HJ0.
  generalize (beautify_init flag method m index0 eflags fflags edges). intros s.
  remember (length (heap_nodes (eheap s))) as M eqn:HM.
  revert s HM. induction M as [M IH] using lt_wf_ind. intros s HM HI (Hbm & Hea & Hrec & Hheap).
  destruct (BLI_heap_is_empty (eheap s)) eqn:Hemp.
  { exists 0%nat, s. simpl. by rewrite Hemp. }
  pose proof Hemp as Hne. apply BLI_heap_is_empty_false in Hne.
  destruct (heap_top_is_Some _ Hne) as [n Htop].
  destruct (heap_top_slot s n HI Htop) as (k & He & Hidx & Hk & _).
  assert (k < length (eheap_table s))%nat as Hlt by by eapply lookup_lt_Some.
  assert (BM_edge_rotate (bm s) (node_ptr n) = None) as Hr.
  { rewrite Hbm. apply Hheap. by apply heap_top_elem. }
  pose proof (loop_body_refused flag method oflag_edge oflag_face s n k
                Htop Hidx Hlt Hr) as Hbody.
  destruct (IH (length (heap_nodes (eheap (popped s n k))))) with (s := popped s n k)
    as (fuel & s' & Hrun & Hres).
  - rewrite HM. apply heap_remove_length. by apply heap_top_elem.
  - done.
  - by apply popped_Inv.
  - split; [done|]. split; [done|]. split; [done|].
    intros x [Hx _]%(elem_of_heap_remove (eheap s)). by apply Hheap.
  - exists (S fuel), s'. simpl. rewrite Hemp, Hbody. done.
Qed.

(** *** What else the run keeps *)

(** **** The signature and the metric *)

(** X1. Whatever the mesh holds, both pairs of a signature are in order,
    small to large, as the comments of [struct EdRotState] say, and each is
    the pair of indices it was made of, exchanged or not; the same holds
    for the alternate signature. *)
Theorem erot_state_pairs_ordered m e :
  let st := erot_state_current m e in
  let alt := erot_state_alternate m e in
  (v_pair st).1 <= (v_pair st).2 ∧ (f_pair st).1 <= (f_pair st).2 ∧
  same_pair (v_pair st) (v_index (e_v1 m e), v_index (e_v2 m e)) ∧
  same_pair (f_pair st) (v_index (apex_a m e), v_index (apex_b m e)) ∧
  (v_pair alt).1 <= (v_pair alt).2 ∧ (f_pair alt).1 <= (f_pair alt).2.
Proof.
  simpl. unfold erot_state_current, erot_state_alternate, erot_state_ex,
    apex_a, apex_b. simpl.
  split; [apply EDGE_ORD_le|]. split; [apply EDGE_ORD_le|].
  split; [apply EDGE_ORD_same_pair|]. split; [apply EDGE_ORD_same_pair|].
  split; apply EDGE_ORD_le.
Qed.

(** X2. When no two vertices share an index, the signature of an edge is a
    faithful key of the quad around it: two edges (of one mesh or of two)
    have the same signature exactly when they have the same two end points
    and the same two apexes, in whatever order the mesh gives them. *)
Theorem signature_identifies_quad m e m' e' :
  (∀ a b : BMVert, v_index a = v_index b → a = b) →
  erot_state_current m e = erot_state_current m' e' ↔
  same_pair (e_v1 m e, e_v2 m e) (e_v1 m' e', e_v2 m' e') ∧
  same_pair (apex_a m e, apex_b m e) (apex_a m' e', apex_b m' e').
Proof.
  intros Hinj. split.
  - rewrite !erot_state_current_sig. unfold sig_of. intros [= Hv Hf].
    apply EDGE_ORD_inj in Hv, Hf. unfold same_pair; simpl. split.
    + destruct Hv as [[H1 H2]|[H1 H2]]; apply Hinj in H1, H2; rewrite H1, H2; auto.
    + unfold apex_a, apex_b in *.
      destruct Hf as [[H1 H2]|[H1 H2]]; apply Hinj in H1, H2; rewrite H1, H2; auto.
  - intros [Hv Hf]. rewrite !erot_state_current_sig. by apply sig_of_same_pair.
Qed.

(** X4. [BM_verts_calc_rotate_beauty] looks at [method] only to tell 0 from
    the rest, and at [flag] only through the bit [VERT_RESTRICT_TAG] and,
    for the method 0, the bit [EDGE_RESTRICT_DEGENERATE]: two calls that
    agree on these give the same float.  When the apexes differ and the
    restriction by tag is off, or their tag tests differ, the result is
    the metric chosen, on the four coordinates. *)
Theorem BM_verts_calc_rotate_beauty_dispatch
    (v1 v2 v3 v4 : BMVert) flag flag' method method' :
  (Z.land flag VERT_RESTRICT_TAG ≠ 0 ↔ Z.land flag' VERT_RESTRICT_TAG ≠ 0) →
  (method = 0 ↔ method' = 0) →
  (method = 0 →
   (Z.land flag EDGE_RESTRICT_DEGENERATE ≠ 0
    ↔ Z.land flag' EDGE_RESTRICT_DEGENERATE ≠ 0)) →
  BM_verts_calc_rotate_beauty v1 v2 v3 v4 flag method
    = BM_verts_calc_rotate_beauty v1 v2 v3 v4 flag' method' ∧
  (v1 ≠ v3 →
   Z.land flag VERT_RESTRICT_TAG = 0 ∨
   BM_elem_flag_test v1 BM_ELEM_TAG ≠ BM_elem_flag_test v3 BM_ELEM_TAG →
   BM_verts_calc_rotate_beauty v1 v2 v3 v4 flag method =
     if bool_decide (method = 0)
     then BLI_polyfill_edge_calc_rotate_beauty__area
            (v_co v1) (v_co v2) (v_co v3) (v_co v4)
            (bool_decide (Z.land flag EDGE_RESTRICT_DEGENERATE ≠ 0))
     else bm_edge_calc_rotate_beauty__angle (v_co v1) (v_co v2) (v_co v3) (v_co v4)).
Proof.
  intros Htag Hm Hdeg. split.
  - unfold BM_verts_calc_rotate_beauty.
    rewrite (bool_decide_ext _ _ Htag), (bool_decide_ext _ _ Hm).
    destruct (_ && _); [done|]. destruct (bool_decide (v1 = v3)); [done|].
    destruct (bool_decide (method' = 0)) eqn:Hm0; [|done].
    apply bool_decide_eq_true in Hm0. apply Hm in Hm0.
    by rewrite (bool_decide_ext _ _ (Hdeg Hm0)).
  - intros Hne Hoff. unfold BM_verts_calc_rotate_beauty.
    rewrite (bool_decide_eq_false_2 (v1 = v3)) by done.
    destruct Hoff as [Hoff|Hoff].
    + rewrite (bool_decide_eq_false_2 (Z.land flag VERT_RESTRICT_TAG ≠ 0)); [done|].
      intros Hx. by apply Hx.
    + rewrite (bool_decide_eq_false_2 (BM_elem_flag_test v1 BM_ELEM_TAG = _)) by done.
      by rewrite andb_false_r.
Qed.

(** **** Recalculating the costs around an edge *)

Lemma unqueued_same_world s k node : same_world s (unqueued s k node).
Proof. destruct node; [apply same_world_set_heap|apply same_world_refl]. Qed.

Lemma requeued_world flag method e s k o node :
  same_world s (requeued flag method e s k o node) ∧
  length (eheap_table (requeued flag method e s k o node))
    = length (eheap_table s).
Proof.
  pose proof (unqueued_same_world s k node) as Hw.
  destruct (unqueued_world s k node) as (_ & Hlen & _).
  unfold requeued.
  destruct (match o with
            | Some gs => BLI_gset_haskey gs (erot_state_alternate (bm s) e)
            | None => false
            end); [done|].
  destruct (flt (bm_edge_calc_rotate_beauty (bm s) e flag method) fzero).
  - split; [eapply same_world_trans; [exact Hw|apply same_world_set_heap]|].
    simpl. by rewrite length_insert.
  - split; [eapply same_world_trans; [exact Hw|apply same_world_set_heap]|].
    simpl. by rewrite length_insert.
Qed.

Lemma update_single_world flag method e s s' :
  bm_edge_update_beauty_cost_single flag method e s = Some s' →
  same_world s s' ∧ length (eheap_table s') = length (eheap_table s).
Proof.
  intros [[_ ->]|(k & o & node & _ & _ & _ & _ & ->)]%update_single_inv.
  - split; [apply same_world_refl|done].
  - apply requeued_world.
Qed.

Lemma update_each_world flag method es s s' :
  update_each flag method es s = Some s' →
  same_world s s' ∧ length (eheap_table s') = length (eheap_table s).
Proof.
  revert s. induction es as [|e es IH]; intros s; simpl.
  - intros [= <-]. split; [apply same_world_refl|done].
  - destruct (bm_edge_update_beauty_cost_single flag method e s) as [s1|] eqn:Hup;
      [|discriminate].
    simpl. intros Hrest. destruct (update_single_world _ _ _ _ _ Hup) as [Hw1 Hl1].
    destruct (IH s1 Hrest) as [Hw2 Hl2].
    split; [by eapply same_world_trans|congruence].
Qed.

Lemma update_single_total flag method e s :
  length (eheap_table s) = length (edge_array s) →
  length (edge_state_arr s) = length (edge_array s) →
  ∃ s', bm_edge_update_beauty_cost_single flag method e s = Some s' ∧
        (edge_in_array e s = false → s' = s).
Proof.
  intros Ht Hs. destruct (edge_in_array e s) eqn:Hin.
  - apply edge_in_array_true in Hin as (k & Hk & He).
    assert (k < length (edge_array s))%nat as Hlt by by eapply lookup_lt_Some.
    destruct (lookup_lt_is_Some_2 (edge_state_arr s) k) as [o Ho]; [lia|].
    destruct (lookup_lt_is_Some_2 (eheap_table s) k) as [node Hnode]; [lia|].
    rewrite (update_single_unfold flag method e s k o node) by done.
    eexists. split; [done|]. discriminate.
  - unfold bm_edge_update_beauty_cost_single. rewrite Hin. by exists s.
Qed.

Lemma update_each_total flag method es s :
  length (eheap_table s) = length (edge_array s) →
  length (edge_state_arr s) = length (edge_array s) →
  ∃ s', update_each flag method es s = Some s' ∧
        ((∀ x, x ∈ es → edge_in_array x s = false) → s' = s).
Proof.
  revert s. induction es as [|e es IH]; intros s Ht Hs; simpl.
  - by exists s.
  - destruct (update_single_total flag method e s Ht Hs) as (s1 & Hup & Hsame).
    rewrite Hup. simpl.
    destruct (update_single_world _ _ _ _ _ Hup) as [(_&_&_&_&_&Hea&Hsets) Hl1].
    destruct (IH s1) as (s2 & Hrest & Hsame2); [congruence..|].
    exists s2. split; [done|]. intros Hout.
    assert (s1 = s) as -> by (apply Hsame, Hout; left).
    apply Hsame2. intros x Hx. apply Hout. by right.
Qed.

(** X6. [bm_edge_update_beauty_cost] stays inside the arrays whatever the
    index fields of the four edges around [e] hold (a negative number, one
    past the array, the slot of another edge): with [eheap_table] and
    [edge_state_arr] as long as [edge_array] it returns, and it has written
    to the heap and to [eheap_table] only.  When none of the four edges is
    in the array, it has written nothing. *)
Theorem rescoring_stays_in_bounds flag method e s :
  length (eheap_table s) = length (edge_array s) →
  length (edge_state_arr s) = length (edge_array s) →
  ∃ s', bm_edge_update_beauty_cost flag method e s = Some s' ∧
        same_world s s' ∧
        length (eheap_table s') = length (eheap_table s) ∧
        ((∀ x, x ∈ e_arr (bm s) e → edge_in_array x s = false) → s' = s).
Proof.
  intros Ht Hs. unfold bm_edge_update_beauty_cost.
  destruct (update_each_total flag method (e_arr (bm s) e) s Ht Hs)
    as (s' & Hup & Hsame).
  destruct (update_each_world _ _ _ _ _ Hup) as [Hw Hl].
  exists s'. split; [exact Hup|]. split; [exact Hw|]. split; [exact Hl|exact Hsame].
Qed.

(** **** The shape of one pass *)

(** What a pass that returns has done, without the invariant. *)
Lemma loop_body_shape flag method oflag_edge oflag_face s s' :
  loop_body flag method oflag_edge oflag_face s = Some s' →
  ∃ n k, heap_top (heap_nodes (eheap s)) = Some n ∧
    e_index s (node_ptr n) = Z.of_nat k ∧ (k < length (eheap_table s))%nat ∧
    ((BM_edge_rotate (bm s) (node_ptr n) = None ∧ s' = popped s n k) ∨
     ∃ m' e' s1, BM_edge_rotate (bm s) (node_ptr n) = Some (m', e') ∧
       (k < length (edge_state_arr s))%nat ∧ (k < length (edge_array s))%nat ∧
       bm_edge_update_beauty_cost flag method e' (rotated (popped s n k) k m' e')
         = Some s1 ∧
       same_world (rotated (popped s n k) k m' e') s1 ∧
       s' = tag_flags oflag_edge oflag_face e' s1).
Proof.
  intros Hbody. pose proof Hbody as Hbody'.
  unfold loop_body, BLI_heap_pop_min in Hbody'.
  destruct (heap_top (heap_nodes (eheap s))) as [n|] eqn:Htop; [|discriminate].
  simpl in Hbody'.
  destruct (arr_set (eheap_table s) (e_index s (node_ptr n)) None) as [t|] eqn:Ht;
    [|discriminate].
  apply arr_set_Some in Ht as [Hrange ->].
  set (k := Z.to_nat (e_index s (node_ptr n))).
  assert (e_index s (node_ptr n) = Z.of_nat k) as Hidx by (unfold k; lia).
  assert (k < length (eheap_table s))%nat as Hk by (unfold k; lia).
  exists n, k. split; [done|]. split; [done|]. split; [done|].
  simpl in Hbody'.
  destruct (BM_edge_rotate (bm s) (node_ptr n)) as [[m' e']|] eqn:Hr.
  2:{ left. split; [done|]. injection Hbody' as <-. reflexivity. }
  right. rewrite Hidx, arr_get_nat in Hbody'.
  destruct (edge_state_arr s !! k) as [o|] eqn:Ho; [|discriminate].
  simpl in Hbody'.
  assert (k < length (edge_state_arr s))%nat as Hks by by eapply lookup_lt_Some.
  rewrite (arr_set_nat (edge_state_arr s) k) in Hbody' by exact Hks.
  simpl in Hbody'.
  destruct (arr_set (edge_array s) (Z.of_nat k) e') as [ea|] eqn:Hea; [|discriminate].
  apply arr_set_Some in Hea as [Hrange' ->]. rewrite Nat2Z.id in Hbody'.
  assert (k < length (edge_array s))%nat as Hka by lia.
  simpl in Hbody'.
  replace (match o with Some gs => gs | None => erot_gset_new end)
    with (slot_set s k) in Hbody' by (unfold slot_set; rewrite Ho; by destruct o).
  change (bm_edge_update_beauty_cost flag method e' (rotated (popped s n k) k m' e')
          ≫= (λ s0, Some (tag_flags oflag_edge oflag_face e' s0)) = Some s')
    in Hbody'.
  destruct (bm_edge_update_beauty_cost flag method e' (rotated (popped s n k) k m' e'))
    as [s1|] eqn:Hup; [|discriminate].
  simpl in Hbody'. injection Hbody' as <-.
  exists m', e', s1. split; [done|]. split; [done|]. split; [done|].
  split; [done|]. split; [|done].
  by apply (update_each_world _ _ _ _ _ Hup).
Qed.

(** The same with the invariant: the node is the one of a slot, and the
    invariant holds again. *)
Lemma loop_body_cases flag method oflag_edge oflag_face s s' :
  Inv mesh_ok [] s →
  loop_body flag method oflag_edge oflag_face s = Some s' →
  ∃ n k, heap_top (heap_nodes (eheap s)) = Some n ∧
    edge_array s !! k = Some (node_ptr n) ∧
    e_index s (node_ptr n) = Z.of_nat k ∧
    eheap_table s !! k = Some (Some (node_id n)) ∧
    (erot_state_alternate (bm s) (node_ptr n) ∉ slot_set s k) ∧
    ((BM_edge_rotate (bm s) (node_ptr n) = None ∧ s' = popped s n k) ∨
     ∃ m' e' s1, BM_edge_rotate (bm s) (node_ptr n) = Some (m', e') ∧
       bm_edge_update_beauty_cost flag method e' (rotated (popped s n k) k m' e')
         = Some s1 ∧
       same_world (rotated (popped s n k) k m' e') s1 ∧
       Inv mesh_ok [] s1 ∧
       s' = tag_flags oflag_edge oflag_face e' s1).
Proof.
  intros HI Hbody.
  destruct (loop_body_shape _ _ _ _ _ _ Hbody)
    as (n & k & Htop & Hidx & Hk & Hcase).
  destruct (heap_top_slot s n HI Htop) as (k' & He & Hidx' & Ht & _ & Halt).
  assert (k' = k) as -> by lia.
  exists n, k. repeat (split; [done|]).
  destruct Hcase as [[Hr ->]|(m' & e' & s1 & Hr & _ & _ & Hup & Hw & ->)].
  - left. done.
  - right. exists m', e', s1. repeat (split; [done|]). split; [|done].
    destruct (loop_body_rotated flag method oflag_edge oflag_face s n k m' e'
                HI Htop He Hidx Ht Halt Hr) as (s2 & Hup2 & _ & HI2 & _).
    congruence.
Qed.

(** **** The states of a run, again *)

Lemma reachable_trans flag method oflag_edge oflag_face s0 s1 s2 :
  reachable flag method oflag_edge oflag_face s0 s1 →
  reachable flag method oflag_edge oflag_face s1 s2 →
  reachable flag method oflag_edge oflag_face s0 s2.
Proof.
  intros H01 H12. induction H12 as [|s s' _ IH Hne Hbody]; [done|].
  by eapply reach_step.
Qed.

(** A run that returns, returns a state of the loop whose heap is empty. *)
Lemma beautify_loop_reachable flag method oflag_edge oflag_face fuel s0 s :
  beautify_loop flag method oflag_edge oflag_face fuel s0 = Finished s →
  reachable flag method oflag_edge oflag_face s0 s ∧
  BLI_heap_is_empty (eheap s) = true.
Proof.
  revert s0. induction fuel as [|fuel IH]; intros s0; simpl.
  - destruct (BLI_heap_is_empty (eheap s0)) eqn:Hemp; [|discriminate].
    intros [= <-]. split; [apply reach_init|done].
  - destruct (BLI_heap_is_empty (eheap s0)) eqn:Hemp.
    { intros [= <-]. split; [apply reach_init|done]. }
    destruct (loop_body flag method oflag_edge oflag_face s0) as [s1|] eqn:Hbody;
      [|discriminate].
    intros Hrun. destruct (IH s1 Hrun) as [Hreach Hend]. split; [|done].
    eapply reachable_trans; [|exact Hreach].
    eapply reach_step; [apply reach_init|done..].
Qed.

(** **** The sets and the array along a run *)

Lemma loop_body_slots flag method oflag_edge oflag_face s s' :
  loop_body flag method oflag_edge oflag_face s = Some s' →
  length (edge_state_arr s') = length (edge_state_arr s) ∧
  length (edge_array s') = length (edge_array s) ∧
  ∀ j, (slot_set s' j = slot_set s j ∧ edge_array s' !! j = edge_array s !! j) ∨
       (∃ cur, slot_set s' j = cur :: slot_set s j).
Proof.
  intros Hbody.
  destruct (loop_body_shape _ _ _ _ _ _ Hbody)
    as (n & k & _ & _ & _ & [[_ ->]|(m' & e' & s1 & _ & Hks & Hka & _ & Hw & ->)]).
  { split; [done|]. split; [done|]. intros j. by left. }
  destruct Hw as (_ & _ & _ & _ & _ & Hea & Hsets). simpl in Hea, Hsets.
  split; [simpl; rewrite Hsets; apply length_insert|].
  split; [simpl; rewrite Hea; apply length_insert|].
  intros j. unfold slot_set. simpl. rewrite Hsets, Hea.
  destruct (decide (j = k)) as [->|Hne].
  - right. rewrite list_lookup_insert_eq by done. eexists. reflexivity.
  - left. by rewrite !list_lookup_insert_ne.
Qed.

(** X16. Along the passes of the loop, from any state on, nothing is ever
    taken out of a set of signatures and the arrays keep their length: the
    set of a slot in a later state ends with the set it was; and a slot
    whose set is what it was, still holds the edge it held. *)
Theorem signature_sets_only_grow flag method oflag_edge oflag_face s0 s :
  reachable flag method oflag_edge oflag_face s0 s →
  length (edge_state_arr s) = length (edge_state_arr s0) ∧
  length (edge_array s) = length (edge_array s0) ∧
  ∀ k, slot_set s0 k `suffix_of` slot_set s k ∧
       (slot_set s k = slot_set s0 k → edge_array s !! k = edge_array s0 !! k).
Proof.
  intros Hreach. induction Hreach as [|s s' _ (IHs & IHa & IH) _ Hbody].
  { split; [done|]. split; [done|]. intros k. split; [reflexivity|done]. }
  destruct (loop_body_slots _ _ _ _ _ _ Hbody) as (Hls & Hla & Hslots).
  split; [congruence|]. split; [congruence|]. intros k.
  destruct (IH k) as [Hsuf Hsame].
  destruct (Hslots k) as [[Hset Harr]|[cur Hset]]; rewrite Hset.
  - split; [done|]. rewrite Harr. exact Hsame.
  - split; [by apply suffix_cons_r|]. intros Heq.
    apply suffix_length in Hsuf. rewrite <- Heq in Hsuf. simpl in Hsuf. lia.
Qed.

Lemma reachable_lengths flag method oflag_edge oflag_face s0 s :
  reachable flag method oflag_edge oflag_face s0 s →
  length (edge_state_arr s) = length (edge_state_arr s0) ∧
  length (edge_array s) = length (edge_array s0).
Proof.
  intros Hreach. induction Hreach as [|s s' _ (IHs & IHa) _ Hbody]; [done|].
  destruct (loop_body_slots _ _ _ _ _ _ Hbody) as (Hls & Hla & _).
  split; congruence.
Qed.

(** **** What the invariant gives a caller *)

(** X9. On a valid input, and with a rotation that meets its contract, the
    mesh and the array are a valid input again in every state of the loop,
    so in the state returned: the mesh is valid, the array has the length it
    had, no edge is in it twice and each of its edges is manifold. *)
Theorem run_keeps_input_valid
    flag method oflag_edge oflag_face m index0 eflags fflags edges s :
  valid_input mesh_ok m edges →
  reachable flag method oflag_edge oflag_face
    (beautify_init flag method m index0 eflags fflags edges) s →
  valid_input mesh_ok (bm s) (edge_array s) ∧
  length (edge_array s) = length edges.
Proof.
  intros Hin Hreach.
  pose proof (reachable_Inv _ _ _ _ _ _ _ _ _ _ Hin Hreach) as HI.
  destruct Hin as (Hok & Hnd & Hman).
  destruct (beautify_init_Inv flag method m index0 eflags fflags edges Hok Hnd Hman)
    as (_ & _ & Hea0 & _).
  destruct (reachable_lengths _ _ _ _ _ _ Hreach) as [_ Hla].
  split; [|by rewrite Hla, Hea0].
  split; [apply (inv_mesh _ _ _ HI)|]. split; [apply (inv_nodup _ _ _ HI)|].
  intros e [k Hk]%list_elem_of_lookup. by apply (inv_index _ _ _ HI k).
Qed.

Lemma length_omap_le {A B} (f : A → option B) (l : list A) :
  (length (omap f l) ≤ length l)%nat.
Proof. induction l as [|a l IH]; [done|]. csimpl. destruct (f a); simpl; lia. Qed.

Lemma heap_size_le_slots pend s :
  Inv mesh_ok pend s →
  (length (heap_nodes (eheap s)) ≤ length (edge_array s))%nat.
Proof.
  intros HI.
  rewrite <- (length_fmap node_id), <- (inv_len_table _ _ _ HI).
  transitivity (length (omap id (eheap_table s))); [|apply length_omap_le].
  apply submseteq_length, NoDup_submseteq; [apply (inv_heap_wf _ _ _ HI)|].
  intros h (n & -> & Hn)%list_elem_of_fmap.
  destruct (inv_heap _ _ _ HI n Hn) as (_ & k & _ & Ht).
  apply list_elem_of_omap. exists (Some (node_id n)).
  split; [by eapply list_elem_of_lookup_2|done].
Qed.

(** X11. In every state of a run on a valid input the table and the heap
    agree: a handle in the table is the handle of a node that is in the
    heap and holds the edge of the slot (no handle outlives its node); every
    node of the heap holds the edge of a slot whose handle it is; no two
    nodes hold the same edge; and the heap has at most as many nodes as the
    array has slots, the size it was made for. *)
Theorem heap_table_coherent
    flag method oflag_edge oflag_face m index0 eflags fflags edges s :
  valid_input mesh_ok m edges →
  reachable flag method oflag_edge oflag_face
    (beautify_init flag method m index0 eflags fflags edges) s →
  (∀ k h, eheap_table s !! k = Some (Some h) →
     ∃ n, n ∈ heap_nodes (eheap s) ∧ node_id n = h ∧
          edge_array s !! k = Some (node_ptr n)) ∧
  (∀ n, n ∈ heap_nodes (eheap s) →
     ∃ k, edge_array s !! k = Some (node_ptr n) ∧
          eheap_table s !! k = Some (Some (node_id n))) ∧
  (∀ n1 n2, n1 ∈ heap_nodes (eheap s) → n2 ∈ heap_nodes (eheap s) →
     node_ptr n1 = node_ptr n2 → n1 = n2) ∧
  length (eheap_table s) = length edges ∧
  (length (heap_nodes (eheap s)) ≤ length edges)%nat.
Proof.
  intros Hin Hreach.
  pose proof (reachable_Inv _ _ _ _ _ _ _ _ _ _ Hin Hreach) as HI.
  assert (length (edge_array s) = length edges) as Hlen.
  { destruct Hin as (Hok & Hnd & Hman).
    destruct (beautify_init_Inv flag method m index0 eflags fflags edges Hok Hnd Hman)
      as (_ & _ & Hea0 & _).
    destruct (reachable_lengths _ _ _ _ _ _ Hreach) as [_ Hla]. by rewrite Hla, Hea0. }
  split; [apply (inv_table _ _ _ HI)|]. split; [|split; [|split]].
  - intros n Hn. by destruct (inv_heap _ _ _ HI n Hn) as (_ & Hk).
  - intros n1 n2 Hn1 Hn2 Hptr.
    destruct (inv_heap _ _ _ HI n1 Hn1) as (_ & k1 & He1 & Ht1).
    destruct (inv_heap _ _ _ HI n2 Hn2) as (_ & k2 & He2 & Ht2).
    rewrite Hptr in He1.
    assert (k1 = k2) as -> by by eapply (Inv_slot_unique _ _ _ _ _ HI).
    eapply heap_wf_inj; [apply (inv_heap_wf _ _ _ HI)|done..|congruence].
  - by rewrite (inv_len_table _ _ _ HI).
  - rewrite <- Hlen. by eapply heap_size_le_slots.
Qed.

(** X19. On a valid input a call that returns has left the loop at its
    head with the heap empty, and then no slot of the table holds a handle:
    nothing is queued that the function did not look at. *)
Theorem beautify_run_returns_loop_state
    flag method oflag_edge oflag_face fuel m index0 eflags fflags edges s :
  valid_input mesh_ok m edges →
  beautify_run flag method oflag_edge oflag_face fuel m index0 eflags fflags edges
    = Finished s →
  reachable flag method oflag_edge oflag_face
    (beautify_init flag method m index0 eflags fflags edges) s ∧
  heap_nodes (eheap s) = [] ∧
  eheap_table s = replicate (length edges) None ∧
  BM_mesh_beautify_fill flag method oflag_edge oflag_face fuel m index0
    eflags fflags edges = Finished (release s).
Proof.
  intros Hin Hrun. unfold BM_mesh_beautify_fill. rewrite Hrun.
  destruct (beautify_loop_reachable _ _ _ _ _ _ _ Hrun) as [Hreach Hemp].
  pose proof (reachable_Inv _ _ _ _ _ _ _ _ _ _ Hin Hreach) as HI.
  assert (heap_nodes (eheap s) = []) as Hnil.
  { unfold BLI_heap_is_empty in Hemp. by destruct (heap_nodes (eheap s)). }
  split; [done|]. split; [done|]. split; [|done].
  symmetry. apply replicate_as_Forall. split.
  - rewrite (inv_len_table _ _ _ HI).
    destruct Hin as (Hok & Hnd & Hman).
    destruct (beautify_init_Inv flag method m index0 eflags fflags edges Hok Hnd Hman)
      as (_ & _ & Hea0 & _).
    destruct (reachable_lengths _ _ _ _ _ _ Hreach) as [_ Hla]. by rewrite Hla, Hea0.
  - apply Forall_lookup. intros k [h|] Hk; [|done].
    destruct (inv_table _ _ _ HI k h Hk) as (n & Hn & _).
    rewrite Hnil in Hn. by apply elem_of_nil in Hn.
Qed.

(** **** The cost a node holds *)

(** X15. In every state of a run on a valid input the cost that a node of
    the heap holds is the cost of its edge in the mesh as it is now, and
    it is negative: the heap holds no stale cost, and the edge that is
    popped and rotated improves the mesh at the moment it is rotated. *)
Theorem queued_costs_are_current
    flag method oflag_edge oflag_face m index0 eflags fflags edges s n :
  valid_input mesh_ok m edges →
  reachable flag method oflag_edge oflag_face
    (beautify_init flag method m index0 eflags fflags edges) s →
  n ∈ heap_nodes (eheap s) →
  node_value n = bm_edge_calc_rotate_beauty (bm s) (node_ptr n) flag method ∧
  flt (bm_edge_calc_rotate_beauty (bm s) (node_ptr n) flag method) fzero = true.
Proof.
  intros Hin Hreach Hn.
  pose proof (reachable_Inv _ _ _ _ _ _ _ _ _ _ Hin Hreach) as HI.
  pose proof (reachable_CostInv _ _ _ _ _ _ _ _ _ _ Hin Hreach n Hn) as Hcost.
  destruct (inv_heap _ _ _ HI n Hn) as (Hneg & _).
  rewrite Hcost in Hneg |- * by apply not_elem_of_nil. done.
Qed.

Lemma reachable_negative
    flag method oflag_edge oflag_face m index0 eflags fflags edges s :
  reachable flag method oflag_edge oflag_face
    (beautify_init flag method m index0 eflags fflags edges) s →
  heap_negative s.
Proof.
  intros Hreach. induction Hreach as [|s s' _ IH _ Hbody].
  - unfold beautify_init, heap_negative. simpl.
    apply build_heap_negative. intros n Hn. by apply elem_of_nil in Hn.
  - by eapply loop_body_negative.
Qed.

(** X5. [cost < 0.0f] lets through the negative numbers and minus infinity
    only: not a NaN, not a zero of either sign.  So in every state of a run,
    on any input, every cost in the heap is such a float, and any two costs
    in the heap compare: one is below the other, or they are equal. *)
Theorem heap_costs_compare
    flag method oflag_edge oflag_face m index0 eflags fflags edges s :
  reachable flag method oflag_edge oflag_face
    (beautify_init flag method m index0 eflags fflags edges) s →
  (∀ x : float, flt x fzero = true ↔ is_negative x) ∧
  (∀ n, n ∈ heap_nodes (eheap s) → is_negative (node_value n)) ∧
  (∀ n1 n2, n1 ∈ heap_nodes (eheap s) → n2 ∈ heap_nodes (eheap s) →
     flt (node_value n1) (node_value n2) = true ∨
     feq (node_value n1) (node_value n2) = true ∨
     flt (node_value n2) (node_value n1) = true).
Proof.
  intros Hreach. pose proof (reachable_negative _ _ _ _ _ _ _ _ _ _ Hreach) as Hneg.
  split; [exact flt_zero_negative|].
  assert (∀ n, n ∈ heap_nodes (eheap s) → is_negative (node_value n)) as Hall.
  { intros n Hn. apply flt_zero_negative. by apply Hneg. }
  split; [exact Hall|].
  intros n1 n2 Hn1 Hn2. apply negative_comparable; by apply Hall.
Qed.

(** **** Counting passes, rotations and flags *)

Lemma rotations_recorded_init flag method m index0 eflags fflags edges :
  rotations_recorded (beautify_init flag method m index0 eflags fflags edges) = 0%nat.
Proof.
  assert (∀ (s : St) i es, edge_state_arr (build_heap flag method i es s)
                           = edge_state_arr s) as Hsets.
  { intros s i es. revert i s. induction es as [|e es IH]; intros i s; simpl; [done|].
    rewrite IH. by destruct (build_heap_at_world flag method i e s) as (_ & _ & -> & _). }
  unfold rotations_recorded, beautify_init. simpl. rewrite Hsets. simpl.
  induction (length edges); simpl; done.
Qed.

(** What a pass does to the mesh, the indices, the flags and the count of
    the rotations. *)
Lemma loop_body_summary flag method oflag_edge oflag_face s s' :
  Inv mesh_ok [] s →
  loop_body flag method oflag_edge oflag_face s = Some s' →
  elem_index_dirty s' = elem_index_dirty s ∧
  ∃ n k, heap_top (heap_nodes (eheap s)) = Some n ∧
    edge_array s !! k = Some (node_ptr n) ∧
    ((BM_edge_rotate (bm s) (node_ptr n) = None ∧
      bm s' = bm s ∧ e_index s' = e_index s ∧
      edge_oflags s' = edge_oflags s ∧ face_oflags s' = face_oflags s ∧
      rotations_recorded s' = rotations_recorded s) ∨
     ∃ m' e', BM_edge_rotate (bm s) (node_ptr n) = Some (m', e') ∧
       bm s' = m' ∧ e_index s' = <[e' := Z.of_nat k]> (e_index s) ∧
       edge_oflags s' = (if bool_decide (oflag_edge ≠ 0)
                         then (e', oflag_edge) :: edge_oflags s
                         else edge_oflags s) ∧
       face_oflags s' = (if bool_decide (oflag_face ≠ 0)
                         then (l_f m' (l_radial_next m' (e_l m' e')), oflag_face)
                              :: (l_f m' (e_l m' e'), oflag_face) :: face_oflags s
                         else face_oflags s) ∧
       rotations_recorded s' = S (rotations_recorded s)).
Proof.
  intros HI Hbody.
  destruct (loop_body_cases _ _ _ _ _ _ HI Hbody)
    as (n & k & Htop & He & Hidx & Ht & _ & Hcase).
  assert (k < length (edge_state_arr s))%nat as Hk.
  { rewrite (inv_len_sets _ _ _ HI). by eapply lookup_lt_Some. }
  destruct Hcase as [[Hr ->]|(m' & e' & s1 & Hr & _ & Hw & _ & ->)].
  - split; [done|]. exists n, k. split; [done|]. split; [done|]. left. done.
  - destruct Hw as (Hbm & Hix & Hd & Heo & Hfo & _ & Hsets).
    simpl in Hbm, Hix, Hd, Heo, Hfo, Hsets.
    split; [done|]. exists n, k. split; [done|]. split; [done|]. right.
    exists m', e'. split; [done|]. simpl. rewrite Hbm, Hix, Heo, Hfo.
    repeat (split; [done|]).
    unfold rotations_recorded. simpl. rewrite Hsets.
    by apply (rotations_recorded_rotated (popped s n k) k m' e').
Qed.

Lemma update_single_heap_length flag method e s s' :
  bm_edge_update_beauty_cost_single flag method e s = Some s' →
  (length (heap_nodes (eheap s')) ≤ S (length (heap_nodes (eheap s))))%nat.
Proof.
  intros [[_ ->]|(k & o & node & _ & _ & _ & _ & ->)]%update_single_inv; [lia|].
  assert (length (heap_nodes (eheap (unqueued s k node)))
          ≤ length (heap_nodes (eheap s)))%nat as Hun.
  { destruct node; simpl; [apply length_filter|done]. }
  unfold requeued.
  destruct (match o with
            | Some gs => BLI_gset_haskey gs (erot_state_alternate (bm s) e)
            | None => false
            end); [lia|].
  destruct (flt (bm_edge_calc_rotate_beauty (bm s) e flag method) fzero); simpl.
  - rewrite length_app. simpl. lia.
  - lia.
Qed.

Lemma update_each_heap_length flag method es s s' :
  update_each flag method es s = Some s' →
  (length (heap_nodes (eheap s')) ≤ length es + length (heap_nodes (eheap s)))%nat.
Proof.
  revert s. induction es as [|e es IH]; intros s; simpl.
  - by intros [= <-].
  - destruct (bm_edge_update_beauty_cost_single flag method e s) as [s1|] eqn:Hup;
      [|discriminate].
    simpl. intros Hrest. apply IH in Hrest.
    apply update_single_heap_length in Hup. lia.
Qed.

(** A pass takes a node off the heap; if it executes a rotation, it adds
    at most four. *)
Lemma loop_body_heap_length flag method oflag_edge oflag_face s s' :
  Inv mesh_ok [] s →
  loop_body flag method oflag_edge oflag_face s = Some s' →
  (rotations_recorded s' = rotations_recorded s ∧
   length (heap_nodes (eheap s')) < length (heap_nodes (eheap s)))%nat ∨
  (rotations_recorded s' = S (rotations_recorded s) ∧
   length (heap_nodes (eheap s')) < 4 + length (heap_nodes (eheap s)))%nat.
Proof.
  intros HI Hbody.
  destruct (loop_body_summary _ _ _ _ _ _ HI Hbody)
    as (_ & n1 & k1 & Htop1 & _ & Hsum).
  destruct (loop_body_cases _ _ _ _ _ _ HI Hbody)
    as (n & k & Htop & _ & _ & _ & _ & Hcase).
  rewrite Htop in Htop1. injection Htop1 as <-.
  pose proof (heap_remove_length (eheap s) n (heap_top_elem _ _ Htop)) as Hpop.
  destruct Hcase as [[Hr Hs']|(m' & e' & s1 & Hr & Hup & _ & _ & Hs')];
    destruct Hsum as [(Hr' & _ & _ & _ & _ & Hrec)
                     |(m'' & e'' & Hr' & _ & _ & _ & _ & Hrec)];
    try congruence.
  - left. split; [exact Hrec|]. rewrite Hs'. exact Hpop.
  - right. split; [exact Hrec|]. rewrite Hs'.
    apply update_each_heap_length in Hup. simpl in Hup, Hpop |- *. lia.
Qed.

Lemma beautify_loop_within flag method oflag_edge oflag_face N s :
  Inv mesh_ok [] s →
  (4 * (length (edge_state_arr s) * length sig_universe - rotations_recorded s)
   + length (heap_nodes (eheap s)) ≤ N)%nat →
  ∃ s', beautify_loop flag method oflag_edge oflag_face N s = Finished s'.
Proof.
  revert s. induction N as [|N IH]; intros s HI Hmu; simpl;
    destruct (BLI_heap_is_empty (eheap s)) eqn:Hemp; try by eexists.
  - apply BLI_heap_is_empty_false in Hemp.
    apply Nat.le_0_r, Nat.eq_add_0 in Hmu as [_ Hmu].
    by destruct (heap_nodes (eheap s)).
  - destruct (loop_body_progress flag method oflag_edge oflag_face s HI Hemp)
      as (s1 & Hbody & HI1 & Hlen & _).
    rewrite Hbody. apply IH; [done|].
    pose proof (rotations_recorded_bound _ _ HI1) as Hb1.
    rewrite Hlen in *.
    remember (length (edge_state_arr s) * length sig_universe)%nat as C.
    destruct (loop_body_heap_length _ _ _ _ _ _ HI Hbody) as [[Hrec Hh]|[Hrec Hh]];
      rewrite Hrec in *; lia.
Qed.

(** X12. On a valid input the loop is left after at most
    [4 * slots * signatures + slots] passes, refused rotations counted:
    with that much fuel, or more, the call returns.  Every pass pops a
    node; the heap starts with at most [slots] nodes, and each of the at
    most [slots * signatures] executed rotations queues at most the four
    edges around the new edge. *)
Theorem beautify_within_pass_bound
    flag method oflag_edge oflag_face m index0 eflags fflags edges :
  valid_input mesh_ok m edges →
  ∃ s, ∀ fuel, (pass_bound (length edges) (length sig_universe) ≤ fuel)%nat →
    beautify_run flag method oflag_edge oflag_face fuel m index0 eflags fflags edges
      = Finished s ∧
    BM_mesh_beautify_fill flag method oflag_edge oflag_face fuel m index0
      eflags fflags edges = Finished (release s).
Proof.
  intros (Hok & Hnd & Hman).
  destruct (beautify_init_Inv flag method m index0 eflags fflags edges Hok Hnd Hman)
    as (HI0 & _ & Hea0 & Hsets0 & _).
  destruct (beautify_loop_within flag method oflag_edge oflag_face
              (pass_bound (length edges) (length sig_universe))
              (beautify_init flag method m index0 eflags fflags edges) HI0)
    as (s & Hrun).
  { pose proof (heap_size_le_slots _ _ HI0) as Hh.
    rewrite rotations_recorded_init, Hsets0, Hea0, length_replicate in *.
    unfold pass_bound. lia. }
  exists s. intros fuel Hfuel.
  assert (beautify_run flag method oflag_edge oflag_face fuel m index0
            eflags fflags edges = Finished s) as Hrun'.
  { unfold beautify_run. by eapply beautify_loop_more_fuel. }
  split; [done|]. unfold BM_mesh_beautify_fill. by rewrite Hrun'.
Qed.

(** X13. The flags of the caller are set once for every executed rotation,
    on the new edge and on its two faces, and at no other moment: with
    [oflag_edge] 0 no edge flag is written, otherwise the run has added as
    many edge flags as it has recorded rotations, each with the value
    [oflag_edge]; with [oflag_face] 0 no face flag is written, otherwise
    two for every rotation.  No flag the caller had set is taken away. *)
Theorem flags_follow_rotations
    flag method oflag_edge oflag_face m index0 eflags fflags edges s :
  valid_input mesh_ok m edges →
  reachable flag method oflag_edge oflag_face
    (beautify_init flag method m index0 eflags fflags edges) s →
  ∃ es fs, edge_oflags s = es ++ eflags ∧ face_oflags s = fs ++ fflags ∧
    length es = (if bool_decide (oflag_edge ≠ 0)
                 then rotations_recorded s else 0%nat) ∧
    length fs = (if bool_decide (oflag_face ≠ 0)
                 then (2 * rotations_recorded s)%nat else 0%nat) ∧
    (∀ p, p ∈ es → p.2 = oflag_edge) ∧ (∀ p, p ∈ fs → p.2 = oflag_face).
Proof.
  intros Hin Hreach. induction Hreach as [|s s' Hreach IH Hne Hbody].
  - destruct Hin as (Hok & Hnd & Hman).
    destruct (beautify_init_Inv flag method m index0 eflags fflags edges Hok Hnd Hman)
      as (_ & _ & _ & _ & Heo & Hfo).
    exists [], []. rewrite rotations_recorded_init. simpl.
    split; [done|]. split; [done|].
    split; [by destruct (bool_decide _)|]. split; [by destruct (bool_decide _)|].
    split; intros p Hp; by apply elem_of_nil in Hp.
  - pose proof (reachable_Inv _ _ _ _ _ _ _ _ _ _ Hin Hreach) as HI.
    destruct IH as (es & fs & Hes & Hfs & Hle & Hlf & Hve & Hvf).
    destruct (loop_body_summary _ _ _ _ _ _ HI Hbody)
      as (_ & n & k & _ & _ &
          [(_ & _ & _ & Heo & Hfo & Hrec)|(m' & e' & _ & _ & _ & Heo & Hfo & Hrec)]).
    { exists es, fs. rewrite Heo, Hfo, Hrec. done. }
    exists (if bool_decide (oflag_edge ≠ 0) then (e', oflag_edge) :: es else es),
           (if bool_decide (oflag_face ≠ 0)
            then (l_f m' (l_radial_next m' (e_l m' e')), oflag_face)
                 :: (l_f m' (e_l m' e'), oflag_face) :: fs
            else fs).
    rewrite Heo, Hfo, Hrec, Hes, Hfs.
    destruct (bool_decide (oflag_edge ≠ 0)), (bool_decide (oflag_face ≠ 0));
      simpl; repeat split; try done; try lia;
      intros p Hp; repeat (apply elem_of_cons in Hp as [->|Hp]; [done|]); auto.
Qed.

(** X14. The mesh is changed by executed rotations and by nothing else: in
    every state of a run on a valid input the mesh is what as many executed
    rotations as the sets record have made of the mesh given, each one the
    rotation of a manifold edge whose cost, in the mesh of that moment, was
    negative. *)
Theorem mesh_changes_by_improving_rotations
    flag method oflag_edge oflag_face m index0 eflags fflags edges s :
  valid_input mesh_ok m edges →
  reachable flag method oflag_edge oflag_face
    (beautify_init flag method m index0 eflags fflags edges) s →
  rotation_chain flag method (rotations_recorded s) m (bm s).
Proof.
  intros Hin Hreach. induction Hreach as [|s s' Hreach IH Hne Hbody].
  - destruct Hin as (Hok & Hnd & Hman).
    destruct (beautify_init_Inv flag method m index0 eflags fflags edges Hok Hnd Hman)
      as (_ & -> & _).
    rewrite rotations_recorded_init. constructor.
  - pose proof (reachable_Inv _ _ _ _ _ _ _ _ _ _ Hin Hreach) as HI.
    pose proof (reachable_CostInv _ _ _ _ _ _ _ _ _ _ Hin Hreach) as HC.
    destruct (loop_body_summary _ _ _ _ _ _ HI Hbody)
      as (_ & n & k & Htop & He &
          [(_ & Hbm & _ & _ & _ & Hrec)|(m' & e' & Hr & Hbm & _ & _ & _ & Hrec)]).
    { by rewrite Hbm, Hrec. }
    rewrite Hbm, Hrec. apply heap_top_elem in Htop.
    destruct (inv_heap _ _ _ HI n Htop) as (Hneg & _).
    rewrite (HC n Htop) in Hneg by apply not_elem_of_nil.
    eapply chain_step; [exact IH| |exact Hneg|exact Hr].
    by apply (inv_index _ _ _ HI k).
Qed.

Lemma update_each_nodes flag method es s s' n :
  update_each flag method es s = Some s' → n ∈ heap_nodes (eheap s') →
  n ∈ heap_nodes (eheap s) ∨ node_ptr n ∈ es.
Proof.
  revert s. induction es as [|e es IH]; intros s; simpl.
  - intros [= <-]. by left.
  - destruct (bm_edge_update_beauty_cost_single flag method e s) as [s1|] eqn:Hup;
      [|discriminate].
    simpl. intros Hrest Hn. destruct (IH s1 Hrest Hn) as [Hn1|Hn1]; [|right; by right].
    apply (update_single_nodes _ _ _ _ _ _ Hup) in Hn1 as [Hn1|[-> _]]; [by left|].
    right. by left.
Qed.

(** X17. A node enters the heap in the loop only for one of the four edges
    around an edge that was just rotated: in a run on a valid input, a node
    that is in the heap after a pass and was not before belongs to a pass
    whose rotation was executed, and holds an edge of the array that is one
    of the edges around the new edge.  A pass whose rotation is refused
    queues nothing, and an edge that is neither rotated nor beside a rotated
    one is never looked at again. *)
Theorem only_neighbours_are_queued
    flag method oflag_edge oflag_face m index0 eflags fflags edges s s' n' :
  valid_input mesh_ok m edges →
  reachable flag method oflag_edge oflag_face
    (beautify_init flag method m index0 eflags fflags edges) s →
  loop_body flag method oflag_edge oflag_face s = Some s' →
  n' ∈ heap_nodes (eheap s') → n' ∉ heap_nodes (eheap s) →
  ∃ n m' e', heap_top (heap_nodes (eheap s)) = Some n ∧
    BM_edge_rotate (bm s) (node_ptr n) = Some (m', e') ∧ bm s' = m' ∧
    node_ptr n' ∈ e_arr m' e' ∧ node_ptr n' ∈ edge_array s'.
Proof.
  intros Hin Hreach Hbody Hn' Hnew.
  pose proof (reachable_Inv _ _ _ _ _ _ _ _ _ _ Hin Hreach) as HI.
  destruct (loop_body_cases _ _ _ _ _ _ HI Hbody)
    as (n & k & Htop & _ & _ & _ & _ &
        [[_ ->]|(m' & e' & s1 & Hr & Hup & Hw & HI1 & ->)]).
  { exfalso. apply Hnew.
    by apply (elem_of_heap_remove (eheap s)) in Hn' as [Hn' _]. }
  exists n, m', e'. split; [done|]. split; [done|].
  destruct Hw as (Hbm & _). simpl in Hbm, Hn' |- *. split; [done|].
  destruct (update_each_nodes _ _ _ _ _ _ Hup Hn') as [Hold|Harr].
  { exfalso. apply Hnew. simpl in Hold.
    by apply (elem_of_heap_remove (eheap s)) in Hold as [Hold _]. }
  split; [done|].
  destruct (inv_heap _ _ _ HI1 n' Hn') as (_ & j & Hj & _).
  by eapply list_elem_of_lookup_2.
Qed.

(** **** The heap as it is built *)

Lemma build_heap_frame flag method es i s :
  let s' := build_heap flag method i es s in
  bm s' = bm s ∧ elem_index_dirty s' = elem_index_dirty s ∧
  edge_array s' = edge_array s ∧ edge_state_arr s' = edge_state_arr s ∧
  edge_oflags s' = edge_oflags s ∧ face_oflags s' = face_oflags s.
Proof.
  revert i s. induction es as [|e es IH]; intros i s; simpl; [done|].
  destruct (IH (S i) (build_heap_at flag method i e s))
    as (-> & -> & -> & -> & -> & ->).
  destruct (build_heap_at_world flag method i e s) as (-> & -> & -> & -> & ->).
  repeat split. unfold build_heap_at.
  by destruct (flt (bm_edge_calc_rotate_beauty (bm s) e flag method) fzero).
Qed.

Lemma build_heap_ptrs flag method es i s :
  node_ptr <$> heap_nodes (eheap (build_heap flag method i es s))
  = (node_ptr <$> heap_nodes (eheap s))
    ++ filter (λ e, flt (bm_edge_calc_rotate_beauty (bm s) e flag method) fzero = true) es.
Proof.
  revert i s. induction es as [|e es IH]; intros i s; simpl.
  { by rewrite filter_nil, app_nil_r. }
  rewrite IH, filter_cons.
  destruct (build_heap_at_world flag method i e s) as (-> & _).
  destruct (decide (flt (bm_edge_calc_rotate_beauty (bm s) e flag method) fzero = true))
    as [Hcost|Hcost]; unfold build_heap_at.
  - rewrite Hcost. simpl. rewrite fmap_app. simpl. by rewrite <- app_assoc.
  - apply not_true_is_false in Hcost. rewrite Hcost. done.
Qed.

Lemma build_heap_table flag method es i s :
  let s' := build_heap flag method i es s in
  length (eheap_table s') = length (eheap_table s) ∧
  (∀ j, (j < i)%nat → eheap_table s' !! j = eheap_table s !! j) ∧
  (∀ j e, es !! j = Some e → (i + j < length (eheap_table s))%nat →
     ∃ o, eheap_table s' !! (i + j)%nat = Some o ∧
          (is_Some o ↔ flt (bm_edge_calc_rotate_beauty (bm s) e flag method) fzero
                        = true)).
Proof.
  revert i s. induction es as [|e es IH]; intros i s; simpl.
  { split; [done|]. split; [done|]. intros j e Hj. done. }
  destruct (IH (S i) (build_heap_at flag method i e s)) as (Hlen & Hlow & Hat).
  destruct (build_heap_at_world flag method i e s) as (Hbm & _).
  assert (eheap_table (build_heap_at flag method i e s)
          = <[i := if flt (bm_edge_calc_rotate_beauty (bm s) e flag method) fzero
                   then Some (heap_next (eheap s)) else None]> (eheap_table s)) as Ht.
  { unfold build_heap_at.
    by destruct (flt (bm_edge_calc_rotate_beauty (bm s) e flag method) fzero). }
  rewrite Ht, length_insert in Hlen. split; [done|]. split.
  - intros j Hj. rewrite Hlow by lia. rewrite Ht.
    apply list_lookup_insert_ne. lia.
  - intros [|j] x Hx Hj; simpl in Hx.
    + injection Hx as <-. rewrite Nat.add_0_r in Hj |- *.
      rewrite Hlow by lia. rewrite Ht, list_lookup_insert_eq by done.
      eexists. split; [done|].
      destruct (flt (bm_edge_calc_rotate_beauty (bm s) e flag method) fzero);
        split; first [done|by intros [? ?]].
    + replace (i + S j)%nat with (S i + j)%nat in Hj |- * by lia.
      rewrite <- Hbm. apply Hat; [done|]. by rewrite Ht, length_insert.
Qed.

Lemma build_heap_index flag method es i s :
  let s' := build_heap flag method i es s in
  (∀ e, e ∉ es → e_index s' e = e_index s e) ∧
  (∀ j e, es !! j = Some e → (∀ j', (j < j')%nat → es !! j' ≠ Some e) →
     e_index s' e = Z.of_nat (i + j)).
Proof.
  revert i s. induction es as [|e es IH]; intros i s; simpl.
  { split; [done|]. intros j e Hj. done. }
  destruct (IH (S i) (build_heap_at flag method i e s)) as (Hout & Hlast).
  assert (e_index (build_heap_at flag method i e s) = <[e := Z.of_nat i]> (e_index s))
    as Hix.
  { unfold build_heap_at.
    by destruct (flt (bm_edge_calc_rotate_beauty (bm s) e flag method) fzero). }
  split.
  - intros x Hx. apply not_elem_of_cons in Hx as [Hne Hx].
    rewrite Hout, Hix by done. by apply fn_lookup_insert_ne.
  - intros [|j] x Hx Hlater; simpl in Hx.
    + injection Hx as <-. rewrite Nat.add_0_r, Hout, Hix.
      * apply fn_lookup_insert.
      * intros [j Hj]%list_elem_of_lookup. apply (Hlater (S j)); [lia|done].
    + replace (i + S j)%nat with (S i + j)%nat by lia. apply Hlast; [done|].
      intros j' Hj'. apply (Hlater (S j')). lia.
Qed.

(** X7. What the loop that builds the heap leaves, for any mesh and any
    array: the heap holds the edges of the array whose cost in the mesh is
    negative, one node for each place such an edge has in the array, each
    with that cost; a slot of the table holds a handle exactly when the cost
    of its edge is negative; no set is made; the mesh, the array and the
    flags are untouched; the edge indices are marked dirty, an edge of the
    array has the index of the last slot that holds it, and the other edges
    keep the index they had. *)
Theorem heap_is_seeded_with_improving_edges
    flag method m index0 eflags fflags edges :
  let s := beautify_init flag method m index0 eflags fflags edges in
  let improving e := flt (bm_edge_calc_rotate_beauty m e flag method) fzero = true in
  node_ptr <$> heap_nodes (eheap s) = filter improving edges ∧
  (∀ n, n ∈ heap_nodes (eheap s) →
     node_value n = bm_edge_calc_rotate_beauty m (node_ptr n) flag method) ∧
  (∀ k e, edges !! k = Some e →
     ∃ o, eheap_table s !! k = Some o ∧ (is_Some o ↔ improving e)) ∧
  length (eheap_table s) = length edges ∧
  edge_state_arr s = replicate (length edges) None ∧
  bm s = m ∧ edge_array s = edges ∧
  edge_oflags s = eflags ∧ face_oflags s = fflags ∧
  elem_index_dirty s = true ∧
  (∀ e, e ∉ edges → e_index s e = index0 e) ∧
  (∀ k e, edges !! k = Some e → (∀ j, (k < j)%nat → edges !! j ≠ Some e) →
     e_index s e = Z.of_nat k).
Proof.
  simpl. unfold beautify_init. simpl.
  set (s0 := mkState m index0 false eflags fflags edges
               (BLI_heap_new_ex (Z.of_nat (length edges)))
               (replicate (length edges) None) (replicate (length edges) None)).
  pose proof (build_heap_ptrs flag method edges 0 s0) as Hptrs.
  destruct (build_heap_table flag method edges 0 s0) as (Hlen & _ & Hat).
  destruct (build_heap_index flag method edges 0 s0) as (Hout & Hlast).
  destruct (build_heap_frame flag method edges 0 s0)
    as (Hbm & Hd & Hea & Hsets & Heo & Hfo).
  split; [exact Hptrs|]. split.
  { intros n Hn.
    assert (CostInv flag method [] s0) as HC0.
    { intros x Hx. by apply elem_of_nil in Hx. }
    pose proof (build_heap_CostInv flag method edges 0 s0 HC0 n Hn
                  (not_elem_of_nil _)) as Hc.
    rewrite Hbm in Hc. exact Hc. }
  split.
  { intros k e He. apply (Hat k e He). simpl. rewrite length_replicate.
    by eapply lookup_lt_Some. }
  split; [by rewrite Hlen; simpl; rewrite length_replicate|].
  repeat (split; [done|]). intros k e He Hl. exact (Hlast k e He Hl).
Qed.

Lemma heap_is_seeded_table flag method m index0 eflags fflags edges :
  let s := beautify_init flag method m index0 eflags fflags edges in
  bm s = m ∧ edge_array s = edges ∧
  ∀ k e, edges !! k = Some e →
    ∃ o, eheap_table s !! k = Some o ∧
         (is_Some o ↔ flt (bm_edge_calc_rotate_beauty m e flag method) fzero = true).
Proof.
  simpl. unfold beautify_init. simpl.
  set (s0 := mkState m index0 false eflags fflags edges
               (BLI_heap_new_ex (Z.of_nat (length edges)))
               (replicate (length edges) None) (replicate (length edges) None)).
  destruct (build_heap_table flag method edges 0 s0) as (_ & _ & Hat).
  destruct (build_heap_frame flag method edges 0 s0) as (Hbm & _ & Hea & _).
  split; [done|]. split; [done|].
  intros k e He. apply (Hat k e He). simpl. rewrite length_replicate.
  by eapply lookup_lt_Some.
Qed.

(** X8. When no edge of the array has a negative cost, and so for an empty
    array, the call returns at once, with any fuel and for any mesh, valid
    or not: nothing is queued, no rotation is asked for, the mesh, the
    array and the flags are what they were; only the edge indices are
    written and marked dirty. *)
Theorem beautify_nothing_to_improve
    flag method oflag_edge oflag_face fuel m index0 eflags fflags edges :
  (∀ e, e ∈ edges →
        flt (bm_edge_calc_rotate_beauty m e flag method) fzero = false) →
  ∃ s, BM_mesh_beautify_fill flag method oflag_edge oflag_face fuel m index0
         eflags fflags edges = Finished s ∧
       bm s = m ∧ edge_array s = edges ∧
       edge_oflags s = eflags ∧ face_oflags s = fflags ∧
       elem_index_dirty s = true ∧
       (∀ e, e ∉ edges → e_index s e = index0 e) ∧
       heap_nodes (eheap s) = [] ∧ eheap_table s = [] ∧ edge_state_arr s = [].
Proof.
  intros Hno.
  set (s0 := mkState m index0 false eflags fflags edges
               (BLI_heap_new_ex (Z.of_nat (length edges)))
               (replicate (length edges) None) (replicate (length edges) None)).
  pose proof (build_heap_ptrs flag method edges 0 s0) as Hptrs.
  destruct (build_heap_index flag method edges 0 s0) as (Hout & _).
  destruct (build_heap_frame flag method edges 0 s0)
    as (Hbm & Hd & Hea & Hsets & Heo & Hfo).
  assert (heap_nodes (eheap (build_heap flag method 0 edges s0)) = []) as Hnil.
  { apply (fmap_nil_inv node_ptr). rewrite Hptrs. simpl.
    apply elem_of_nil_inv. intros e [Hc He]%list_elem_of_filter.
    rewrite (Hno e He) in Hc. discriminate. }
  assert (beautify_run flag method oflag_edge oflag_face fuel m index0
            eflags fflags edges
          = Finished (beautify_init flag method m index0 eflags fflags edges)) as Hrun.
  { unfold beautify_run.
    assert (BLI_heap_is_empty
              (eheap (beautify_init flag method m index0 eflags fflags edges)) = true)
      as Hemp.
    { unfold BLI_heap_is_empty, beautify_init. simpl. fold s0. by rewrite Hnil. }
    revert Hemp. generalize (beautify_init flag method m index0 eflags fflags edges).
    intros s Hemp. destruct fuel; simpl; by rewrite Hemp. }
  unfold BM_mesh_beautify_fill. rewrite Hrun. eexists. split; [reflexivity|].
  unfold release, beautify_init. simpl. fold s0. done.
Qed.


(** **** The indices of the edges *)

Lemma Inv_edge_in_array pend s e :
  Inv mesh_ok pend s → edge_in_array e s = true ↔ e ∈ edge_array s.
Proof.
  intros HI. rewrite edge_in_array_true. split.
  - intros (k & _ & Hk). by eapply list_elem_of_lookup_2.
  - intros [k Hk]%list_elem_of_lookup. exists k. split; [|done].
    by apply (inv_index _ _ _ HI).
Qed.

(** X10. In every state of a run on a valid input the edge indices are
    marked dirty, the index of the edge of a slot is the number of the
    slot, so that [edge_in_array] holds of the edges of the array and of
    no other edge, and any edge, in the array or not, has either the index
    it had when the function was called or the number of a slot: nothing
    else is ever written to an index. *)
Theorem edge_indices_are_slots
    flag method oflag_edge oflag_face m index0 eflags fflags edges s :
  valid_input mesh_ok m edges →
  reachable flag method oflag_edge oflag_face
    (beautify_init flag method m index0 eflags fflags edges) s →
  elem_index_dirty s = true ∧
  (∀ k e, edge_array s !! k = Some e → e_index s e = Z.of_nat k) ∧
  (∀ e, edge_in_array e s = true ↔ e ∈ edge_array s) ∧
  (∀ e, e_index s e = index0 e ∨ 0 <= e_index s e < Z.of_nat (length edges)).
Proof.
  intros Hin Hreach.
  pose proof (reachable_Inv _ _ _ _ _ _ _ _ _ _ Hin Hreach) as HI.
  assert (elem_index_dirty s = true ∧
          ∀ e, e_index s e = index0 e ∨ 0 <= e_index s e < Z.of_nat (length edges))
    as [Hd Hix].
  { clear HI. induction Hreach as [|s s' Hreach IH Hne Hbody].
    - split; [done|]. intros e.
      pose proof (reach_init flag method oflag_edge oflag_face
                    (beautify_init flag method m index0 eflags fflags edges)) as H0.
      pose proof (reachable_Inv _ _ _ _ _ _ _ _ _ _ Hin H0) as HI0.
      destruct Hin as (Hok & Hnd & Hman).
      destruct (beautify_init_Inv flag method m index0 eflags fflags edges
                  Hok Hnd Hman) as (_ & _ & Hea0 & _).
      destruct (decide (e ∈ edges)) as [[k Hk]%list_elem_of_lookup|Hout].
      + right. rewrite <- Hea0 in Hk.
        destruct (inv_index _ _ _ HI0 k e Hk) as [-> _].
        apply lookup_lt_Some in Hk. rewrite Hea0 in Hk. lia.
      + left. unfold beautify_init. simpl.
        by apply (build_heap_index flag method edges 0).
    - pose proof (reachable_Inv _ _ _ _ _ _ _ _ _ _ Hin Hreach) as HI.
      destruct IH as [IHd IHix].
      destruct (loop_body_summary _ _ _ _ _ _ HI Hbody)
        as (Hd & n & k & _ & He &
            [(_ & _ & Hidx & _)|(m' & e' & _ & _ & Hidx & _)]).
      { rewrite Hd, Hidx. done. }
      rewrite Hd. split; [done|]. intros e. rewrite Hidx.
      destruct (decide (e = e')) as [->|Hne'].
      + right. rewrite fn_lookup_insert. apply lookup_lt_Some in He.
        destruct (reachable_lengths _ _ _ _ _ _ Hreach) as [_ Hla].
        destruct Hin as (Hok & Hnd & Hman).
        destruct (beautify_init_Inv flag method m index0 eflags fflags edges
                    Hok Hnd Hman) as (_ & _ & Hea0 & _).
        rewrite Hla, Hea0 in He. lia.
      + rewrite fn_lookup_insert_ne by done. apply IHix. }
  split; [done|]. split; [|split; [|done]].
  - intros k e He. by apply (inv_index _ _ _ HI).
  - intros e. by apply (Inv_edge_in_array []).
Qed.

Lemma same_but_index_refl s : same_but_index s s.
Proof. by repeat split. Qed.

Lemma build_heap_same_but_index flag method es i s t :
  same_but_index s t →
  same_but_index (build_heap flag method i es s) (build_heap flag method i es t).
Proof.
  revert i s t. induction es as [|e es IH]; intros i s t Hst; simpl; [done|].
  apply IH. destruct s, t. destruct Hst as (?&?&?&?&?&?&?&?). simpl in *. subst.
  unfold build_heap_at. simpl.
  destruct (flt _ fzero); by repeat split.
Qed.

Lemma requeued_same_but_index flag method e s t k o node :
  same_but_index s t →
  same_but_index (requeued flag method e s k o node)
                 (requeued flag method e t k o node).
Proof.
  intros Hst. destruct s, t. destruct Hst as (?&?&?&?&?&?&?&?). simpl in *. subst.
  unfold requeued, unqueued. simpl.
  destruct (match o with
            | Some gs => BLI_gset_haskey gs _
            | None => false
            end); [by destruct node; repeat split|].
  destruct (flt _ fzero); destruct node; by repeat split.
Qed.

Lemma update_single_same_but_index flag method pend e s t s' t' :
  Inv mesh_ok pend s → Inv mesh_ok pend t → same_but_index s t →
  bm_edge_update_beauty_cost_single flag method e s = Some s' →
  bm_edge_update_beauty_cost_single flag method e t = Some t' →
  same_but_index s' t'.
Proof.
  intros HIs HIt Hst Hs Ht.
  pose proof Hst as (_ & _ & _ & _ & Hea & _ & Htab & Hsets).
  apply update_single_inv in Hs as [[Hin ->]|(k & o & node & Hk & He & Ho & Hn & ->)].
  - apply update_single_inv in Ht as [[_ ->]|(k & _ & _ & _ & He & _)]; [done|].
    exfalso. rewrite Hea in He.
    assert (edge_in_array e s = true); [|congruence].
    apply (Inv_edge_in_array _ _ _ HIs). by eapply list_elem_of_lookup_2.
  - assert (e_index t e = Z.of_nat k) as Hk'.
    { apply (inv_index _ _ _ HIt). by rewrite Hea. }
    rewrite (update_single_unfold flag method e t k o node) in Ht;
      [|done|by rewrite Hea|by rewrite Hsets|by rewrite Htab].
    injection Ht as <-. by apply requeued_same_but_index.
Qed.

Lemma update_each_same_but_index flag method pend es s t s' t' :
  Inv mesh_ok (es ++ pend) s → Inv mesh_ok (es ++ pend) t → same_but_index s t →
  update_each flag method es s = Some s' →
  update_each flag method es t = Some t' →
  same_but_index s' t'.
Proof.
  revert s t. induction es as [|e es IH]; intros s t HIs HIt Hst; simpl.
  - by intros [= <-] [= <-].
  - destruct (update_single_Inv flag method (es ++ pend) e s HIs) as (s1 & Hs1 & HI1 & _).
    destruct (update_single_Inv flag method (es ++ pend) e t HIt) as (t1 & Ht1 & HI1' & _).
    rewrite Hs1, Ht1. simpl. apply IH; [exact HI1|exact HI1'|].
    exact (update_single_same_but_index flag method _ e s t s1 t1 HIs HIt Hst Hs1 Ht1).
Qed.

Lemma loop_body_same_but_index flag method oflag_edge oflag_face s t s' t' :
  Inv mesh_ok [] s → Inv mesh_ok [] t → same_but_index s t →
  loop_body flag method oflag_edge oflag_face s = Some s' →
  loop_body flag method oflag_edge oflag_face t = Some t' →
  same_but_index s' t'.
Proof.
  intros HIs HIt Hst Hs Ht.
  pose proof Hst as (Hbm & Hd & Heo & Hfo & Hea & Hheap & Htab & Hsets).
  destruct (loop_body_cases _ _ _ _ _ _ HIs Hs)
    as (n & k & Htop & He & Hidx & Hh & Halt & Hcase).
  destruct (loop_body_cases _ _ _ _ _ _ HIt Ht)
    as (n' & k' & Htop' & He' & Hidx' & Hh' & Halt' & Hcase').
  rewrite Hheap, Htop in Htop'. injection Htop' as <-.
  rewrite Hea in He'.
  assert (k' = k) as -> by by eapply (Inv_slot_unique _ _ _ _ _ HIs).
  rewrite Hbm in Hcase'.
  assert (same_but_index (popped s n k) (popped t n k)) as Hpop.
  { unfold popped, set_heap. simpl. rewrite Hbm, Hd, Heo, Hfo, Hea, Hheap, Htab, Hsets.
    by repeat split. }
  destruct Hcase as [[Hr ->]|(m' & e' & s1 & Hr & Hup & _ & _ & ->)];
    destruct Hcase' as [[Hr' ->]|(m'' & e'' & t1 & Hr' & Hup' & _ & _ & ->)];
    try congruence.
  assert (m'' = m' ∧ e'' = e') as [-> ->] by (split; congruence).
  assert (k < length (eheap_table s))%nat as Hlt by by eapply lookup_lt_Some.
  assert (same_but_index s1 t1) as H1.
  { eapply (update_each_same_but_index flag method [] (e_arr m' e'));
      [| | |exact Hup|exact Hup'].
    - rewrite app_nil_r.
      apply (rotated_Inv (popped s n k) k (node_ptr n) m' e');
        [by apply popped_Inv|exact He|by apply popped_table|exact Halt|exact Hr].
    - rewrite app_nil_r.
      apply (rotated_Inv (popped t n k) k (node_ptr n) m' e');
        [by apply popped_Inv| | |exact Halt'|].
      + simpl. by rewrite Hea.
      + apply popped_table. by rewrite Htab.
      + simpl. by rewrite Hbm.
    - unfold rotated, popped, set_heap. simpl. unfold slot_set. simpl.
      rewrite Hd, Heo, Hfo, Hea, Hheap, Htab, Hsets. by repeat split. }
  destruct H1 as (Hbm1 & Hd1 & Heo1 & Hfo1 & Hea1 & Hheap1 & Htab1 & Hsets1).
  unfold tag_flags. simpl. rewrite Hbm1, Hd1, Heo1, Hfo1, Hea1, Hheap1, Htab1, Hsets1.
  by repeat split.
Qed.

Lemma beautify_loop_same_but_index flag method oflag_edge oflag_face fuel s t s' :
  Inv mesh_ok [] s → Inv mesh_ok [] t → same_but_index s t →
  beautify_loop flag method oflag_edge oflag_face fuel s = Finished s' →
  ∃ t', beautify_loop flag method oflag_edge oflag_face fuel t = Finished t' ∧
        same_but_index s' t'.
Proof.
  revert s t. induction fuel as [|fuel IH]; intros s t HIs HIt Hst; simpl;
    pose proof Hst as (_ & _ & _ & _ & _ & Hheap & _); rewrite Hheap;
    destruct (BLI_heap_is_empty (eheap s)) eqn:Hemp; try discriminate.
  - intros [= <-]. by exists t.
  - intros [= <-]. by exists t.
  - destruct (loop_body_progress flag method oflag_edge oflag_face s HIs Hemp)
      as (s1 & Hs1 & HI1 & _).
    assert (BLI_heap_is_empty (eheap t) = false) as Hemp' by by rewrite Hheap.
    destruct (loop_body_progress flag method oflag_edge oflag_face t HIt Hemp')
      as (t1 & Ht1 & HI1' & _).
    rewrite Hs1, Ht1. apply IH; [done..|].
    exact (loop_body_same_but_index _ _ _ _ s t s1 t1 HIs HIt Hst Hs1 Ht1).
Qed.

(** X18. What the edge indices hold when the function is called does not
    matter: the indices of the edges of the array are written before they
    are read, and an index of another edge is read only by [edge_in_array],
    which compares the edge with the slot the index names.  On a valid
    input two runs that differ in the indices given only, return with the
    same fuel, and what they return differs at most in the indices. *)
Theorem result_independent_of_edge_indices
    flag method oflag_edge oflag_face fuel m index0 index0' eflags fflags edges s :
  valid_input mesh_ok m edges →
  beautify_run flag method oflag_edge oflag_face fuel m index0 eflags fflags edges
    = Finished s →
  ∃ s', beautify_run flag method oflag_edge oflag_face fuel m index0'
          eflags fflags edges = Finished s' ∧
        same_but_index s s' ∧
        (∀ k e, edge_array s !! k = Some e → e_index s' e = e_index s e).
Proof.
  intros (Hok & Hnd & Hman) Hrun. unfold beautify_run in *.
  destruct (beautify_init_Inv flag method m index0 eflags fflags edges Hok Hnd Hman)
    as (HI0 & _).
  destruct (beautify_init_Inv flag method m index0' eflags fflags edges Hok Hnd Hman)
    as (HI0' & _).
  assert (same_but_index (beautify_init flag method m index0 eflags fflags edges)
            (beautify_init flag method m index0' eflags fflags edges)) as H0.
  { unfold beautify_init.
    set (s0 := mkState m index0 false eflags fflags edges _ _ _).
    set (t0 := mkState m index0' false eflags fflags edges _ _ _).
    assert (same_but_index s0 t0) as Hst by by repeat split.
    apply (build_heap_same_but_index flag method edges 0) in Hst.
    destruct Hst as (?&?&?&?&?&?&?&?). by repeat split. }
  destruct (beautify_loop_same_but_index _ _ _ _ _ _ _ _ HI0 HI0' H0 Hrun)
    as (s' & Hrun' & Hsame).
  exists s'. split; [done|]. split; [done|]. intros k e He.
  destruct (beautify_loop_reachable _ _ _ _ _ _ _ Hrun) as [Hreach _].
  destruct (beautify_loop_reachable _ _ _ _ _ _ _ Hrun') as [Hreach' _].
  assert (valid_input mesh_ok m edges) as Hin by done.
  pose proof (reachable_Inv _ _ _ _ _ _ _ _ _ _ Hin Hreach) as HI.
  pose proof (reachable_Inv _ _ _ _ _ _ _ _ _ _ Hin Hreach') as HI'.
  destruct Hsame as (_ & _ & _ & _ & Hea & _).
  destruct (inv_index _ _ _ HI k e He) as [-> _].
  apply (inv_index _ _ _ HI'). by rewrite Hea.
Qed.

(** **** The assertions of the code *)

(** X20. The assertions on manifold edges never fail in a run on a valid
    input, with a rotation that meets its contract: the edge that is popped
    is manifold in a valid mesh ([BM_edge_face_count_is_equal(e, 2)] before
    the rotation), the edge a rotation returns is manifold (the assertion
    after it, and the one of [erot_state_ex]), and every edge that passes
    [edge_in_array] when the costs around the new edge are recalculated is
    manifold (the assertion of [bm_edge_update_beauty_cost_single]). *)
Theorem manifold_assertions_hold
    flag method oflag_edge oflag_face m index0 eflags fflags edges s n :
  valid_input mesh_ok m edges →
  reachable flag method oflag_edge oflag_face
    (beautify_init flag method m index0 eflags fflags edges) s →
  heap_top (heap_nodes (eheap s)) = Some n →
  mesh_ok (bm s) ∧ BM_edge_is_manifold (bm s) (node_ptr n) = true ∧
  ∀ m' e', BM_edge_rotate (bm s) (node_ptr n) = Some (m', e') →
    mesh_ok m' ∧ BM_edge_is_manifold m' e' = true ∧
    ∃ k, e_index s (node_ptr n) = Z.of_nat k ∧
      ∀ x s1, same_world (rotated (popped s n k) k m' e') s1 →
        edge_in_array x s1 = true → BM_edge_is_manifold (bm s1) x = true.
Proof.
  intros Hin Hreach Htop.
  pose proof (reachable_Inv _ _ _ _ _ _ _ _ _ _ Hin Hreach) as HI.
  destruct (heap_top_slot s n HI Htop) as (k & He & Hidx & Ht & _ & Halt).
  destruct (inv_index _ _ _ HI k _ He) as [_ Hman].
  split; [apply (inv_mesh _ _ _ HI)|]. split; [done|].
  intros m' e' Hr.
  destruct (rotate_ok _ Hrot _ _ _ _ (inv_mesh _ _ _ HI) Hman Hr) as [Hok' Hman'].
  split; [done|]. split; [done|]. exists k. split; [done|].
  intros x s1 Hw Hx.
  assert (k < length (eheap_table s))%nat as Hlt by by eapply lookup_lt_Some.
  assert (Inv mesh_ok (e_arr m' e') (rotated (popped s n k) k m' e')) as HIr.
  { apply (rotated_Inv (popped s n k) k (node_ptr n) m' e');
      [by apply popped_Inv|exact He|by apply popped_table|exact Halt|exact Hr]. }
  destruct Hw as (Hbm & Hix & _ & _ & _ & Hea & _).
  apply edge_in_array_true in Hx as (j & Hj & Hxj).
  rewrite Hbm. rewrite Hea in Hxj.
  by apply (inv_index _ _ _ HIr j).
Qed.

(** **** What a rotation does not record *)

Lemma rotate_alternate_current m e m' e' :
  mesh_ok m → BM_edge_is_manifold m e = true →
  BM_edge_rotate m e = Some (m', e') →
  erot_state_alternate m' e' = erot_state_current m e.
Proof.
  intros Hok Hman Hr.
  destruct (rotate_flip _ Hrot m e m' e' Hok Hman Hr) as [Hv Hf].
  rewrite erot_state_current_sig, erot_state_alternate_sig.
  by apply sig_of_same_pair.
Qed.

(** X21. An executed rotation records the signature the edge gets, not the
    one it leaves ("we could add the previous state too"): after the pass
    the set of the slot is the new signature put before the set it was; the
    alternate signature of the new edge is the signature the old edge had;
    and that signature is in the set after the pass only if it was in it
    before (or the old edge had the same end points as apexes).  So the
    cycle check does not keep an edge from being rotated back once to a
    state it was in before its slot recorded anything. *)
Theorem rotation_does_not_record_state_left
    flag method oflag_edge oflag_face m index0 eflags fflags edges s n k m' e' s' :
  valid_input mesh_ok m edges →
  reachable flag method oflag_edge oflag_face
    (beautify_init flag method m index0 eflags fflags edges) s →
  heap_top (heap_nodes (eheap s)) = Some n →
  e_index s (node_ptr n) = Z.of_nat k →
  BM_edge_rotate (bm s) (node_ptr n) = Some (m', e') →
  loop_body flag method oflag_edge oflag_face s = Some s' →
  slot_set s' k = erot_state_current m' e' :: slot_set s k ∧
  erot_state_alternate (bm s') e' = erot_state_current (bm s) (node_ptr n) ∧
  (erot_state_alternate (bm s') e' ∈ slot_set s' k ↔
   erot_state_current (bm s) (node_ptr n) ∈ slot_set s k ∨
   erot_state_current (bm s) (node_ptr n)
     = erot_state_alternate (bm s) (node_ptr n)).
Proof.
  intros Hin Hreach Htop Hidx Hr Hbody.
  pose proof (reachable_Inv _ _ _ _ _ _ _ _ _ _ Hin Hreach) as HI.
  destruct (loop_body_cases _ _ _ _ _ _ HI Hbody)
    as (n0 & k0 & Htop0 & He & Hidx0 & Ht & _ & Hcase).
  rewrite Htop in Htop0. injection Htop0 as <-.
  assert (k0 = k) as -> by lia.
  destruct Hcase as [[Hr0 _]|(m0 & e0 & s1 & Hr0 & _ & Hw & _ & ->)]; [congruence|].
  assert (m0 = m' ∧ e0 = e') as [-> ->] by (split; congruence).
  destruct (inv_index _ _ _ HI k _ He) as [_ Hman].
  assert (k < length (edge_state_arr s))%nat as Hk.
  { rewrite (inv_len_sets _ _ _ HI). by eapply lookup_lt_Some. }
  assert (slot_set (tag_flags oflag_edge oflag_face e' s1) k
          = erot_state_current m' e' :: slot_set s k) as Hset.
  { destruct Hw as (_ & _ & _ & _ & _ & _ & Hsets). unfold slot_set. simpl.
    rewrite Hsets. simpl. by rewrite list_lookup_insert_eq. }
  assert (bm (tag_flags oflag_edge oflag_face e' s1) = m') as Hbm.
  { by destruct Hw as (Hbm & _). }
  split; [exact Hset|]. rewrite Hbm, Hset.
  rewrite (rotate_alternate_current _ _ _ _ (inv_mesh _ _ _ HI) Hman Hr).
  split; [done|].
  rewrite elem_of_cons, (rotate_current_alternate _ _ _ _ (inv_mesh _ _ _ HI) Hman Hr).
  tauto.
Qed.

(** **** The edge of a slot *)


(** **** The flags are only written *)

Lemma update_single_erase flag method e s :
  bm_edge_update_beauty_cost_single flag method e (erase_flags s)
  = erase_flags <$> bm_edge_update_beauty_cost_single flag method e s.
Proof.
  unfold bm_edge_update_beauty_cost_single.
  change (edge_in_array e (erase_flags s)) with (edge_in_array e s).
  destruct (edge_in_array e s); [|done]. simpl.
  destruct (arr_get (edge_state_arr s) (e_index s e)) as [o|]; [|done]. simpl.
  destruct (arr_get (eheap_table s) (e_index s e)) as [[h|]|]; [| |done]; simpl.
  - destruct (arr_set (eheap_table s) (e_index s e) None) as [t|]; [|done]. simpl.
    destruct (match o with
              | Some gs => BLI_gset_haskey gs (erot_state_alternate (bm s) e)
              | None => false
              end); [done|].
    destruct (flt (bm_edge_calc_rotate_beauty (bm s) e flag method) fzero); simpl.
    + by destruct (arr_set t (e_index s e) _).
    + by destruct (arr_set t (e_index s e) None).
  - destruct (match o with
              | Some gs => BLI_gset_haskey gs (erot_state_alternate (bm s) e)
              | None => false
              end); [done|].
    destruct (flt (bm_edge_calc_rotate_beauty (bm s) e flag method) fzero); simpl.
    + by destruct (arr_set (eheap_table s) (e_index s e) _).
    + by destruct (arr_set (eheap_table s) (e_index s e) None).
Qed.

Lemma update_each_erase flag method es s :
  update_each flag method es (erase_flags s)
  = erase_flags <$> update_each flag method es s.
Proof.
  revert s. induction es as [|e es IH]; intros s; simpl; [done|].
  rewrite update_single_erase.
  destruct (bm_edge_update_beauty_cost_single flag method e s) as [s1|]; [|done].
  simpl. apply IH.
Qed.

Lemma loop_body_erase flag method oflag_edge oflag_face s :
  loop_body flag method 0 0 (erase_flags s)
  = erase_flags <$> loop_body flag method oflag_edge oflag_face s.
Proof.
  unfold loop_body, BLI_heap_pop_min. cbn -[bm_edge_update_beauty_cost].
  destruct (heap_top (heap_nodes (eheap s))) as [n|]; [|done].
  cbn -[bm_edge_update_beauty_cost].
  destruct (arr_set (eheap_table s) (e_index s (node_ptr n)) None) as [t|]; [|done].
  cbn -[bm_edge_update_beauty_cost].
  destruct (BM_edge_rotate (bm s) (node_ptr n)) as [[m' e']|]; [|done].
  destruct (arr_get (edge_state_arr s) (e_index s (node_ptr n))) as [o|]; [|done].
  cbn -[bm_edge_update_beauty_cost].
  destruct (arr_set (edge_state_arr s) (e_index s (node_ptr n)) _) as [sets|]; [|done].
  cbn -[bm_edge_update_beauty_cost].
  destruct (arr_set (edge_array s) (e_index s (node_ptr n)) e') as [ea|]; [|done].
  cbn -[bm_edge_update_beauty_cost].
  match goal with
  | |- bm_edge_update_beauty_cost _ _ _ ?s0 ≫= _
       = _ <$> (bm_edge_update_beauty_cost _ _ _ ?s1 ≫= _) =>
      change s0 with (erase_flags s1);
      change (bm_edge_update_beauty_cost flag method e' (erase_flags s1))
        with (update_each flag method (e_arr (bm s1) e') (erase_flags s1));
      change (bm_edge_update_beauty_cost flag method e' s1)
        with (update_each flag method (e_arr (bm s1) e') s1);
      rewrite update_each_erase;
      destruct (update_each flag method (e_arr (bm s1) e') s1)
  end; done.
Qed.

Lemma beautify_loop_erase flag method oflag_edge oflag_face fuel s :
  beautify_loop flag method 0 0 fuel (erase_flags s)
  = outcome_map erase_flags
      (beautify_loop flag method oflag_edge oflag_face fuel s).
Proof.
  revert s. induction fuel as [|fuel IH]; intros s; simpl.
  - by destruct (BLI_heap_is_empty (eheap s)).
  - destruct (BLI_heap_is_empty (eheap s)); [done|].
    rewrite (loop_body_erase flag method oflag_edge oflag_face).
    destruct (loop_body flag method oflag_edge oflag_face s) as [s1|]; [|done].
    simpl. apply IH.
Qed.

Lemma build_heap_erase flag method es i s :
  build_heap flag method i es (erase_flags s)
  = erase_flags (build_heap flag method i es s).
Proof.
  revert i s. induction es as [|e es IH]; intros i s; simpl; [done|].
  rewrite <- IH. f_equal. unfold build_heap_at. simpl.
  by destruct (flt (bm_edge_calc_rotate_beauty (bm s) e flag method) fzero).
Qed.

(** X23. The flags of the caller are written and never read: whatever
    [oflag_edge] and [oflag_face] are, and whatever flags are set at the
    call, the outcome of the run (the state returned, an access outside an
    array, or not enough fuel) is, the flags apart, the outcome of the run
    with no flag to set and none set. *)
Theorem flags_are_observational
    flag method oflag_edge oflag_face fuel m index0 eflags fflags edges :
  outcome_map erase_flags
    (beautify_run flag method oflag_edge oflag_face fuel m index0
       eflags fflags edges)
  = beautify_run flag method 0 0 fuel m index0 [] [] edges.
Proof.
  unfold beautify_run.
  rewrite <- (beautify_loop_erase flag method oflag_edge oflag_face). f_equal.
  unfold beautify_init.
  set (s0 := mkState m index0 false eflags fflags edges _ _ _).
  change (mkState m index0 false [] [] edges
            (BLI_heap_new_ex (Z.of_nat (length edges)))
            (replicate (length edges) None) (replicate (length edges) None))
    with (erase_flags s0).
  rewrite build_heap_erase. reflexivity.
Qed.

(** **** What is left when the heap is empty *)

Lemma smooth_run_reachable flag method oflag_edge oflag_face s0 s :
  smooth_run flag method oflag_edge oflag_face s0 s →
  reachable flag method oflag_edge oflag_face s0 s.
Proof.
  intros Hrun. induction Hrun as [|s s' n m' e' _ IH Htop _ _ Hbody];
    [apply reach_init|].
  eapply reach_step; [exact IH| |exact Hbody].
  apply BLI_heap_is_empty_false. intros Hnil. by rewrite Hnil in Htop.
Qed.

Lemma requeued_table flag method e s k o node j :
  j ≠ k →
  eheap_table (requeued flag method e s k o node) !! j = eheap_table s !! j.
Proof.
  intros Hne. unfold requeued.
  assert (eheap_table (unqueued s k node) !! j = eheap_table s !! j) as Hun.
  { destruct node; simpl; [|done]. by apply list_lookup_insert_ne. }
  destruct (match o with
            | Some gs => BLI_gset_haskey gs (erot_state_alternate (bm s) e)
            | None => false
            end); [done|].
  destruct (flt (bm_edge_calc_rotate_beauty (bm s) e flag method) fzero); simpl;
    by rewrite list_lookup_insert_ne.
Qed.

Lemma requeued_settled flag method e s k o node :
  edge_state_arr s !! k = Some o → (k < length (eheap_table s))%nat →
  eheap_table (requeued flag method e s k o node) !! k = Some None →
  flt (bm_edge_calc_rotate_beauty (bm s) e flag method) fzero = false ∨
  erot_state_alternate (bm s) e ∈ slot_set s k.
Proof.
  intros Ho Hk. destruct (unqueued_world s k node) as (_ & Hlen & _).
  unfold requeued.
  destruct (match o with
            | Some gs => BLI_gset_haskey gs (erot_state_alternate (bm s) e)
            | None => false
            end) eqn:Hkey.
  { intros _. right. unfold slot_set. rewrite Ho.
    destruct o as [gs|]; [|discriminate]. by apply BLI_gset_haskey_true. }
  destruct (flt (bm_edge_calc_rotate_beauty (bm s) e flag method) fzero); [|by left].
  simpl. rewrite list_lookup_insert_eq by lia. discriminate.
Qed.

Lemma update_single_settled flag method pend e s s' :
  Inv mesh_ok (e :: pend) s → settled flag method (e :: pend) s →
  bm_edge_update_beauty_cost_single flag method e s = Some s' →
  settled flag method pend s'.
Proof.
  intros HI HS Hup. pose proof Hup as Hup'.
  apply update_single_inv in Hup as [[Hin ->]|(k & o & node & Hidx & He & Ho & Hn & ->)].
  - intros j x Hx Hp Ht. apply (HS j x Hx); [|done].
    intros [->|?]%elem_of_cons; [|done].
    assert (edge_in_array e s = true); [|congruence].
    apply (Inv_edge_in_array _ _ _ HI). by eapply list_elem_of_lookup_2.
  - destruct (update_single_world _ _ _ _ _ Hup') as [Hw _].
    pose proof Hw as (Hbm & _ & _ & _ & _ & Hea & _).
    intros j x Hx Hp Ht. rewrite Hea in Hx.
    rewrite Hbm, (same_world_slot_set _ _ _ Hw).
    destruct (decide (j = k)) as [->|Hne].
    + replace x with e by congruence.
      apply (requeued_settled flag method e s k o node); [done| |done].
      by eapply lookup_lt_Some.
    + rewrite requeued_table in Ht by done.
      apply (HS j x Hx); [|done].
      intros [->|?]%elem_of_cons; [|done].
      apply Hne. by eapply (Inv_slot_unique _ _ _ _ _ HI).
Qed.

Lemma update_each_settled flag method pend es s s' :
  Inv mesh_ok (es ++ pend) s → settled flag method (es ++ pend) s →
  update_each flag method es s = Some s' →
  settled flag method pend s'.
Proof.
  revert s. induction es as [|e es IH]; intros s HI HS; simpl.
  - by intros [= <-].
  - destruct (update_single_Inv flag method (es ++ pend) e s HI) as (s1 & Hup & HI1 & _).
    rewrite Hup. simpl. apply IH; [done|].
    by eapply update_single_settled.
Qed.

Lemma rotated_settled flag method s n k m' e' :
  Inv mesh_ok [] s → settled flag method [] s →
  heap_top (heap_nodes (eheap s)) = Some n →
  edge_array s !! k = Some (node_ptr n) →
  eheap_table s !! k = Some (Some (node_id n)) →
  BM_edge_rotate (bm s) (node_ptr n) = Some (m', e') →
  flt (bm_edge_calc_rotate_beauty m' e' flag method) fzero = false →
  settled flag method (e_arr m' e') (rotated (popped s n k) k m' e').
Proof.
  intros HI HS Htop He Ht Hr Hback j x Hx Hp Htj. simpl in *.
  assert (k < length (edge_array s))%nat as Hlt by by eapply lookup_lt_Some.
  destruct (decide (j = k)) as [->|Hne].
  { rewrite list_lookup_insert_eq in Hx by done. injection Hx as <-. by left. }
  rewrite list_lookup_insert_ne in Hx by done.
  rewrite list_lookup_insert_ne in Htj by done.
  destruct (inv_index _ _ _ HI k _ He) as [_ Hman].
  destruct (inv_index _ _ _ HI j x Hx) as [_ Hmx].
  assert (x ≠ node_ptr n) as Hxe.
  { intros ->. apply Hne. by eapply (Inv_slot_unique _ _ _ _ _ HI). }
  destruct (rotate_frame _ Hrot _ _ _ _ x (inv_mesh _ _ _ HI) Hman Hr Hxe Hmx Hp)
    as (Hf1 & Hf2 & Hf3 & Hf4 & Hf5 & Hf6).
  rewrite (calc_rotate_beauty_frame _ _ _ flag method Hf3 Hf4 Hf5 Hf6).
  rewrite (erot_state_alternate_frame _ _ _ Hf1 Hf2 Hf3 Hf4).
  unfold slot_set in *. simpl. rewrite list_lookup_insert_ne by done.
  apply (HS j x Hx); [apply not_elem_of_nil|done].
Qed.

(** X24. In a run on a valid input in which no rotation is refused and no
    rotation gives an edge whose cost is negative at once, every slot
    without a node holds an edge whose cost in the mesh as it is, is not
    negative, or whose alternate signature is in the set of the slot.  So
    when the heap is empty and the function returns, every edge of the
    array is one that it does not improve the mesh to rotate, or one that
    the cycle check keeps from being rotated. *)
Theorem unrefused_run_settles
    flag method oflag_edge oflag_face m index0 eflags fflags edges s :
  valid_input mesh_ok m edges →
  smooth_run flag method oflag_edge oflag_face
    (beautify_init flag method m index0 eflags fflags edges) s →
  (∀ k e, edge_array s !! k = Some e → eheap_table s !! k = Some None →
     flt (bm_edge_calc_rotate_beauty (bm s) e flag method) fzero = false ∨
     erot_state_alternate (bm s) e ∈ slot_set s k) ∧
  (BLI_heap_is_empty (eheap s) = true →
   ∀ k e, edge_array s !! k = Some e →
     flt (bm_edge_calc_rotate_beauty (bm s) e flag method) fzero = false ∨
     erot_state_alternate (bm s) e ∈ slot_set s k).
Proof.
  intros Hin Hrun.
  assert (settled flag method [] s) as HS.
  { induction Hrun as [|s s' n m' e' Hrun IH Htop Hr Hback Hbody].
    - intros k e He _ Ht.
      destruct (heap_is_seeded_table flag method m index0 eflags fflags edges)
        as (Hbm & Hea & Htab).
      rewrite Hea in He. destruct (Htab k e He) as (o & Ho & Hiff).
      rewrite Hbm. left. rewrite Ho in Ht. injection Ht as ->.
      destruct (flt (bm_edge_calc_rotate_beauty m e flag method) fzero); [|done].
      destruct (proj2 Hiff eq_refl) as [? ?]. discriminate.
    - pose proof (reachable_Inv _ _ _ _ _ _ _ _ _ _ Hin
                    (smooth_run_reachable _ _ _ _ _ _ Hrun)) as HI.
      destruct (loop_body_cases _ _ _ _ _ _ HI Hbody)
        as (n0 & k & Htop0 & He & Hidx & Ht & Halt & Hcase).
      rewrite Htop in Htop0. injection Htop0 as <-.
      destruct Hcase as [[Hr0 _]|(m0 & e0 & s1 & Hr0 & Hup & _ & _ & ->)];
        [congruence|].
      assert (m0 = m' ∧ e0 = e') as [-> ->] by (split; congruence).
      assert (k < length (eheap_table s))%nat as Hlt by by eapply lookup_lt_Some.
      assert (Inv mesh_ok (e_arr m' e' ++ []) (rotated (popped s n k) k m' e')) as HIr.
      { rewrite app_nil_r.
        apply (rotated_Inv (popped s n k) k (node_ptr n) m' e');
          [by apply popped_Inv|exact He|by apply popped_table|exact Halt|exact Hr]. }
      assert (settled flag method (e_arr m' e' ++ [])
                (rotated (popped s n k) k m' e')) as HSr.
      { rewrite app_nil_r. by apply rotated_settled. }
      pose proof (update_each_settled flag method [] _ _ _ HIr HSr Hup) as HS1.
      intros j x Hx Hp Htj. by apply (HS1 j x). }
  split.
  - intros k e He Ht. by apply (HS k e He); [apply not_elem_of_nil|].
  - intros Hemp k e He.
    pose proof (reachable_Inv _ _ _ _ _ _ _ _ _ _ Hin
                  (smooth_run_reachable _ _ _ _ _ _ Hrun)) as HI.
    assert (k < length (eheap_table s))%nat as Hlt.
    { rewrite (inv_len_table _ _ _ HI). by eapply lookup_lt_Some. }
    destruct (lookup_lt_is_Some_2 _ _ Hlt) as [[h|] Ht].
    + destruct (inv_table _ _ _ HI k h Ht) as (n & Hn & _).
      unfold BLI_heap_is_empty in Hemp.
      destruct (heap_nodes (eheap s)); [by apply elem_of_nil in Hn|discriminate].
    + by apply (HS k e He); [apply not_elem_of_nil|].
Qed.

End BeautifyFacts.

(** ** The concrete kernel meets the contract *)

Module TriMeshFacts.
Import TriMesh.

Lemma vert_enum_NoDup : NoDup vert_enum.
Proof. apply (bool_decide_unpack _). vm_compute. exact I. Qed.

Lemma vert_enum_complete (v : vert) : v ∈ vert_enum.
Proof. destruct v; apply (bool_decide_unpack _); vm_compute; exact I. Qed.

Global Instance vert_finite : Finite vert :=
  {| enum := vert_enum; NoDup_enum := vert_enum_NoDup;
     elem_of_enum := vert_enum_complete |}.

Lemma tm_check_all :
  forallb (λ m, forallb (tm_rotate_check m) (seq 0 (length (edges m)))) tm_meshes
  = true.
Proof. vm_compute. reflexivity. Qed.

Lemma tm_rotate_checked (m : trimesh) (e : nat) :
  tm_mesh_ok m → tm_edge_is_manifold m e = true → tm_rotate_check m e = true.
Proof.
  intros Hok Hman. pose proof tm_check_all as Hall.
  rewrite forallb_forall in Hall. apply list_elem_of_In, Hall in Hok.
  rewrite forallb_forall in Hok. apply Hok, list_elem_of_In, elem_of_seq.
  unfold tm_edge_is_manifold in Hman.
  apply andb_true_iff in Hman as [Hlt _]. apply bool_decide_eq_true in Hlt. lia.
Qed.

(** What the test gives for a rotation that is not refused. *)
Lemma tm_rotate_facts (m : trimesh) (e : nat) (m' : trimesh) (e' : nat) :
  tm_mesh_ok m → tm_edge_is_manifold m e = true →
  tm_edge_rotate m e = Some (m', e') →
  tm_mesh_ok m' ∧ tm_edge_is_manifold m' e' = true ∧
  same_pair (e_v1 m' e', e_v2 m' e') (apex_a m e, apex_b m e) ∧
  same_pair (apex_a m' e', apex_b m' e') (e_v1 m e, e_v2 m e) ∧
  ∀ x, x ≠ e → tm_edge_is_manifold m x = true →
    x ≠ e' ∧ tm_edge_is_manifold m' x = true ∧
    (x ∉ e_arr m' e' →
     e_v1 m' x = e_v1 m x ∧ e_v2 m' x = e_v2 m x ∧
     apex_a m' x = apex_a m x ∧ apex_b m' x = apex_b m x ∧
     quad_v2 m' x = quad_v2 m x ∧ quad_v4 m' x = quad_v4 m x).
Proof.
  intros Hok Hman Hr. pose proof (tm_rotate_checked m e Hok Hman) as Hc.
  unfold tm_rotate_check in Hc. rewrite Hman, Hr in Hc. simpl in Hc.
  repeat (apply andb_true_iff in Hc as [Hc ?]).
  repeat match goal with
         | H : bool_decide _ = true |- _ => apply bool_decide_eq_true in H
         end.
  split; [done|]. split; [done|]. split; [done|]. split; [done|].
  intros x Hxe Hmx.
  match goal with H : forallb _ _ = true |- _ => rename H into Hall end.
  rewrite forallb_forall in Hall. specialize (Hall x).
  rewrite Hmx, bool_decide_eq_true_2 in Hall by done. simpl in Hall.
  assert (In x (seq 0 (length (edges m)))) as Hx.
  { apply list_elem_of_In, elem_of_seq. unfold tm_edge_is_manifold in Hmx.
    apply andb_true_iff in Hmx as [Hlt _]. apply bool_decide_eq_true in Hlt. lia. }
  specialize (Hall Hx).
  apply andb_true_iff in Hall as [Hall Hframe].
  apply andb_true_iff in Hall as [Hne Hmx'].
  apply bool_decide_eq_true in Hne.
  split; [done|]. split; [done|]. intros Hnot.
  apply orb_true_iff in Hframe as [Hin|Hframe].
  { apply bool_decide_eq_true in Hin. done. }
  repeat (apply andb_true_iff in Hframe as [Hframe ?]).
  repeat match goal with
         | H : bool_decide _ = true |- _ => apply bool_decide_eq_true in H
         end.
  done.
Qed.

Lemma tm_rotate_spec_with (co : vert → vec3) :
  BM_edge_rotate_spec (kernel := tm_kernel_with co) tm_mesh_ok.
Proof.
  split.
  - intros m e m' e' Hok Hman Hr.
    destruct (tm_rotate_facts m e m' e' Hok Hman Hr) as (? & ? & _). done.
  - intros m e m' e' Hok Hman Hr.
    destruct (tm_rotate_facts m e m' e' Hok Hman Hr) as (_ & _ & ? & ? & _). done.
  - intros m e m' e' x Hok Hman Hr Hne Hmx.
    destruct (tm_rotate_facts m e m' e' Hok Hman Hr) as (_ & _ & _ & _ & Hx).
    destruct (Hx x Hne Hmx) as (? & ? & _). done.
  - intros m e m' e' x Hok Hman Hr Hne Hmx Hnot.
    destruct (tm_rotate_facts m e m' e' Hok Hman Hr) as (_ & _ & _ & _ & Hx).
    destruct (Hx x Hne Hmx) as (_ & _ & Hf). by apply Hf.
Qed.

Lemma tm_rotate_spec : BM_edge_rotate_spec tm_mesh_ok.
Proof. exact (tm_rotate_spec_with tm_v_co). Qed.

Lemma roofs_valid_input : valid_input tm_mesh_ok roofs [0; 1]%nat.
Proof.
  split; [|split].
  - apply (bool_decide_unpack _). vm_compute. exact I.
  - apply (bool_decide_unpack _). vm_compute. exact I.
  - intros e He. apply elem_of_cons in He as [->|He]; [reflexivity|].
    apply list_elem_of_singleton in He as ->. reflexivity.
Qed.

(** Two triangles (0 1 2) and (1 3 2) on the edge 1-2, with a, b, c, d for
    0, 1, 2, 3: the rotation gives (0 1 3) and (0 3 2) on the edge 0-3, and
    rotating once more would be refused only if an edge 1-2 were there. *)
Example rotate_two_triangles :
  tm_edge_rotate
    {| faces := [(Va, Vb, Vc); (Vb, Vd, Vc)];
       edges := [(Vb, Vc); (Va, Vb); (Vc, Va); (Vb, Vd); (Vd, Vc)] |} 0
  = Some ({| faces := [(Va, Vb, Vd); (Va, Vd, Vc)];
             edges := [(Va, Vd); (Va, Vb); (Vc, Va); (Vb, Vd); (Vd, Vc)] |},
          0%nat).
Proof. vm_compute. reflexivity. Qed.

Lemma roofs_s0_step : loop_body 0 1 0 0 roofs_s0 = Some roofs_s1.
Proof. vm_compute. reflexivity. Qed.

Lemma roofs_s0_not_empty : BLI_heap_is_empty (eheap roofs_s0) = false.
Proof. vm_compute. reflexivity. Qed.

Lemma roofs_s0_top : heap_top (heap_nodes (eheap roofs_s0)) = Some roofs_n0.
Proof. vm_compute. reflexivity. Qed.

Lemma roofs_s0_refused : BM_edge_rotate (bm roofs_s0) (node_ptr roofs_n0) = None.
Proof. vm_compute. reflexivity. Qed.

Lemma roofs_s1_top : heap_top (heap_nodes (eheap roofs_s1)) = Some roofs_n1.
Proof. vm_compute. reflexivity. Qed.

Lemma roofs_s1_rotate :
  BM_edge_rotate (bm roofs_s1) (node_ptr roofs_n1) = Some (roofs_rotated, 1%nat).
Proof. vm_compute. reflexivity. Qed.

Lemma roofs_s1_reachable : reachable 0 1 0 0 roofs_s0 roofs_s1.
Proof.
  eapply reach_step; [apply reach_init|exact roofs_s0_not_empty|exact roofs_s0_step].
Qed.

(** The run on [roofs]: c-d is popped first and its rotation refused, a-b
    exists; a-b is popped and rotated to p-q; the heap is empty. *)
Example roofs_first_run :
  beautify_run 0 1 0 0 2 roofs index0 [] [] [0; 1]%nat = Finished roofs_s2 ∧
  edge_array roofs_s2 = [0; 1]%nat ∧ bm roofs_s2 = roofs_rotated ∧
  faces roofs_rotated = [(Vc, Vd, Va); (Vd, Vc, Vb); (Vp, Va, Vq); (Vp, Vq, Vb)] ∧
  edge_state_arr roofs_s2 = [None; Some [{| v_pair := (4, 5); f_pair := (0, 1) |}]].
Proof. repeat (split; [vm_compute; reflexivity|]). vm_compute. reflexivity. Qed.

(** The second run on the result: c-d is still improving, and now a-b is
    gone, so its rotation is executed. *)
Example roofs_second_run :
  beautify_run 0 1 0 0 1 (bm roofs_s2) (e_index roofs_s2) (edge_oflags roofs_s2)
    (face_oflags roofs_s2) (edge_array roofs_s2) = Finished roofs_again_s1 ∧
  rotations_recorded roofs_again_s1 = 1%nat ∧
  edge_state_arr roofs_again_s1
    = [Some [{| v_pair := (0, 1); f_pair := (2, 3) |}]; None].
Proof. repeat (split; [vm_compute; reflexivity|]). vm_compute. reflexivity. Qed.

(** C5 fails on [roofs]: the kernel meets the contract, the input is valid,
    and the second run executes a rotation. *)
Lemma beautify_not_idempotent_on_roofs :
  BM_edge_rotate_spec tm_mesh_ok ∧ valid_input tm_mesh_ok roofs [0; 1]%nat ∧
  ¬ beautify_idempotent_on 0 1 0 0 roofs index0 [] [] [0; 1]%nat.
Proof.
  split; [exact tm_rotate_spec|]. split; [exact roofs_valid_input|].
  intros Hid.
  destruct roofs_first_run as (Hrun1 & _).
  destruct roofs_second_run as (Hrun2 & Hrec & _).
  specialize (Hid 2%nat roofs_s2 1%nat roofs_again_s1 Hrun1 Hrun2).
  rewrite Hrec in Hid. clear -Hid. discriminate Hid.
Qed.

Lemma roofs_single_valid_input : valid_input tm_mesh_ok roofs [0]%nat.
Proof.
  split; [|split].
  - apply (bool_decide_unpack _). vm_compute. exact I.
  - apply (bool_decide_unpack _). vm_compute. exact I.
  - intros e He. apply list_elem_of_singleton in He as ->. vm_compute. reflexivity.
Qed.

Lemma strip_valid_input : valid_input tm_mesh_ok strip [0; 1]%nat.
Proof.
  split; [|split].
  - apply (bool_decide_unpack _). vm_compute. exact I.
  - apply (bool_decide_unpack _). vm_compute. exact I.
  - intros e He. apply elem_of_cons in He as [->|He]; [vm_compute; reflexivity|].
    apply list_elem_of_singleton in He as ->. vm_compute. reflexivity.
Qed.

Lemma strip_s2_reachable :
  reachable (math := adversary) 0 0 0 0 strip_s0 (strip_s 2).
Proof.
  apply (reach_step _ _ _ _ _ (strip_s 1)); [|vm_compute; reflexivity..].
  apply (reach_step _ _ _ _ _ (strip_s 0)); [|vm_compute; reflexivity..].
  apply reach_init.
Qed.

Lemma strip_s2_top : heap_top (heap_nodes (eheap (strip_s 2))) = Some strip_n2.
Proof. vm_compute. reflexivity. Qed.

Lemma strip_s2_rotate :
  BM_edge_rotate (bm (strip_s 2)) (node_ptr strip_n2) = Some (strip_m3, 0%nat).
Proof. vm_compute. reflexivity. Qed.

(** On the pentagon with the metric for which every rotation improves, the
    two diagonals are rotated in turn, twice around the five triangulations:
    ten rotations, after which each slot has met every signature it can
    reach and nothing is queued any more, though every cost is negative.
    The mesh is the one the run started from. *)
Example strip_oscillation :
  beautify_run (math := adversary) 0 0 0 0 10 strip index0 [] [] [0; 1]%nat
    = Finished (strip_s 10) ∧
  beautify_run (math := adversary) 0 0 0 0 9 strip index0 [] [] [0; 1]%nat
    = OutOfFuel ∧
  rotations_recorded (strip_s 10) = 10%nat ∧
  bm (strip_s 10) = strip ∧
  flt (bm_edge_calc_rotate_beauty (math := adversary) strip 0%nat 0 0) fzero = true ∧
  slot_set (strip_s 2) 0 = [{| v_pair := (1, 3); f_pair := (0, 2) |}] ∧
  slot_set (strip_s 3) 0 = [{| v_pair := (2, 4); f_pair := (1, 3) |};
                            {| v_pair := (1, 3); f_pair := (0, 2) |}].
Proof. repeat (split; [vm_compute; reflexivity|]). vm_compute. reflexivity. Qed.

Lemma BM_mesh_beautify_fill_returns_witness :
  valid_input tm_mesh_ok strip [0; 1]%nat ∧
  ∃ fuel s,
    (∀ fuel', (fuel ≤ fuel')%nat →
       beautify_run (math := adversary) 0 0 0 0 fuel' strip index0 [] [] [0; 1]%nat
         = Finished s ∧
       BM_mesh_beautify_fill (math := adversary) 0 0 0 0 fuel' strip index0 [] []
         [0; 1]%nat = Finished (release s)) ∧
    BLI_heap_is_empty (eheap s) = true ∧
    (rotations_recorded s ≤ length [0; 1]%nat * length sig_universe)%nat.
Proof.
  split; [exact strip_valid_input|].
  exact (BM_mesh_beautify_fill_returns (math := adversary) tm_mesh_ok tm_rotate_spec
           0 0 0 0 strip index0 [] [] [0; 1]%nat strip_valid_input).
Defined.

Lemma rotation_records_fresh_signature_witness :
  valid_input tm_mesh_ok strip [0; 1]%nat ∧
  reachable (math := adversary) 0 0 0 0 strip_s0 (strip_s 2) ∧
  heap_top (heap_nodes (eheap (strip_s 2))) = Some strip_n2 ∧
  BM_edge_rotate (bm (strip_s 2)) (node_ptr strip_n2) = Some (strip_m3, 0%nat) ∧
  ∃ k s',
    e_index (strip_s 2) (node_ptr strip_n2) = Z.of_nat k ∧
    loop_body (math := adversary) 0 0 0 0 (strip_s 2) = Some s' ∧
    (edge_state_arr s' !! k)
      = Some (Some (erot_state_current strip_m3 0%nat :: slot_set (strip_s 2) k)) ∧
    (erot_state_current strip_m3 0%nat ∉ slot_set (strip_s 2) k) ∧
    (∀ j gs, edge_state_arr s' !! j = Some (Some gs) → NoDup gs).
Proof.
  split; [exact strip_valid_input|]. split; [exact strip_s2_reachable|].
  split; [exact strip_s2_top|]. split; [exact strip_s2_rotate|].
  exact (rotation_records_fresh_signature (math := adversary)
           tm_mesh_ok tm_rotate_spec 0 0 0 0
           strip index0 [] [] [0; 1]%nat (strip_s 2) strip_n2 strip_m3 0%nat
           strip_valid_input strip_s2_reachable strip_s2_top strip_s2_rotate).
Defined.

Lemma roofs_seen_index : e_index roofs_seen 1%nat = Z.of_nat 1.
Proof. vm_compute. reflexivity. Qed.

Lemma roofs_seen_edge : edge_array roofs_seen !! 1%nat = Some 1%nat.
Proof. vm_compute. reflexivity. Qed.

Lemma roofs_seen_set :
  edge_state_arr roofs_seen !! 1%nat
  = Some (Some [{| v_pair := (4, 5); f_pair := (0, 1) |}]).
Proof. vm_compute. reflexivity. Qed.

Lemma roofs_seen_node : eheap_table roofs_seen !! 1%nat = Some (Some 0%nat).
Proof. vm_compute. reflexivity. Qed.

Lemma roofs_seen_alternate :
  erot_state_alternate (bm roofs_seen) 1%nat
  ∈ [{| v_pair := (4, 5); f_pair := (0, 1) |}].
Proof.
  replace (erot_state_alternate (bm roofs_seen) 1%nat)
    with {| v_pair := (4, 5); f_pair := (0, 1) |} by (vm_compute; reflexivity).
  apply list_elem_of_here.
Qed.

Lemma cycle_check_skips_seen_state_witness :
  valid_input tm_mesh_ok roofs [0; 1]%nat ∧
  reachable 0 1 0 0 roofs_s0 roofs_s1 ∧
  e_index roofs_seen 1%nat = Z.of_nat 1 ∧
  edge_array roofs_seen !! 1%nat = Some 1%nat ∧
  edge_state_arr roofs_seen !! 1%nat
    = Some (Some [{| v_pair := (4, 5); f_pair := (0, 1) |}]) ∧
  eheap_table roofs_seen !! 1%nat = Some (Some 0%nat) ∧
  erot_state_alternate (bm roofs_seen) 1%nat
    ∈ [{| v_pair := (4, 5); f_pair := (0, 1) |}] ∧
  ∃ s', bm_edge_update_beauty_cost_single 0 1 1%nat roofs_seen = Some s' ∧
        same_world roofs_seen s' ∧
        eheap_table s' = <[1%nat := None]> (eheap_table roofs_seen) ∧
        heap_nodes (eheap s')
          = filter (λ n, node_id n ≠ 0%nat) (heap_nodes (eheap roofs_seen)).
Proof.
  split; [exact roofs_valid_input|]. split; [exact roofs_s1_reachable|].
  split; [exact roofs_seen_index|]. split; [exact roofs_seen_edge|].
  split; [exact roofs_seen_set|]. split; [exact roofs_seen_node|].
  split; [exact roofs_seen_alternate|].
  exact (proj1 (proj2 (proj2 (cycle_check_skips_seen_state
           tm_mesh_ok tm_rotate_spec 0 1 0 0 roofs index0 [] [] [0; 1]%nat
           roofs_s1 1%nat roofs_seen 1%nat _ (Some 0%nat)
           roofs_valid_input roofs_s1_reachable
           roofs_seen_index roofs_seen_edge roofs_seen_set roofs_seen_node
           roofs_seen_alternate)))).
Defined.

(** In [roofs_seen] the node of a-b is taken off the heap and a-b is not
    queued again, although its cost is negative. *)
Example roofs_seen_skipped :
  flt (bm_edge_calc_rotate_beauty roofs 1%nat 0 1) fzero = true ∧
  (eheap <$> bm_edge_update_beauty_cost_single 0 1 1%nat roofs_seen)
    = Some {| heap_nodes := []; heap_next := 1 |} ∧
  (eheap_table <$> bm_edge_update_beauty_cost_single 0 1 1%nat roofs_seen)
    = Some [None; None].
Proof. repeat (split; [vm_compute; reflexivity|]). vm_compute. reflexivity. Qed.

Lemma heap_holds_negative_costs_witness :
  reachable 0 1 0 0 roofs_s0 roofs_s1 ∧
  ∀ n, n ∈ heap_nodes (eheap roofs_s1) → flt (node_value n) fzero = true.
Proof.
  split; [exact roofs_s1_reachable|].
  exact (proj1 (heap_holds_negative_costs 0 1 0 0 roofs index0 [] [] [0; 1]%nat
                  roofs_s1 roofs_s1_reachable)).
Defined.

Lemma roofs_single_refused (e : nat) :
  e ∈ [0]%nat →
  flt (bm_edge_calc_rotate_beauty roofs e 0 1) fzero = false ∨
  BM_edge_rotate roofs e = None.
Proof. intros ->%list_elem_of_singleton. right. vm_compute. reflexivity. Qed.

Lemma beautify_without_improving_edge_witness :
  valid_input tm_mesh_ok roofs [0]%nat ∧
  (∀ e, e ∈ [0]%nat →
        flt (bm_edge_calc_rotate_beauty roofs e 0 1) fzero = false ∨
        BM_edge_rotate roofs e = None) ∧
  ∃ fuel s,
    beautify_run 0 1 0 0 fuel roofs index0 [] [] [0]%nat = Finished s ∧
    rotations_recorded s = 0%nat ∧ bm s = roofs ∧ edge_array s = [0]%nat.
Proof.
  split; [exact roofs_single_valid_input|]. split; [exact roofs_single_refused|].
  exact (beautify_without_improving_edge tm_mesh_ok 0 1 0 0 roofs index0 [] []
           [0]%nat roofs_single_valid_input roofs_single_refused).
Defined.

Lemma refused_rotation_is_absorbed_witness :
  valid_input tm_mesh_ok roofs [0; 1]%nat ∧
  reachable 0 1 0 0 roofs_s0 roofs_s0 ∧
  heap_top (heap_nodes (eheap roofs_s0)) = Some roofs_n0 ∧
  BM_edge_rotate (bm roofs_s0) (node_ptr roofs_n0) = None ∧
  ∃ k s',
    e_index roofs_s0 (node_ptr roofs_n0) = Z.of_nat k ∧
    loop_body 0 1 0 0 roofs_s0 = Some s' ∧
    edge_state_arr s' = edge_state_arr roofs_s0 ∧
    edge_array s' = edge_array roofs_s0 ∧
    edge_oflags s' = edge_oflags roofs_s0 ∧ face_oflags s' = face_oflags roofs_s0 ∧
    bm s' = bm roofs_s0 ∧ e_index s' = e_index roofs_s0 ∧
    eheap s' = BLI_heap_remove (eheap roofs_s0) (node_id roofs_n0) ∧
    eheap_table s' = <[k := None]> (eheap_table roofs_s0) ∧
    reachable 0 1 0 0 roofs_s0 s'.
Proof.
  split; [exact roofs_valid_input|]. split; [apply reach_init|].
  split; [exact roofs_s0_top|]. split; [exact roofs_s0_refused|].
  exact (refused_rotation_is_absorbed tm_mesh_ok tm_rotate_spec 0 1 0 0
           roofs index0 [] [] [0; 1]%nat roofs_s0 roofs_n0
           roofs_valid_input (reach_init _ _ _ _ _) roofs_s0_top roofs_s0_refused).
Defined.

Lemma edge_array_updated_in_place_witness :
  valid_input tm_mesh_ok strip [0; 1]%nat ∧
  reachable (math := adversary) 0 0 0 0 strip_s0 (strip_s 2) ∧
  heap_top (heap_nodes (eheap (strip_s 2))) = Some strip_n2 ∧
  ∃ k s',
    e_index (strip_s 2) (node_ptr strip_n2) = Z.of_nat k ∧
    edge_array (strip_s 2) !! k = Some (node_ptr strip_n2) ∧
    loop_body (math := adversary) 0 0 0 0 (strip_s 2) = Some s' ∧
    edge_array s' =
      match BM_edge_rotate (bm (strip_s 2)) (node_ptr strip_n2) with
      | Some (_, e') => <[k := e']> (edge_array (strip_s 2))
      | None => edge_array (strip_s 2)
      end ∧
    length (edge_array s') = length (edge_array (strip_s 2)) ∧
    (∀ j, j ≠ k → edge_array s' !! j = edge_array (strip_s 2) !! j).
Proof.
  split; [exact strip_valid_input|]. split; [exact strip_s2_reachable|].
  split; [exact strip_s2_top|].
  exact (edge_array_updated_in_place (math := adversary)
           tm_mesh_ok tm_rotate_spec 0 0 0 0
           strip index0 [] [] [0; 1]%nat (strip_s 2) strip_n2
           strip_valid_input strip_s2_reachable strip_s2_top).
Defined.

Local Abbreviation flat := (tm_kernel_with flat_v_co).

(** With a, c and b on one line the rotation of c-d would make the triangle
    (a c b) without area: the angle metric gives the sentinel although the
    two triangles around c-d are what they are in [roofs], and only a-b is
    queued. *)
Example flat_degenerate :
  feq (normal_tri_v3 (flat_v_co Va) (flat_v_co Vc) (flat_v_co Vb)).2 fzero = true ∧
  bm_edge_calc_rotate_beauty (kernel := flat) roofs 0%nat 0 1 = FLT_MAX ∧
  node_ptr <$> heap_nodes (eheap flat_s0) = [1%nat].
Proof. repeat (split; [vm_compute; reflexivity|]). vm_compute. reflexivity. Qed.

Lemma flat_degenerate_edge : rotate_degenerate (kernel := flat) roofs 0%nat.
Proof. left. vm_compute. reflexivity. Qed.

Lemma degenerate_rotation_never_performed_witness :
  1 ≠ 0 ∧
  valid_input (kernel := flat) tm_mesh_ok roofs [0; 1]%nat ∧
  reachable (kernel := flat) 0 1 0 0 flat_s0 flat_s0 ∧
  rotate_degenerate (kernel := flat) (bm flat_s0) 0%nat ∧
  bm_edge_calc_rotate_beauty (kernel := flat) (bm flat_s0) 0%nat 0 1 = FLT_MAX ∧
  (∀ n, n ∈ heap_nodes (eheap flat_s0) →
        ¬ rotate_degenerate (kernel := flat) (bm flat_s0) (node_ptr n)).
Proof.
  assert (1 ≠ 0) as Hm by (intros Heq; discriminate Heq).
  pose proof (degenerate_rotation_never_performed (kernel := flat)
                tm_mesh_ok (tm_rotate_spec_with flat_v_co) 0 1 0 0
                roofs index0 [] [] [0; 1]%nat flat_s0 Hm
                roofs_valid_input (reach_init _ _ _ _ _))
    as (_ & _ & Hedge & Hheap & _).
  split; [exact Hm|]. split; [exact roofs_valid_input|].
  split; [apply reach_init|]. split; [exact flat_degenerate_edge|].
  split; [exact (proj1 (Hedge 0%nat flat_degenerate_edge))|exact Hheap].
Defined.

(** With the restriction by tag both inner edges are left alone: a and b
    are tagged, p and q are not, and nothing is queued although both costs
    are negative. *)
Example roofs_tag_restricted :
  flt (bm_edge_calc_rotate_beauty roofs 0%nat 0 1) fzero = true ∧
  flt (bm_edge_calc_rotate_beauty roofs 1%nat 0 1) fzero = true ∧
  bm_edge_calc_rotate_beauty roofs 0%nat 1 1 = FLT_MAX ∧
  bm_edge_calc_rotate_beauty roofs 1%nat 1 1 = FLT_MAX ∧
  heap_nodes (eheap roofs_tag_s0) = [].
Proof. repeat (split; [vm_compute; reflexivity|]). vm_compute. reflexivity. Qed.

Lemma tm_tag_one_bit : ∃ b, 0 <= b ∧ BM_ELEM_TAG = 2 ^ b.
Proof. exists 4. split; [lia|reflexivity]. Qed.

Lemma roofs_tag_short_circuit : short_circuit 1 (bm roofs_tag_s0) 0%nat.
Proof. right. split; [intros Heq; discriminate Heq|]. vm_compute. reflexivity. Qed.

Lemma rotate_beauty_short_circuit_witness :
  (∃ b, 0 <= b ∧ BM_ELEM_TAG = 2 ^ b) ∧
  valid_input tm_mesh_ok roofs [0; 1]%nat ∧
  reachable 1 1 0 0 roofs_tag_s0 roofs_tag_s0 ∧
  short_circuit 1 (bm roofs_tag_s0) 0%nat ∧
  bm_edge_calc_rotate_beauty (bm roofs_tag_s0) 0%nat 1 1 = FLT_MAX ∧
  (∀ n, n ∈ heap_nodes (eheap roofs_tag_s0) →
        ¬ short_circuit 1 (bm roofs_tag_s0) (node_ptr n)).
Proof.
  pose proof (rotate_beauty_short_circuit tm_mesh_ok tm_rotate_spec 1 1 0 0
                roofs index0 [] [] [0; 1]%nat roofs_tag_s0 tm_tag_one_bit
                roofs_valid_input (reach_init _ _ _ _ _))
    as (_ & Hedge & Hheap).
  split; [exact tm_tag_one_bit|]. split; [exact roofs_valid_input|].
  split; [apply reach_init|]. split; [exact roofs_tag_short_circuit|].
  split; [exact (proj1 (Hedge 0%nat roofs_tag_short_circuit))|exact Hheap].
Defined.

Lemma roofs_s0_index : e_index roofs_s0 1%nat = Z.of_nat 1.
Proof. vm_compute. reflexivity. Qed.

Lemma roofs_s0_edge : edge_array roofs_s0 !! 1%nat = Some 1%nat.
Proof. vm_compute. reflexivity. Qed.

Lemma roofs_s0_set : edge_state_arr roofs_s0 !! 1%nat = Some None.
Proof. vm_compute. reflexivity. Qed.

Lemma roofs_s0_node : eheap_table roofs_s0 !! 1%nat = Some (Some 1%nat).
Proof. vm_compute. reflexivity. Qed.

Lemma roofs_s0_cost :
  flt (bm_edge_calc_rotate_beauty (bm roofs_s0) 1%nat 0 1) fzero = true.
Proof. vm_compute. reflexivity. Qed.

Lemma absent_set_never_skips_witness :
  e_index roofs_s0 1%nat = Z.of_nat 1 ∧
  edge_array roofs_s0 !! 1%nat = Some 1%nat ∧
  edge_state_arr roofs_s0 !! 1%nat = Some None ∧
  eheap_table roofs_s0 !! 1%nat = Some (Some 1%nat) ∧
  flt (bm_edge_calc_rotate_beauty (bm roofs_s0) 1%nat 0 1) fzero = true ∧
  ∃ s', bm_edge_update_beauty_cost_single 0 1 1%nat roofs_s0 = Some s' ∧
        eheap_table s' !! 1%nat = Some (Some (heap_next (eheap roofs_s0))) ∧
        mkHeapNode (heap_next (eheap roofs_s0))
          (bm_edge_calc_rotate_beauty (bm roofs_s0) 1%nat 0 1) 1%nat
          ∈ heap_nodes (eheap s').
Proof.
  split; [exact roofs_s0_index|]. split; [exact roofs_s0_edge|].
  split; [exact roofs_s0_set|]. split; [exact roofs_s0_node|].
  split; [exact roofs_s0_cost|].
  exact (proj1 (absent_set_never_skips 0 1 1%nat roofs_s0 1%nat (Some 1%nat)
                  roofs_s0_index roofs_s0_edge roofs_s0_set roofs_s0_node
                  roofs_s0_cost)).
Defined.

(** ** The further properties on the concrete kernel *)

Lemma tm_v_index_inj (a b : vert) : v_index a = v_index b → a = b.
Proof. destruct a, b; simpl; intros H; first [reflexivity|discriminate H]. Qed.

(** The edge c-d has the same quad, and the same signature, before and
    after the rotation of a-b. *)
Lemma signature_identifies_quad_witness :
  (∀ a b : vert, v_index a = v_index b → a = b) ∧
  (erot_state_current roofs 0%nat = erot_state_current roofs_rotated 0%nat ↔
   same_pair (e_v1 roofs 0%nat, e_v2 roofs 0%nat)
             (e_v1 roofs_rotated 0%nat, e_v2 roofs_rotated 0%nat) ∧
   same_pair (apex_a roofs 0%nat, apex_b roofs 0%nat)
             (apex_a roofs_rotated 0%nat, apex_b roofs_rotated 0%nat)).
Proof.
  split; [exact tm_v_index_inj|].
  exact (signature_identifies_quad roofs 0%nat roofs_rotated 0%nat tm_v_index_inj).
Defined.

Lemma dispatch_same_restriction :
  Z.land 2 VERT_RESTRICT_TAG ≠ 0 ↔ Z.land 4 VERT_RESTRICT_TAG ≠ 0.
Proof. vm_compute. tauto. Qed.

Lemma dispatch_same_method : (1 = 0 ↔ 7 = 0).
Proof. split; discriminate. Qed.

Lemma dispatch_angle_ignores_degenerate :
  1 = 0 →
  (Z.land 2 EDGE_RESTRICT_DEGENERATE ≠ 0 ↔ Z.land 4 EDGE_RESTRICT_DEGENERATE ≠ 0).
Proof. discriminate. Qed.

(** With the angle metric, the methods 1 and 7 and the flags 2 and 4 give
    the same cost. *)
Lemma BM_verts_calc_rotate_beauty_dispatch_witness :
  (Z.land 2 VERT_RESTRICT_TAG ≠ 0 ↔ Z.land 4 VERT_RESTRICT_TAG ≠ 0) ∧
  (1 = 0 ↔ 7 = 0) ∧
  (1 = 0 →
   (Z.land 2 EDGE_RESTRICT_DEGENERATE ≠ 0 ↔ Z.land 4 EDGE_RESTRICT_DEGENERATE ≠ 0)) ∧
  BM_verts_calc_rotate_beauty Va Vc Vb Vd 2 1
    = BM_verts_calc_rotate_beauty Va Vc Vb Vd 4 7.
Proof.
  split; [exact dispatch_same_restriction|]. split; [exact dispatch_same_method|].
  split; [exact dispatch_angle_ignores_degenerate|].
  exact (proj1 (BM_verts_calc_rotate_beauty_dispatch Va Vc Vb Vd 2 4 1 7
                  dispatch_same_restriction dispatch_same_method
                  dispatch_angle_ignores_degenerate)).
Defined.

Lemma heap_costs_compare_witness :
  reachable 0 1 0 0 roofs_s0 roofs_s1 ∧
  (∀ n, n ∈ heap_nodes (eheap roofs_s1) → is_negative (node_value n)) ∧
  (∀ n1 n2, n1 ∈ heap_nodes (eheap roofs_s1) → n2 ∈ heap_nodes (eheap roofs_s1) →
     flt (node_value n1) (node_value n2) = true ∨
     feq (node_value n1) (node_value n2) = true ∨
     flt (node_value n2) (node_value n1) = true).
Proof.
  split; [exact roofs_s1_reachable|].
  exact (proj2 (heap_costs_compare 0 1 0 0 roofs index0 [] [] [0; 1]%nat
                  roofs_s1 roofs_s1_reachable)).
Defined.

Lemma strip_s2_table_length :
  length (eheap_table (strip_s 2)) = length (edge_array (strip_s 2)).
Proof. vm_compute. reflexivity. Qed.

Lemma strip_s2_sets_length :
  length (edge_state_arr (strip_s 2)) = length (edge_array (strip_s 2)).
Proof. vm_compute. reflexivity. Qed.

(** Around the edge 0 of the pentagon after two passes: three edges of the
    border, whose index is -1, and the edge 1. *)
Lemma rescoring_stays_in_bounds_witness :
  length (eheap_table (strip_s 2)) = length (edge_array (strip_s 2)) ∧
  length (edge_state_arr (strip_s 2)) = length (edge_array (strip_s 2)) ∧
  ∃ s', bm_edge_update_beauty_cost (math := adversary) 0 0 0%nat (strip_s 2)
          = Some s' ∧
        same_world (strip_s 2) s' ∧
        length (eheap_table s') = length (eheap_table (strip_s 2)) ∧
        ((∀ x, x ∈ e_arr (bm (strip_s 2)) 0%nat →
               edge_in_array x (strip_s 2) = false) → s' = strip_s 2).
Proof.
  split; [exact strip_s2_table_length|]. split; [exact strip_s2_sets_length|].
  exact (rescoring_stays_in_bounds (math := adversary) 0 0 0%nat (strip_s 2)
           strip_s2_table_length strip_s2_sets_length).
Defined.

Lemma roofs_tag_no_cost (e : nat) :
  e ∈ [0; 1]%nat → flt (bm_edge_calc_rotate_beauty roofs e 1 1) fzero = false.
Proof.
  intros He. apply elem_of_cons in He as [->|He]; [vm_compute; reflexivity|].
  apply list_elem_of_singleton in He as ->. vm_compute. reflexivity.
Qed.

(** With the restriction by tag no edge of [roofs] has a negative cost:
    the call returns with no fuel at all. *)
Lemma beautify_nothing_to_improve_witness :
  (∀ e, e ∈ [0; 1]%nat → flt (bm_edge_calc_rotate_beauty roofs e 1 1) fzero = false) ∧
  ∃ s, BM_mesh_beautify_fill 1 1 0 0 0 roofs index0 [] [] [0; 1]%nat = Finished s ∧
       bm s = roofs ∧ edge_array s = [0; 1]%nat ∧
       edge_oflags s = [] ∧ face_oflags s = [] ∧
       elem_index_dirty s = true ∧
       (∀ e, e ∉ [0; 1]%nat → e_index s e = index0 e) ∧
       heap_nodes (eheap s) = [] ∧ eheap_table s = [] ∧ edge_state_arr s = [].
Proof.
  split; [exact roofs_tag_no_cost|].
  exact (beautify_nothing_to_improve 1 1 0 0 0%nat roofs index0 [] [] [0; 1]%nat
           roofs_tag_no_cost).
Defined.

Lemma run_keeps_input_valid_witness :
  valid_input tm_mesh_ok strip [0; 1]%nat ∧
  reachable (math := adversary) 0 0 0 0 strip_s0 (strip_s 2) ∧
  valid_input tm_mesh_ok (bm (strip_s 2)) (edge_array (strip_s 2)) ∧
  length (edge_array (strip_s 2)) = length [0; 1]%nat.
Proof.
  split; [exact strip_valid_input|]. split; [exact strip_s2_reachable|].
  exact (run_keeps_input_valid (math := adversary) tm_mesh_ok tm_rotate_spec 0 0 0 0
           strip index0 [] [] [0; 1]%nat (strip_s 2)
           strip_valid_input strip_s2_reachable).
Defined.

Lemma edge_indices_are_slots_witness :
  valid_input tm_mesh_ok strip [0; 1]%nat ∧
  reachable (math := adversary) 0 0 0 0 strip_s0 (strip_s 2) ∧
  elem_index_dirty (strip_s 2) = true ∧
  (∀ k e, edge_array (strip_s 2) !! k = Some e →
          e_index (strip_s 2) e = Z.of_nat k) ∧
  (∀ e, edge_in_array e (strip_s 2) = true ↔ e ∈ edge_array (strip_s 2)) ∧
  (∀ e, e_index (strip_s 2) e = index0 e ∨
        0 <= e_index (strip_s 2) e < Z.of_nat (length [0; 1]%nat)).
Proof.
  split; [exact strip_valid_input|]. split; [exact strip_s2_reachable|].
  exact (edge_indices_are_slots (math := adversary) tm_mesh_ok tm_rotate_spec 0 0 0 0
           strip index0 [] [] [0; 1]%nat (strip_s 2)
           strip_valid_input strip_s2_reachable).
Defined.

Lemma heap_table_coherent_witness :
  valid_input tm_mesh_ok strip [0; 1]%nat ∧
  reachable (math := adversary) 0 0 0 0 strip_s0 (strip_s 2) ∧
  (∀ k h, eheap_table (strip_s 2) !! k = Some (Some h) →
     ∃ n, n ∈ heap_nodes (eheap (strip_s 2)) ∧ node_id n = h ∧
          edge_array (strip_s 2) !! k = Some (node_ptr n)) ∧
  (∀ n, n ∈ heap_nodes (eheap (strip_s 2)) →
     ∃ k, edge_array (strip_s 2) !! k = Some (node_ptr n) ∧
          eheap_table (strip_s 2) !! k = Some (Some (node_id n))) ∧
  (∀ n1 n2, n1 ∈ heap_nodes (eheap (strip_s 2)) →
     n2 ∈ heap_nodes (eheap (strip_s 2)) → node_ptr n1 = node_ptr n2 → n1 = n2) ∧
  length (eheap_table (strip_s 2)) = length [0; 1]%nat ∧
  (length (heap_nodes (eheap (strip_s 2))) ≤ length [0; 1]%nat)%nat.
Proof.
  split; [exact strip_valid_input|]. split; [exact strip_s2_reachable|].
  exact (heap_table_coherent (math := adversary) tm_mesh_ok tm_rotate_spec 0 0 0 0
           strip index0 [] [] [0; 1]%nat (strip_s 2)
           strip_valid_input strip_s2_reachable).
Defined.

(** For the two diagonals of the pentagon and the 1296 signatures of six
    vertices the bound is 10370 passes; the run takes ten. *)
Lemma beautify_within_pass_bound_witness :
  valid_input tm_mesh_ok strip [0; 1]%nat ∧
  ∃ s, ∀ fuel, (pass_bound (length [0; 1]%nat) (length sig_universe) ≤ fuel)%nat →
    beautify_run (math := adversary) 0 0 0 0 fuel strip index0 [] [] [0; 1]%nat
      = Finished s ∧
    BM_mesh_beautify_fill (math := adversary) 0 0 0 0 fuel strip index0 [] []
      [0; 1]%nat = Finished (release s).
Proof.
  split; [exact strip_valid_input|].
  exact (beautify_within_pass_bound (math := adversary) tm_mesh_ok tm_rotate_spec
           0 0 0 0 strip index0 [] [] [0; 1]%nat strip_valid_input).
Defined.

Lemma strip_tagged_s2_reachable :
  reachable (math := adversary) 0 0 8 4 strip_s0 strip_tagged_s2.
Proof.
  apply (reach_step _ _ _ _ _ (strip_tagged_pass strip_s0));
    [|vm_compute; reflexivity..].
  apply (reach_step _ _ _ _ _ strip_s0); [|vm_compute; reflexivity..].
  apply reach_init.
Qed.

(** Two rotations on the pentagon, with 8 to set on the edges and 4 on the
    faces: two edge flags and four face flags. *)
Lemma flags_follow_rotations_witness :
  valid_input tm_mesh_ok strip [0; 1]%nat ∧
  reachable (math := adversary) 0 0 8 4 strip_s0 strip_tagged_s2 ∧
  ∃ es fs, edge_oflags strip_tagged_s2 = es ++ [] ∧
    face_oflags strip_tagged_s2 = fs ++ [] ∧
    length es = (if bool_decide (8 ≠ 0)
                 then rotations_recorded strip_tagged_s2 else 0%nat) ∧
    length fs = (if bool_decide (4 ≠ 0)
                 then (2 * rotations_recorded strip_tagged_s2)%nat else 0%nat) ∧
    (∀ p, p ∈ es → p.2 = 8) ∧ (∀ p, p ∈ fs → p.2 = 4).
Proof.
  split; [exact strip_valid_input|]. split; [exact strip_tagged_s2_reachable|].
  exact (flags_follow_rotations (math := adversary) tm_mesh_ok tm_rotate_spec 0 0 8 4
           strip index0 [] [] [0; 1]%nat strip_tagged_s2
           strip_valid_input strip_tagged_s2_reachable).
Defined.

Lemma mesh_changes_by_improving_rotations_witness :
  valid_input tm_mesh_ok strip [0; 1]%nat ∧
  reachable (math := adversary) 0 0 0 0 strip_s0 (strip_s 2) ∧
  rotation_chain (math := adversary) 0 0 (rotations_recorded (strip_s 2))
    strip (bm (strip_s 2)).
Proof.
  split; [exact strip_valid_input|]. split; [exact strip_s2_reachable|].
  exact (mesh_changes_by_improving_rotations (math := adversary)
           tm_mesh_ok tm_rotate_spec 0 0 0 0
           strip index0 [] [] [0; 1]%nat (strip_s 2)
           strip_valid_input strip_s2_reachable).
Defined.

Lemma strip_n2_queued : strip_n2 ∈ heap_nodes (eheap (strip_s 2)).
Proof. apply heap_top_elem. exact strip_s2_top. Qed.

Lemma queued_costs_are_current_witness :
  valid_input tm_mesh_ok strip [0; 1]%nat ∧
  reachable (math := adversary) 0 0 0 0 strip_s0 (strip_s 2) ∧
  strip_n2 ∈ heap_nodes (eheap (strip_s 2)) ∧
  node_value strip_n2
    = bm_edge_calc_rotate_beauty (math := adversary) (bm (strip_s 2))
        (node_ptr strip_n2) 0 0 ∧
  flt (bm_edge_calc_rotate_beauty (math := adversary) (bm (strip_s 2))
         (node_ptr strip_n2) 0 0) fzero = true.
Proof.
  split; [exact strip_valid_input|]. split; [exact strip_s2_reachable|].
  split; [exact strip_n2_queued|].
  exact (queued_costs_are_current (math := adversary) tm_mesh_ok tm_rotate_spec
           0 0 0 0 strip index0 [] [] [0; 1]%nat (strip_s 2) strip_n2
           strip_valid_input strip_s2_reachable strip_n2_queued).
Defined.

Lemma signature_sets_only_grow_witness :
  reachable (math := adversary) 0 0 0 0 strip_s0 (strip_s 2) ∧
  length (edge_state_arr (strip_s 2)) = length (edge_state_arr strip_s0) ∧
  length (edge_array (strip_s 2)) = length (edge_array strip_s0) ∧
  ∀ k, slot_set strip_s0 k `suffix_of` slot_set (strip_s 2) k ∧
       (slot_set (strip_s 2) k = slot_set strip_s0 k →
        edge_array (strip_s 2) !! k = edge_array strip_s0 !! k).
Proof.
  split; [exact strip_s2_reachable|].
  exact (signature_sets_only_grow (math := adversary) 0 0 0 0 strip_s0 (strip_s 2)
           strip_s2_reachable).
Defined.

Lemma strip_s2_step :
  loop_body (math := adversary) 0 0 0 0 (strip_s 2) = Some (strip_s 3).
Proof. vm_compute. reflexivity. Qed.

Lemma strip_s3_top : heap_top (heap_nodes (eheap (strip_s 3))) = Some strip_n3.
Proof. vm_compute. reflexivity. Qed.

Lemma strip_n3_queued : strip_n3 ∈ heap_nodes (eheap (strip_s 3)).
Proof. apply heap_top_elem. exact strip_s3_top. Qed.

Lemma strip_s2_handles : node_id <$> heap_nodes (eheap (strip_s 2)) = [3%nat].
Proof. vm_compute. reflexivity. Qed.

Lemma strip_n3_handle : node_id strip_n3 = 4%nat.
Proof. vm_compute. reflexivity. Qed.

Lemma strip_n3_new : strip_n3 ∉ heap_nodes (eheap (strip_s 2)).
Proof.
  intros Hin. apply (list_elem_of_fmap_2 node_id) in Hin.
  rewrite strip_s2_handles, strip_n3_handle in Hin.
  apply list_elem_of_singleton in Hin. clear -Hin. discriminate Hin.
Qed.

(** The third pass on the pentagon rotates the edge 0 and queues the edge
    1, which is beside it. *)
Lemma only_neighbours_are_queued_witness :
  valid_input tm_mesh_ok strip [0; 1]%nat ∧
  reachable (math := adversary) 0 0 0 0 strip_s0 (strip_s 2) ∧
  loop_body (math := adversary) 0 0 0 0 (strip_s 2) = Some (strip_s 3) ∧
  strip_n3 ∈ heap_nodes (eheap (strip_s 3)) ∧
  (strip_n3 ∉ heap_nodes (eheap (strip_s 2))) ∧
  ∃ n m' e', heap_top (heap_nodes (eheap (strip_s 2))) = Some n ∧
    BM_edge_rotate (bm (strip_s 2)) (node_ptr n) = Some (m', e') ∧
    bm (strip_s 3) = m' ∧
    node_ptr strip_n3 ∈ e_arr m' e' ∧ node_ptr strip_n3 ∈ edge_array (strip_s 3).
Proof.
  split; [exact strip_valid_input|]. split; [exact strip_s2_reachable|].
  split; [exact strip_s2_step|]. split; [exact strip_n3_queued|].
  split; [exact strip_n3_new|].
  exact (only_neighbours_are_queued (math := adversary) tm_mesh_ok tm_rotate_spec
           0 0 0 0 strip index0 [] [] [0; 1]%nat (strip_s 2) (strip_s 3) strip_n3
           strip_valid_input strip_s2_reachable strip_s2_step
           strip_n3_queued strip_n3_new).
Defined.

Lemma strip_run :
  beautify_run (math := adversary) 0 0 0 0 10 strip index0 [] [] [0; 1]%nat
    = Finished (strip_s 10).
Proof. vm_compute. reflexivity. Qed.

(** The run on the pentagon started with 7 as the index of every edge. *)
Lemma result_independent_of_edge_indices_witness :
  valid_input tm_mesh_ok strip [0; 1]%nat ∧
  beautify_run (math := adversary) 0 0 0 0 10 strip index0 [] [] [0; 1]%nat
    = Finished (strip_s 10) ∧
  ∃ s', beautify_run (math := adversary) 0 0 0 0 10 strip index7 [] [] [0; 1]%nat
          = Finished s' ∧
        same_but_index (strip_s 10) s' ∧
        (∀ k e, edge_array (strip_s 10) !! k = Some e →
                e_index s' e = e_index (strip_s 10) e).
Proof.
  split; [exact strip_valid_input|]. split; [exact strip_run|].
  exact (result_independent_of_edge_indices (math := adversary)
           tm_mesh_ok tm_rotate_spec 0 0 0 0 10 strip index0 index7 [] []
           [0; 1]%nat (strip_s 10) strip_valid_input strip_run).
Defined.

Lemma roofs_run :
  beautify_run 0 1 0 0 2 roofs index0 [] [] [0; 1]%nat = Finished roofs_s2.
Proof. vm_compute. reflexivity. Qed.

Lemma beautify_run_returns_loop_state_witness :
  valid_input tm_mesh_ok roofs [0; 1]%nat ∧
  beautify_run 0 1 0 0 2 roofs index0 [] [] [0; 1]%nat = Finished roofs_s2 ∧
  reachable 0 1 0 0 (beautify_init 0 1 roofs index0 [] [] [0; 1]%nat) roofs_s2 ∧
  heap_nodes (eheap roofs_s2) = [] ∧
  eheap_table roofs_s2 = replicate (length [0; 1]%nat) None ∧
  BM_mesh_beautify_fill 0 1 0 0 2 roofs index0 [] [] [0; 1]%nat
    = Finished (release roofs_s2).
Proof.
  split; [exact roofs_valid_input|]. split; [exact roofs_run|].
  exact (beautify_run_returns_loop_state tm_mesh_ok tm_rotate_spec 0 1 0 0 2
           roofs index0 [] [] [0; 1]%nat roofs_s2 roofs_valid_input roofs_run).
Defined.

Lemma manifold_assertions_hold_witness :
  valid_input tm_mesh_ok strip [0; 1]%nat ∧
  reachable (math := adversary) 0 0 0 0 strip_s0 (strip_s 2) ∧
  heap_top (heap_nodes (eheap (strip_s 2))) = Some strip_n2 ∧
  tm_mesh_ok (bm (strip_s 2)) ∧
  BM_edge_is_manifold (bm (strip_s 2)) (node_ptr strip_n2) = true ∧
  ∀ m' e', BM_edge_rotate (bm (strip_s 2)) (node_ptr strip_n2) = Some (m', e') →
    tm_mesh_ok m' ∧ BM_edge_is_manifold m' e' = true ∧
    ∃ k, e_index (strip_s 2) (node_ptr strip_n2) = Z.of_nat k ∧
      ∀ x s1, same_world (rotated (popped (strip_s 2) strip_n2 k) k m' e') s1 →
        edge_in_array x s1 = true → BM_edge_is_manifold (bm s1) x = true.
Proof.
  split; [exact strip_valid_input|]. split; [exact strip_s2_reachable|].
  split; [exact strip_s2_top|].
  exact (manifold_assertions_hold (math := adversary) tm_mesh_ok tm_rotate_spec
           0 0 0 0 strip index0 [] [] [0; 1]%nat (strip_s 2) strip_n2
           strip_valid_input strip_s2_reachable strip_s2_top).
Defined.

Lemma strip_s2_index : e_index (strip_s 2) (node_ptr strip_n2) = Z.of_nat 0.
Proof. vm_compute. reflexivity. Qed.

(** The third pass on the pentagon: the slot 0 records the state its edge
    gets; the state it leaves is the first one the slot recorded. *)
Lemma rotation_does_not_record_state_left_witness :
  valid_input tm_mesh_ok strip [0; 1]%nat ∧
  reachable (math := adversary) 0 0 0 0 strip_s0 (strip_s 2) ∧
  heap_top (heap_nodes (eheap (strip_s 2))) = Some strip_n2 ∧
  e_index (strip_s 2) (node_ptr strip_n2) = Z.of_nat 0 ∧
  BM_edge_rotate (bm (strip_s 2)) (node_ptr strip_n2) = Some (strip_m3, 0%nat) ∧
  loop_body (math := adversary) 0 0 0 0 (strip_s 2) = Some (strip_s 3) ∧
  slot_set (strip_s 3) 0 = erot_state_current strip_m3 0%nat :: slot_set (strip_s 2) 0 ∧
  erot_state_alternate (bm (strip_s 3)) 0%nat
    = erot_state_current (bm (strip_s 2)) (node_ptr strip_n2) ∧
  (erot_state_alternate (bm (strip_s 3)) 0%nat ∈ slot_set (strip_s 3) 0 ↔
   erot_state_current (bm (strip_s 2)) (node_ptr strip_n2) ∈ slot_set (strip_s 2) 0 ∨
   erot_state_current (bm (strip_s 2)) (node_ptr strip_n2)
     = erot_state_alternate (bm (strip_s 2)) (node_ptr strip_n2)).
Proof.
  split; [exact strip_valid_input|]. split; [exact strip_s2_reachable|].
  split; [exact strip_s2_top|]. split; [exact strip_s2_index|].
  split; [exact strip_s2_rotate|]. split; [exact strip_s2_step|].
  exact (rotation_does_not_record_state_left (math := adversary)
           tm_mesh_ok tm_rotate_spec 0 0 0 0 strip index0 [] [] [0; 1]%nat
           (strip_s 2) strip_n2 0%nat strip_m3 0%nat (strip_s 3)
           strip_valid_input strip_s2_reachable strip_s2_top strip_s2_index
           strip_s2_rotate strip_s2_step).
Defined.





(** The run on the pentagon with flags to set, and without. *)
Example strip_flags_erased :
  outcome_map erase_flags
    (beautify_run (math := adversary) 0 0 8 4 10 strip index0 [(5%nat, 1)] []
       [0; 1]%nat)
  = Finished (strip_s 10).
Proof. vm_compute. reflexivity. Qed.

Lemma roofs_ab_valid_input : valid_input tm_mesh_ok roofs [1]%nat.
Proof.
  split; [|split].
  - apply (bool_decide_unpack _). vm_compute. exact I.
  - apply (bool_decide_unpack _). vm_compute. exact I.
  - intros e He. apply list_elem_of_singleton in He as ->. vm_compute. reflexivity.
Qed.

Lemma roofs_ab_smooth : smooth_run 0 1 0 0 roofs_ab_s0 roofs_ab_s1.
Proof.
  apply (smooth_step _ _ _ _ _ roofs_ab_s0 roofs_ab_s1 roofs_ab_n0 roofs_rotated 1%nat);
    [apply smooth_init|vm_compute; reflexivity..].
Qed.

(** With a-b as the only candidate: the rotation to p-q is executed, p-q has
    a positive cost, and the call returns with the slot settled. *)
Lemma unrefused_run_settles_witness :
  valid_input tm_mesh_ok roofs [1]%nat ∧
  smooth_run 0 1 0 0 roofs_ab_s0 roofs_ab_s1 ∧
  (∀ k e, edge_array roofs_ab_s1 !! k = Some e →
     eheap_table roofs_ab_s1 !! k = Some None →
     flt (bm_edge_calc_rotate_beauty (bm roofs_ab_s1) e 0 1) fzero = false ∨
     erot_state_alternate (bm roofs_ab_s1) e ∈ slot_set roofs_ab_s1 k) ∧
  (BLI_heap_is_empty (eheap roofs_ab_s1) = true →
   ∀ k e, edge_array roofs_ab_s1 !! k = Some e →
     flt (bm_edge_calc_rotate_beauty (bm roofs_ab_s1) e 0 1) fzero = false ∨
     erot_state_alternate (bm roofs_ab_s1) e ∈ slot_set roofs_ab_s1 k).
Proof.
  split; [exact roofs_ab_valid_input|]. split; [exact roofs_ab_smooth|].
  exact (unrefused_run_settles tm_mesh_ok tm_rotate_spec 0 1 0 0
           roofs index0 [] [] [1]%nat roofs_ab_s1
           roofs_ab_valid_input roofs_ab_smooth).
Defined.

End TriMeshFacts.
